(** * Structural object helpers of [src/utils/object.ts]

    A shallow embedding of [deepClone], [pick], [omit], [isObject],
    [deepMerge], [flattenObject] and [fromEntries], followed by the
    properties of the object-transformation core.  The array helpers of
    [src/utils/array.ts] and the HTML escaping of the string helpers are
    embedded after them, with their properties at the end.

    Modelling conventions.
    - A JavaScript value is a primitive or a reference into a store of
      objects.  The store is a list; a reference is an index and [new]
      appends, so an object allocated later has a larger address.
    - An object is a plain record, an array or a [Date].  Its own enumerable
      properties are an association list in the order they are enumerated;
      an assignment to an existing key keeps its place, a new key goes last.
      Engines enumerate integer-like keys first; results are compared by
      lookup, which does not depend on where a new key is placed.
    - Property lookup ([obj[key]], [key in obj]) consults own properties only:
      keys are taken not to name members inherited from [Object.prototype]
      (such as [toString] or the [__proto__] accessor).
    - Numbers are integers: the code only copies them and tests their
      truthiness.  Functions, symbols and exotic objects are not modelled.
    - Recursion through the store is not structural, so the recursive
      functions take a fuel argument; [None] means the fuel ran out
      (a cyclic input exhausts every amount of fuel, as the call stack
      overflows in the source).  [deepClone] also answers [None] for a
      reference that points outside the store. *)

From stdpp Require Import base option list strings pretty.
From Stdlib Require Import ZArith Lia Ascii.

Open Scope string_scope.
Open Scope list_scope.

(** ** Values, objects and the store *)

Abbreviation loc := nat.

Inductive prim :=
| Undefined
| Null
| Bool (b : bool)
| Num (n : Z)
| Str (s : string).

Inductive value :=
| Prim (p : prim)
| Ref (l : loc).

Abbreviation props := (list (string * value)).

Inductive object :=
| RecObj (own : props)
| ArrObj (items : list value)
| DateObj (time : Z) (own : props).

Abbreviation heap := (list object).

(** ** Own properties *)

Fixpoint get (k : string) (ps : props) : option value :=
  match ps with
  | [] => None
  | (k', v) :: ps' => if String.eqb k k' then Some v else get k ps'
  end.

(** [acc[k] = v] on the property list of [acc]. *)
Fixpoint put (k : string) (v : value) (ps : props) : props :=
  match ps with
  | [] => [(k, v)]
  | (k', v') :: ps' =>
      if String.eqb k k' then (k, v) :: ps' else (k', v') :: put k v ps'
  end.

Definition keys (ps : props) : list string := map fst ps.

(** [Object.entries(o)]: an array lists its elements under their decimal
    indices. *)
Definition own_props (o : object) : props :=
  match o with
  | RecObj own => own
  | ArrObj items => imap (fun i v => (pretty i, v)) items
  | DateObj _ own => own
  end.

Definition with_props (o : object) (ps : props) : object :=
  match o with
  | RecObj _ => RecObj ps
  | ArrObj items => ArrObj items
  | DateObj time _ => DateObj time ps
  end.

(** [key in obj] *)
Definition key_in (key : string) (o : object) : bool :=
  match get key (own_props o) with Some _ => true | None => false end.

(** [obj[key]] *)
Definition prop (o : object) (key : string) : value :=
  default (Prim Undefined) (get key (own_props o)).

(** [keys.includes(key)] *)
Definition includes (ks : list string) (key : string) : bool :=
  existsb (String.eqb key) ks.

(** The built-in [Object.fromEntries]. *)
Definition Object_fromEntries (es : props) : props :=
  fold_left (fun acc e => put (fst e) (snd e) acc) es [].

(** The built-in [Object.assign(acc, src)] on property lists. *)
Definition Object_assign (acc src : props) : props :=
  fold_left (fun acc e => put (fst e) (snd e) acc) src acc.

(** ** Reading and writing through the store *)

Definition entries_of (h : heap) (v : value) : props :=
  match v with
  | Ref l => match h !! l with Some o => own_props o | None => [] end
  | Prim _ => []
  end.

(** [v[key]] *)
Definition read (h : heap) (v : value) (key : string) : value :=
  default (Prim Undefined) (get key (entries_of h v)).

(** [Object.assign(v, { [key]: x })]; [deepMerge] only assigns to values that
    passed [isObject]. *)
Definition write (h : heap) (v : value) (key : string) (x : value) : heap :=
  match v with
  | Ref l =>
      match h !! l with
      | Some o => <[l := with_props o (put key x (own_props o))]> h
      | None => h
      end
  | Prim _ => h
  end.

Definition is_null (v : value) : bool :=
  match v with Prim Null => true | _ => false end.

Definition is_undefined (v : value) : bool :=
  match v with Prim Undefined => true | _ => false end.

(** [typeof v === "object"] *)
Definition typeof_object (v : value) : bool :=
  match v with
  | Prim Null => true
  | Prim _ => false
  | Ref _ => true
  end.

(** [Array.isArray(v)] *)
Definition isArray (h : heap) (v : value) : bool :=
  match v with
  | Ref l => match h !! l with Some (ArrObj _) => true | _ => false end
  | Prim _ => false
  end.

(** Truthiness, as tested by [!target[key]]. *)
Definition truthy (v : value) : bool :=
  match v with
  | Prim Undefined | Prim Null => false
  | Prim (Bool b) => b
  | Prim (Num n) => negb (n =? 0)%Z
  | Prim (Str s) => negb (String.eqb s "")
  | Ref _ => true
  end.

(** ** [pick], [omit], [fromEntries] *)

(** [pick] and [omit] read the own properties of [obj] and return the
    properties of the new record they build. *)
Definition pick (obj : object) (ks : list string) : props :=
  fold_left
    (fun acc key => if key_in key obj then put key (prop obj key) acc else acc)
    ks [].

Definition omit (obj : object) (ks : list string) : props :=
  Object_fromEntries
    (List.filter (fun e => negb (includes ks (fst e))) (own_props obj)).

Definition fromEntries (entries : props) : props :=
  fold_left (fun acc e => put (fst e) (snd e) acc) entries [].

(** ** [isObject] and [deepMerge] *)

Definition isObject (h : heap) (item : value) : bool :=
  negb (is_null item) && typeof_object item && negb (isArray h item).

(** [ks.forEach(f)] with the store threaded through. *)
Fixpoint forEach (f : heap -> string -> option heap) (ks : list string)
    (h : heap) : option heap :=
  match ks with
  | [] => Some h
  | k :: ks' => h' ← f h k; forEach f ks' h'
  end.

(** The body of the [forEach] callback of [deepMerge]; [merge] is the
    recursive call.  The object literals handed to [Object.assign] are
    temporaries that nothing refers to afterwards and are left out of the
    store; the inner [{}] of [{ [key]: {} }] is the new record that becomes
    [target[key]]. *)
Definition mergeKey (merge : heap -> value -> list value -> option (value * heap))
    (target source : value) (h : heap) (key : string) : option heap :=
  if isObject h (read h source key) then
    let h1 :=
      if truthy (read h target key) then h
      else write (h ++ [RecObj []]) target key (Ref (length h)) in
    r ← merge h1 (read h1 target key) [read h1 source key];
    Some (snd r)
  else Some (write h target key (read h source key)).

Fixpoint deepMerge (fuel : nat) (h : heap) (target : value)
    (sources : list value) : option (value * heap) :=
  match fuel with
  | O => None
  | S fuel' =>
      match sources with
      | [] => Some (target, h)                  (* if (!sources.length) *)
      | source :: sources' =>                   (* sources.shift() *)
          if is_undefined source then Some (target, h)
          else
            h1 ← (if isObject h target && isObject h source
                  then forEach (mergeKey (deepMerge fuel') target source)
                         (keys (entries_of h source)) h
                  else Some h);
            deepMerge fuel' h1 target sources'
      end
  end.

(** ** [flattenObject] *)

(** [ks.reduce(f, acc)] for a callback that may run out of fuel. *)
Fixpoint reduce (f : props -> string -> option props) (ks : list string)
    (acc : props) : option props :=
  match ks with
  | [] => Some acc
  | k :: ks' => acc' ← f acc k; reduce f ks' acc'
  end.

Definition flattenKey (flatten : value -> string -> option props) (h : heap)
    (obj : value) (prefix : string) (acc : props) (key : string) : option props :=
  let pre := if (0 <? String.length prefix)%nat then prefix +:+ "." else "" in
  let value := read h obj key in
  if typeof_object value && negb (is_null value) && negb (isArray h value)
  then sub ← flatten value (pre +:+ key); Some (Object_assign acc sub)
  else Some (put (pre +:+ key) value acc).

(** The result is the property list of the record [flattenObject] returns;
    the store is only read.  [obj] is an object ([Record<string, any>]); the
    inline test on [value] is the one [isObject] makes. *)
Fixpoint flattenObject (fuel : nat) (h : heap) (obj : value) (prefix : string)
    : option props :=
  match fuel with
  | O => None
  | S fuel' =>
      reduce (flattenKey (flattenObject fuel' h) h obj prefix)
        (keys (entries_of h obj)) []
  end.

(** ** [deepClone] *)

(** [xs.map(f)] with the store threaded through the calls of [f]. *)
Fixpoint mapH {A B : Type} (f : heap -> A -> option (B * heap)) (xs : list A)
    (h : heap) : option (list B * heap) :=
  match xs with
  | [] => Some ([], h)
  | x :: xs' =>
      r ← f h x;
      rs ← mapH f xs' (snd r);
      Some (fst r :: fst rs, snd rs)
  end.

(** [Array.prototype.map] creates its result before it visits the elements;
    nothing can reach that array until [map] returns, so the model allocates
    it once the elements are cloned. *)
Fixpoint deepClone (fuel : nat) (h : heap) (obj : value) : option (value * heap) :=
  match fuel with
  | O => None
  | S fuel' =>
      match obj with
      | Prim _ => Some (obj, h)     (* null, or typeof obj !== "object" *)
      | Ref l =>
          match h !! l with
          | Some (DateObj time _) =>              (* new Date(obj.getTime()) *)
              Some (Ref (length h), h ++ [DateObj time []])
          | Some (ArrObj items) =>
              r ← mapH (deepClone fuel') items h;
              Some (Ref (length (snd r)), snd r ++ [ArrObj (fst r)])
          | Some (RecObj own) =>
              r ← mapH (fun (h : heap) (e : string * value) =>
                          c ← deepClone fuel' h (snd e);
                          Some ((fst e, fst c), snd c)) own h;
              Some (Ref (length (snd r)),
                    snd r ++ [RecObj (Object_fromEntries (fst r))])
          | None => None
          end
      end
  end.

(** ** Well-formed stores and the tree a value unfolds to *)

(** An object has each of its keys once. *)
Fixpoint distinct (ks : list string) : bool :=
  match ks with
  | [] => true
  | k :: ks' => negb (includes ks' k) && distinct ks'
  end.

Definition keys_ok_obj (o : object) : bool :=
  match o with
  | ArrObj _ => true
  | RecObj own | DateObj _ own => distinct (keys own)
  end.

Definition keys_ok (h : heap) : bool := forallb keys_ok_obj h.

#[local] Unset Elimination Schemes.
(** Deep structure of a value: what deep equality compares.  A date is its
    timestamp. *)
Inductive tree :=
| TPrim (p : prim)
| TDate (time : Z)
| TArr (items : list tree)
| TRec (fields : list (string * tree)).
#[local] Set Elimination Schemes.

Fixpoint mapO {A B : Type} (f : A -> option B) (xs : list A) : option (list B) :=
  match xs with
  | [] => Some []
  | x :: xs' => y ← f x; ys ← mapO f xs'; Some (y :: ys)
  end.

(** [tree_of n h v = Some t]: in the store [h] the value [v] is finite and
    acyclic, of depth at most [n], and unfolds to [t]. *)
Fixpoint tree_of (n : nat) (h : heap) (v : value) : option tree :=
  match n with
  | O => None
  | S n' =>
      match v with
      | Prim p => Some (TPrim p)
      | Ref l =>
          match h !! l with
          | Some (DateObj time _) => Some (TDate time)
          | Some (ArrObj items) =>
              ts ← mapO (tree_of n' h) items; Some (TArr ts)
          | Some (RecObj own) =>
              fs ← mapO (fun e : string * value =>
                           t ← tree_of n' h (snd e); Some (fst e, t)) own;
              Some (TRec fs)
          | None => None
          end
      end
  end.

(** [h2] holds the same objects as [h] at the addresses from [a] up to [b]. *)
Definition agree_between (a b : nat) (h h2 : heap) : Prop :=
  forall l, a <= l < b -> h2 !! l = h !! l.

(** The values an object refers to. *)
Definition children (o : object) : list value :=
  match o with
  | RecObj own | DateObj _ own => map snd own
  | ArrObj items => items
  end.

(** [reach h v l]: the object at [l] is [v] itself or nested in it. *)
Inductive reach (h : heap) : value -> loc -> Prop :=
| reach_here l o : h !! l = Some o -> reach h (Ref l) l
| reach_step l o w l' :
    h !! l = Some o -> In w (children o) -> reach h w l' -> reach h (Ref l) l'.

(** A value that refers to nothing below the address [a]. *)
Definition fresh_val (a : nat) (w : value) : Prop :=
  match w with Prim _ => True | Ref l => a <= l end.

(** The objects from the address [a] on refer to nothing below [a]. *)
Definition region_closed (a : nat) (h : heap) : Prop :=
  forall l o w, a <= l -> h !! l = Some o -> In w (children o) -> fresh_val a w.

(** ** Paths to the leaves of a nested object *)

(** [prefix] followed by a dot, or nothing for the empty prefix. *)
Definition dotted (prefix : string) : string :=
  if (0 <? String.length prefix)%nat then prefix +:+ "." else "".

(** The key [flattenObject] builds for the path [p] below [prefix]. *)
Fixpoint render (prefix : string) (p : list string) : string :=
  match p with
  | [] => prefix
  | k :: p' => render (dotted prefix +:+ k) p'
  end.

(** The keys of [p] joined with dots. *)
Definition dot_join (p : list string) : string := String.concat "." p.

(** [leaf_at h obj p v]: following the keys of [p] from [obj] goes through
    values that pass [isObject] and ends at [v], which does not. *)
Inductive leaf_at (h : heap) : value -> list string -> value -> Prop :=
| leaf_here obj k v :
    get k (entries_of h obj) = Some v -> isObject h v = false ->
    leaf_at h obj [k] v
| leaf_down obj k w p v :
    get k (entries_of h obj) = Some w -> isObject h w = true ->
    leaf_at h w p v ->
    leaf_at h obj (k :: p) v.

(** [depth_le n h v]: the values nested in [v] through properties of
    records and dates form no cycle and are at most [n] levels deep. *)
Fixpoint depth_le (n : nat) (h : heap) (v : value) : bool :=
  match n with
  | O => negb (isObject h v)
  | S n' =>
      negb (isObject h v)
      || forallb (fun e => depth_le n' h (snd e)) (entries_of h v)
  end.

(** ** What [deepMerge] can write to *)

(** The objects that pass [isObject]: records and dates. *)
Definition mergeable (o : object) : bool :=
  match o with ArrObj _ => false | RecObj _ | DateObj _ _ => true end.

(** [mreach h v l]: the object at [l] is [v] itself or nested in it through
    properties of records and dates only.  These are the objects a merge into
    [v] may assign to. *)
Inductive mreach (h : heap) : value -> loc -> Prop :=
| mreach_here l o :
    h !! l = Some o -> mergeable o = true -> mreach h (Ref l) l
| mreach_step l o k w l' :
    h !! l = Some o -> mergeable o = true -> In (k, w) (own_props o) ->
    mreach h w l' -> mreach h (Ref l) l'.

(** No reference leaves the store. *)
Definition valid_val (n : nat) (v : value) : bool :=
  match v with Prim _ => true | Ref l => (l <? n)%nat end.

Definition closed (h : heap) : bool :=
  forallb (fun o => forallb (valid_val (length h)) (children o)) h.

Definition heap_ok (h : heap) : bool := keys_ok h && closed h.

Definition same_kind (o o' : object) : Prop :=
  match o, o' with
  | RecObj _, RecObj _ => True
  | ArrObj a, ArrObj b => a = b
  | DateObj t _, DateObj t' _ => t = t'
  | _, _ => False
  end.

(** [ext h t h']: the store [h'] comes from [h] by a merge into [t].  Objects
    keep their address and kind, arrays and everything outside [mreach h t]
    are as before, and a property in [h'] is an old one, a value that is not
    merged into, or a reference to an object made since. *)
Record ext (h : heap) (t : value) (h' : heap) : Prop := {
  ext_len : length h <= length h';
  ext_ok : heap_ok h' = true;
  ext_kind : forall l o, h !! l = Some o ->
    exists o', h' !! l = Some o' /\ same_kind o o';
  ext_frame : forall l, l < length h -> ~ mreach h t l -> h' !! l = h !! l;
  ext_edges : forall l o' k v,
    h' !! l = Some o' -> mergeable o' = true -> In (k, v) (own_props o') ->
    (exists o, h !! l = Some o /\ In (k, v) (own_props o)) \/
    isObject h' v = false \/
    (exists l', v = Ref l' /\ length h <= l')
}.

(** [apart h tv v]: nothing a merge into [tv] may assign to is [v] or nested
    in [v] through properties of records and dates. *)
Definition apart (h : heap) (tv v : value) : Prop :=
  forall l, mreach h v l -> ~ mreach h tv l.

(** [rooted h tv]: the object [tv] is not nested in its own properties. *)
Definition rooted (h : heap) (tv : value) : Prop :=
  forall l o k w, tv = Ref l -> h !! l = Some o -> In (k, w) (own_props o) ->
    ~ mreach h w l.

(** ** Checking separation on a given store *)

Definition inb (l : loc) (R : list loc) : bool := existsb (Nat.eqb l) R.

Definition refs_in (R : list loc) (vs : list value) : bool :=
  forallb (fun w => match w with Ref l => inb l R | Prim _ => true end) vs.

(** [region h R]: the objects at the addresses [R] refer only to addresses
    of [R]. *)
Definition region (h : heap) (R : list loc) : bool :=
  forallb (fun l => match h !! l with
                    | Some o => refs_in R (children o)
                    | None => true
                    end) R.

Definition disjoint (R1 R2 : list loc) : bool :=
  forallb (fun l => negb (inb l R1)) R2.

(** [absorbed h tv sv]: the record [tv] holds the merged contents of [sv].
    It has the keys of [sv]; under a key for which [sv] holds a value that is
    not merged into it holds that same value, and under a key for which [sv]
    holds a record or a date it holds a record that has absorbed it. *)
Inductive absorbed (h : heap) : value -> value -> Prop :=
| absorbed_intro lt pt ls os :
    h !! lt = Some (RecObj pt) ->
    h !! ls = Some os -> mergeable os = true ->
    keys pt = keys (own_props os) ->
    (forall j w, In (j, w) (own_props os) -> isObject h w = false ->
       read h (Ref lt) j = w) ->
    (forall j w, In (j, w) (own_props os) -> isObject h w = true ->
       absorbed h (read h (Ref lt) j) w) ->
    absorbed h (Ref lt) (Ref ls).

(** The state of a merge of the object at [ls] into the record at [lt], which
    was empty in [h0], once the keys [done] are processed. *)
Definition into_inv (h0 : heap) (lt ls : loc) (done : list string)
    (hc : heap) : Prop :=
  ext h0 (Ref lt) hc /\
  (exists pc, hc !! lt = Some (RecObj pc) /\ keys pc = done) /\
  forall j, In j done ->
    (isObject h0 (read h0 (Ref ls) j) = false ->
       read hc (Ref lt) j = read h0 (Ref ls) j) /\
    (isObject h0 (read h0 (Ref ls) j) = true ->
       absorbed hc (read hc (Ref lt) j) (read h0 (Ref ls) j) /\
       exists F, read hc (Ref lt) j = Ref F /\ length h0 <= F).

(** ** What [deepClone] visits *)

(** The values [deepClone] recurses into from an object: the values of a
    record and the elements of an array, nothing for a date. *)
Definition clone_children (o : object) : list value :=
  match o with
  | RecObj own => map snd own
  | ArrObj items => items
  | DateObj _ _ => []
  end.

(** [inside h v l]: the object at [l] is [v] or is met when [v] is cloned. *)
Inductive inside (h : heap) : value -> loc -> Prop :=
| inside_here l : inside h (Ref l) l
| inside_step l o w l' :
    h !! l = Some o -> In w (clone_children o) -> inside h w l' ->
    inside h (Ref l) l'.

(** ** What a merge keeps *)

(** [grows h h']: every object of [h] is in [h'] at its address, of the kind
    it was and with at least the keys it had, and the objects made since are
    records. *)
Definition grows (h h' : heap) : Prop :=
  length h <= length h' /\
  (forall l o, h !! l = Some o ->
     exists o', h' !! l = Some o' /\ same_kind o o' /\
       forall k, In k (keys (own_props o)) -> In k (keys (own_props o'))) /\
  (forall l o', length h <= l -> h' !! l = Some o' -> exists ps, o' = RecObj ps).

(** [assignable h v]: where [v] is an object of the store, it is a record or
    a date. *)
Definition assignable (h : heap) (v : value) : Prop :=
  forall l o, v = Ref l -> h !! l = Some o -> mergeable o = true.

(** * Array helpers of [src/utils/array.ts]

    An array argument is given by the list of its elements; every function
    here builds a new array and leaves its arguments as they are.  Elements
    are values of the store model above, array lengths and [size], [start],
    [end] and [step] are integers. *)

(** ** [Set], [unique], [intersection], [difference] *)

(** [SameValueZero], the equality of [Set]: on the values modelled here,
    equality of primitives and identity of objects. *)
Definition same_value_zero (a b : value) : bool :=
  match a, b with
  | Prim Undefined, Prim Undefined => true
  | Prim Null, Prim Null => true
  | Prim (Bool x), Prim (Bool y) => Bool.eqb x y
  | Prim (Num x), Prim (Num y) => (x =? y)%Z
  | Prim (Str x), Prim (Str y) => String.eqb x y
  | Ref x, Ref y => Nat.eqb x y
  | _, _ => false
  end.

(** A [Set] is the list of its elements in insertion order. *)
Definition Set_has (s : list value) (x : value) : bool :=
  existsb (same_value_zero x) s.

Definition Set_add (s : list value) (x : value) : list value :=
  if Set_has s x then s else s ++ [x].

(** [new Set(xs)] *)
Definition new_Set (xs : list value) : list value := fold_left Set_add xs [].

(** [[...new Set(array)]] *)
Definition unique (array : list value) : list value := new_Set array.

Definition intersection (a b : list value) : list value :=
  let setB := new_Set b in
  List.filter (fun x => Set_has setB x) a.

Definition difference (a b : list value) : list value :=
  let setB := new_Set b in
  List.filter (fun x => negb (Set_has setB x)) a.

(** ** [chunk] *)

(** [array.slice(from, to)] for indices that are not negative. *)
Definition slice {A : Type} (array : list A) (from to : nat) : list A :=
  take (to - from) (drop from array).

(** [Math.ceil(a / b)] for [0 <= a] and [0 < b]. *)
Definition ceil_div (a b : Z) : Z := ((a + b - 1) / b)%Z.

(** [Array.from({ length }, f)] takes a length that is negative or [NaN] for
    0 and throws a [RangeError] for [Infinity], which [None] stands for: with
    [size] 0 the quotient is [NaN] for an empty array and [Infinity]
    otherwise, and with a negative [size] it is not positive. *)
Definition chunk {A : Type} (array : list A) (size : Z) : option (list (list A)) :=
  let len := Z.of_nat (length array) in
  if (size =? 0)%Z then (if (len =? 0)%Z then Some [] else None)
  else if (size <? 0)%Z then Some []
  else
    let n := Z.to_nat size in
    Some (map (fun index => slice array (index * n) (index * n + n))
              (seq 0 (Z.to_nat (ceil_div len size)))).

(** ** [range] *)

(** The loop of [range]; the fuel bounds the number of iterations, and
    [None] means that the loop has not ended within it. *)
Fixpoint range_loop (fuel : nat) (i stop step : Z) (result : list Z)
    : option (list Z) :=
  match fuel with
  | O => None
  | S fuel' =>
      if (i <=? stop)%Z
      then range_loop fuel' (i + step)%Z stop step (result ++ [i])
      else Some result
  end.

Definition range (fuel : nat) (start stop step : Z) : option (list Z) :=
  range_loop fuel start stop step [].

(** ** [flatten] *)

(** The elements of the array [v] refers to. *)
Definition items_of (h : heap) (v : value) : list value :=
  match v with
  | Ref l => match h !! l with Some (ArrObj items) => items | _ => [] end
  | Prim _ => []
  end.

(** [for (const x of xs) s = f(s, x)] for a body that may run out of fuel. *)
Fixpoint for_of {A S : Type} (f : S -> A -> option S) (xs : list A) (s : S)
    : option S :=
  match xs with
  | [] => Some s
  | x :: xs' => s' ← f s x; for_of f xs' s'
  end.

(** The body of the loop of [flatten]; [inner] is the recursive call. *)
Definition flattenVal (inner : list value -> option (list value)) (h : heap)
    (result : list value) (val : value) : option (list value) :=
  if isArray h val
  then sub ← inner (items_of h val); Some (result ++ sub)
  else Some (result ++ [val]).

Fixpoint flatten (fuel : nat) (h : heap) (array : list value)
    : option (list value) :=
  match fuel with
  | O => None
  | S fuel' => for_of (flattenVal (flatten fuel' h) h) array []
  end.

(** ** [groupBy] *)

(** The record [groupBy] builds: its keys with the elements of the array
    held under each of them, in insertion order of the keys. *)
Abbreviation groups := (list (string * list value)).

(** [acc[key]] *)
Fixpoint group_of (key : string) (acc : groups) : option (list value) :=
  match acc with
  | [] => None
  | (k, xs) :: acc' => if String.eqb key k then Some xs else group_of key acc'
  end.

(** [acc[key] = xs], also the effect on [acc] of a [push] that makes the
    array under [key] hold [xs]. *)
Fixpoint set_group (key : string) (xs : list value) (acc : groups) : groups :=
  match acc with
  | [] => [(key, xs)]
  | (k, ys) :: acc' =>
      if String.eqb key k then (k, xs) :: acc' else (k, ys) :: set_group key xs acc'
  end.

(** The callback of the [reduce] of [groupBy].  A key maps to nothing or to
    an array, and an array is truthy. *)
Definition groupItem (keyGetter : value -> string) (acc : groups) (item : value)
    : groups :=
  let key := keyGetter item in
  let acc1 := match group_of key acc with
              | None => set_group key [] acc
              | Some _ => acc
              end in
  set_group key (default [] (group_of key acc1) ++ [item]) acc1.

Definition groupBy (array : list value) (keyGetter : value -> string) : groups :=
  fold_left (groupItem keyGetter) array [].

(** ** [shuffle] *)

(** [[result[i], result[j]] = [result[j], result[i]]] for indices inside the
    array. *)
Definition swap {A : Type} (result : list A) (i j : nat) : list A :=
  match result !! i, result !! j with
  | Some x, Some y => <[j := x]> (<[i := y]> result)
  | _, _ => result
  end.

(** [random i] is the value of [Math.floor(Math.random() * (i + 1))] in the
    iteration for [i], a number from 0 to [i]. *)
Fixpoint shuffle_loop {A : Type} (random : nat -> nat) (i : nat)
    (result : list A) : list A :=
  match i with
  | O => result
  | S i' => shuffle_loop random i' (swap result i (random i))
  end.

Definition shuffle {A : Type} (random : nat -> nat) (array : list A) : list A :=
  shuffle_loop random (length array - 1) array.

(** * HTML escaping of the string helpers ([escapeHtml], [unescapeHtml])

    A string is the sequence of its code units. *)

(** [pat] is at the start of [s]. *)
Fixpoint starts_with (pat s : string) : bool :=
  match pat with
  | EmptyString => true
  | String a pat' =>
      match s with
      | EmptyString => false
      | String b s' => Ascii.eqb a b && starts_with pat' s'
      end
  end.

(** [s.replace(/pat/g, rep)] for a pattern that is a literal text and not
    empty: the matches are taken from left to right and do not overlap;
    [skip] counts the code units of a match that are still to be passed
    over. *)
Fixpoint replace_from (pat rep : string) (skip : nat) (s : string) : string :=
  match s with
  | EmptyString => EmptyString
  | String c s' =>
      match skip with
      | S k => replace_from pat rep k s'
      | O =>
          if starts_with pat s
          then rep +:+ replace_from pat rep (String.length pat - 1) s'
          else String c (replace_from pat rep 0 s')
      end
  end.

Definition replace_all (pat rep s : string) : string := replace_from pat rep 0 s.

(** The text that consists of one double quote. *)
Definition quot : string := String "034"%char EmptyString.

Definition escapeHtml (html : string) : string :=
  replace_all "'" "&#039;"
    (replace_all quot "&quot;"
       (replace_all ">" "&gt;"
          (replace_all "<" "&lt;"
             (replace_all "&" "&amp;" html)))).

Definition unescapeHtml (html : string) : string :=
  replace_all "&#039;" "'"
    (replace_all "&quot;" quot
       (replace_all "&gt;" ">"
          (replace_all "&lt;" "<"
             (replace_all "&amp;" "&" html)))).

(** The entity that stands for a code unit once [n] of the five replacements
    of [unescapeHtml] are done; [entity_after 0] is the entity [escapeHtml]
    writes. *)
Definition entity_after (n : nat) (c : ascii) : string :=
  if Ascii.eqb c "&"%char then (if (n <? 1)%nat then "&amp;" else String c EmptyString)
  else if Ascii.eqb c "<"%char then (if (n <? 2)%nat then "&lt;" else String c EmptyString)
  else if Ascii.eqb c ">"%char then (if (n <? 3)%nat then "&gt;" else String c EmptyString)
  else if Ascii.eqb c "034"%char then (if (n <? 4)%nat then "&quot;" else String c EmptyString)
  else if Ascii.eqb c "'"%char then (if (n <? 5)%nat then "&#039;" else String c EmptyString)
  else String c EmptyString.

(** Every code unit of [s] replaced by the text [f] gives for it. *)
Fixpoint map_units (f : ascii -> string) (s : string) : string :=
  match s with
  | EmptyString => EmptyString
  | String c s' => f c +:+ map_units f s'
  end.

(** The code unit [c] occurs in [s]. *)
Fixpoint has_unit (c : ascii) (s : string) : bool :=
  match s with
  | EmptyString => false
  | String b s' => Ascii.eqb c b || has_unit c s'
  end.

(** * Properties *)

(** ** Property lists *)

Lemma get_put (k k' : string) (v : value) (ps : props) :
  get k' (put k v ps) = if String.eqb k' k then Some v else get k' ps.
Proof.
  induction ps as [|[k0 v0] ps IH]; simpl.
  - destruct (String.eqb_spec k' k); reflexivity.
  - destruct (String.eqb_spec k k0) as [->|Hk]; simpl.
    + destruct (String.eqb_spec k' k0); reflexivity.
    + destruct (String.eqb_spec k' k0) as [->|Hk'].
      * destruct (String.eqb_spec k0 k); [congruence | reflexivity].
      * exact IH.
Qed.

Lemma get_put_eq (k : string) (v : value) (ps : props) :
  get k (put k v ps) = Some v.
Proof. rewrite get_put, String.eqb_refl. reflexivity. Qed.

Lemma get_put_ne (k k' : string) (v : value) (ps : props) :
  k' <> k -> get k' (put k v ps) = get k' ps.
Proof.
  intros Hne. rewrite get_put.
  destruct (String.eqb_spec k' k); [contradiction | reflexivity].
Qed.

Lemma keys_put (k k' : string) (v : value) (ps : props) :
  In k' (keys (put k v ps)) <-> k' = k \/ In k' (keys ps).
Proof.
  induction ps as [|[k0 v0] ps IH]; simpl.
  - intuition congruence.
  - destruct (String.eqb_spec k k0) as [->|Hk]; simpl.
    + intuition congruence.
    + rewrite IH. intuition congruence.
Qed.

Lemma NoDup_put (k : string) (v : value) (ps : props) :
  List.NoDup (keys ps) -> List.NoDup (keys (put k v ps)).
Proof.
  induction ps as [|[k0 v0] ps IH]; simpl; intros Hnd.
  - constructor; [intros [] | constructor].
  - inversion Hnd as [|? ? Hnotin Hnd']; subst.
    destruct (String.eqb_spec k k0) as [->|Hk]; simpl.
    + constructor; assumption.
    + constructor; [| auto].
      intros Hin. apply keys_put in Hin. destruct Hin; [congruence | contradiction].
Qed.

Lemma In_put (k k' : string) (v v' : value) (ps : props) :
  In (k', v') (put k v ps) -> (k', v') = (k, v) \/ In (k', v') ps.
Proof.
  induction ps as [|[k0 v0] ps IH]; simpl.
  - intros [H|[]]; auto.
  - destruct (String.eqb_spec k k0) as [->|Hk]; simpl; intuition.
Qed.

Lemma get_In (k : string) (v : value) (ps : props) :
  get k ps = Some v -> In (k, v) ps.
Proof.
  induction ps as [|[k0 v0] ps IH]; simpl; [discriminate |].
  destruct (String.eqb_spec k k0) as [->|Hk].
  - intros [= ->]. auto.
  - auto.
Qed.

Lemma get_None (k : string) (ps : props) :
  get k ps = None <-> ~ In k (keys ps).
Proof.
  induction ps as [|[k0 v0] ps IH]; simpl.
  - intuition.
  - destruct (String.eqb_spec k k0) as [->|Hk].
    + split; [discriminate | intros H; exfalso; auto].
    + rewrite IH. intuition congruence.
Qed.

Lemma get_Some_key (k : string) (v : value) (ps : props) :
  get k ps = Some v -> In k (keys ps).
Proof.
  intros Hget. apply get_In in Hget.
  change k with (fst (k, v)). apply in_map. exact Hget.
Qed.

Lemma In_get (k : string) (v : value) (ps : props) :
  List.NoDup (keys ps) -> In (k, v) ps -> get k ps = Some v.
Proof.
  induction ps as [|[k0 v0] ps IH]; simpl; intros Hnd Hin; [contradiction |].
  inversion Hnd as [|? ? Hnotin Hnd']; subst.
  destruct Hin as [[= -> ->]|Hin].
  - rewrite String.eqb_refl. reflexivity.
  - destruct (String.eqb_spec k k0) as [->|Hk]; [| auto].
    exfalso. apply Hnotin. change k0 with (fst (k0, v)). apply in_map. exact Hin.
Qed.

Lemma includes_In (ks : list string) (k : string) :
  includes ks k = true <-> In k ks.
Proof.
  unfold includes. rewrite existsb_exists. split.
  - intros (x & Hin & Heq). apply String.eqb_eq in Heq. subst. exact Hin.
  - intros Hin. exists k. split; [exact Hin | apply String.eqb_refl].
Qed.

(** Inserting a list of entries one after the other: the last entry of a key
    is the one that stays. *)
Lemma get_fold_put (es acc : props) (k : string) :
  get k (fold_left (fun a e => put (fst e) (snd e) a) es acc) =
  match get k (rev es) with Some v => Some v | None => get k acc end.
Proof.
  revert acc. induction es as [|[k0 v0] es IH]; intros acc; simpl; [reflexivity |].
  rewrite IH. clear IH.
  assert (Happ : forall l, get k (l ++ [(k0, v0)]) =
            match get k l with Some v => Some v
            | None => if String.eqb k k0 then Some v0 else None end).
  { induction l as [|[k1 v1] l IHl]; simpl; [reflexivity |].
    destruct (String.eqb k k1); auto. }
  rewrite Happ. destruct (get k (rev es)); [reflexivity |].
  rewrite get_put. destruct (String.eqb k k0); reflexivity.
Qed.

Lemma NoDup_fold_put (es acc : props) :
  List.NoDup (keys acc) ->
  List.NoDup (keys (fold_left (fun a e => put (fst e) (snd e) a) es acc)).
Proof.
  revert acc. induction es as [|e es IH]; intros acc Hnd; simpl; [exact Hnd |].
  apply IH, NoDup_put, Hnd.
Qed.

Lemma get_rev_NoDup (k : string) (ps : props) :
  List.NoDup (keys ps) -> get k (rev ps) = get k ps.
Proof.
  intros Hnd. destruct (get k ps) as [v|] eqn:Hget.
  - apply In_get.
    + unfold keys. rewrite map_rev. apply List.NoDup_rev, Hnd.
    + apply in_rev. rewrite rev_involutive. apply get_In, Hget.
  - apply get_None. apply get_None in Hget. intros Hin. apply Hget.
    unfold keys in *. rewrite map_rev in Hin. apply in_rev in Hin. exact Hin.
Qed.

Lemma get_filter_key (f : string -> bool) (k : string) (ps : props) :
  get k (List.filter (fun e => f (fst e)) ps) = if f k then get k ps else None.
Proof.
  induction ps as [|[k0 v0] ps IH]; simpl.
  - destruct (f k); reflexivity.
  - destruct (f k0) eqn:Hf0; simpl.
    + destruct (String.eqb_spec k k0) as [->|Hk]; [rewrite Hf0; reflexivity | exact IH].
    + destruct (String.eqb_spec k k0) as [->|Hk]; [rewrite Hf0 in *; exact IH | exact IH].
Qed.

Lemma NoDup_filter_keys (f : string * value -> bool) (ps : props) :
  List.NoDup (keys ps) -> List.NoDup (keys (List.filter f ps)).
Proof.
  induction ps as [|[k0 v0] ps IH]; simpl; intros Hnd; [constructor |].
  inversion Hnd as [|? ? Hnotin Hnd']; subst.
  destruct (f (k0, v0)); simpl; [| auto].
  constructor; [| auto].
  intros Hin. apply Hnotin. unfold keys in *.
  apply in_map_iff in Hin. destruct Hin as (e & He & Hin).
  apply filter_In in Hin. destruct Hin as [Hin _].
  rewrite <- He. apply in_map. exact Hin.
Qed.

(** ** [pick], [omit] and [fromEntries] *)

Lemma get_pick_acc (obj : object) (ks : list string) (acc : props) (k : string) :
  get k (fold_left
           (fun a key => if key_in key obj then put key (prop obj key) a else a)
           ks acc) =
  if includes ks k && key_in k obj then get k (own_props obj) else get k acc.
Proof.
  revert acc. induction ks as [|k0 ks IH]; intros acc; simpl; [reflexivity |].
  rewrite IH. clear IH. unfold includes. simpl.
  assert (Hacc : key_in k obj = false \/ String.eqb k k0 = false ->
    get k (if key_in k0 obj then put k0 (prop obj k0) acc else acc) = get k acc).
  { intros Hor. destruct (key_in k0 obj) eqn:Hk0; [| reflexivity].
    apply get_put_ne. intros ->. destruct Hor as [Hor|Hor].
    - congruence.
    - rewrite String.eqb_refl in Hor. discriminate. }
  destruct (key_in k obj) eqn:Hin.
  - rewrite !andb_true_r.
    destruct (existsb (String.eqb k) ks); [rewrite orb_true_r; reflexivity |].
    rewrite orb_false_r.
    destruct (String.eqb_spec k k0) as [->|Hk].
    + rewrite Hin. unfold key_in, prop in *.
      destruct (get k0 (own_props obj)) as [v|]; [| discriminate].
      apply get_put_eq.
    + apply Hacc. right. reflexivity.
  - rewrite !andb_false_r. apply Hacc. left. reflexivity.
Qed.

Lemma get_pick (obj : object) (ks : list string) (k : string) :
  get k (pick obj ks) = if includes ks k then get k (own_props obj) else None.
Proof.
  unfold pick. rewrite get_pick_acc. simpl.
  destruct (includes ks k); simpl; [| reflexivity].
  unfold key_in. destruct (get k (own_props obj)); reflexivity.
Qed.

Lemma NoDup_pick (obj : object) (ks : list string) :
  List.NoDup (keys (pick obj ks)).
Proof.
  unfold pick.
  assert (H : forall acc, List.NoDup (keys acc) ->
    List.NoDup (keys (fold_left
      (fun a key => if key_in key obj then put key (prop obj key) a else a) ks acc))).
  { induction ks as [|k0 ks IH]; intros acc Hnd; simpl; [exact Hnd |].
    apply IH. destruct (key_in k0 obj); [apply NoDup_put |]; exact Hnd. }
  apply H. constructor.
Qed.

Lemma get_omit (obj : object) (ks : list string) (k : string) :
  List.NoDup (keys (own_props obj)) ->
  get k (omit obj ks) = if includes ks k then None else get k (own_props obj).
Proof.
  intros Hnd. unfold omit, Object_fromEntries.
  rewrite get_fold_put. simpl.
  rewrite get_rev_NoDup by (apply NoDup_filter_keys, Hnd).
  rewrite (get_filter_key (fun key => negb (includes ks key))).
  destruct (includes ks k); simpl; [reflexivity |].
  destruct (get k (own_props obj)); reflexivity.
Qed.

Lemma NoDup_omit (obj : object) (ks : list string) :
  List.NoDup (keys (omit obj ks)).
Proof. unfold omit, Object_fromEntries. apply NoDup_fold_put. constructor. Qed.

Lemma In_keys_get (k : string) (ps : props) :
  In k (keys ps) <-> exists v, get k ps = Some v.
Proof.
  split.
  - intros Hin. destruct (get k ps) as [v|] eqn:Hget; [eauto |].
    apply get_None in Hget. contradiction.
  - intros [v Hget]. eapply get_Some_key, Hget.
Qed.







(** ** [deepClone] *)

Lemma distinct_NoDup (ks : list string) :
  distinct ks = true -> List.NoDup ks.
Proof.
  induction ks as [|k ks IH]; simpl; intros H; [constructor |].
  apply andb_true_iff in H. destruct H as [Hk Hd].
  constructor; [| auto].
  intros Hin. apply includes_In in Hin. rewrite Hin in Hk. discriminate.
Qed.

Lemma fold_put_fresh (es acc : props) :
  List.NoDup (keys (acc ++ es)) ->
  fold_left (fun a e => put (fst e) (snd e) a) es acc = acc ++ es.
Proof.
  revert acc. induction es as [|[k v] es IH]; intros acc Hnd; simpl.
  - rewrite app_nil_r. reflexivity.
  - assert (Hput : put k v acc = acc ++ [(k, v)]).
    { clear IH. induction acc as [|[k0 v0] acc IHa]; simpl; [reflexivity |].
      simpl in Hnd. inversion Hnd as [|? ? Hnotin Hnd']; subst.
      destruct (String.eqb_spec k k0) as [->|Hk].
      - exfalso. apply Hnotin. unfold keys. rewrite map_app, in_app_iff.
        right. simpl. auto.
      - f_equal. apply IHa. exact Hnd'. }
    rewrite Hput, IH; rewrite <- app_assoc; simpl; [reflexivity | exact Hnd].
Qed.

Lemma Object_fromEntries_distinct (es : props) :
  distinct (keys es) = true -> Object_fromEntries es = es.
Proof.
  intros Hd. unfold Object_fromEntries.
  apply (fold_put_fresh es []). simpl. apply distinct_NoDup, Hd.
Qed.

Lemma keys_ok_app (h : heap) (o : object) :
  keys_ok h = true -> keys_ok_obj o = true -> keys_ok (h ++ [o]) = true.
Proof.
  intros Hh Ho. unfold keys_ok in *. rewrite forallb_app, Hh. simpl.
  rewrite Ho. reflexivity.
Qed.

Lemma keys_ok_lookup (h : heap) (l : loc) (o : object) :
  keys_ok h = true -> h !! l = Some o -> keys_ok_obj o = true.
Proof.
  intros Hh Hl. unfold keys_ok in Hh. rewrite forallb_forall in Hh.
  apply Hh. apply list_elem_of_In. eapply list_elem_of_lookup_2, Hl.
Qed.

Lemma mapO_ext {A B : Type} (f g : A -> option B) (xs : list A) :
  (forall x, In x xs -> forall y, f x = Some y -> g x = Some y) ->
  forall ys, mapO f xs = Some ys -> mapO g xs = Some ys.
Proof.
  induction xs as [|x xs IH]; simpl; intros Hfg ys Hys; [exact Hys |].
  destruct (f x) as [y|] eqn:Hfx; simpl in *; [| discriminate].
  rewrite (Hfg x (or_introl eq_refl) y Hfx). simpl.
  destruct (mapO f xs) as [ys'|] eqn:Hxs; simpl in *; [| discriminate].
  rewrite (IH (fun x' Hx' => Hfg x' (or_intror Hx')) ys' eq_refl). exact Hys.
Qed.

(** A value keeps its tree when the store changes only at addresses the
    value was read from never: here, above the old end of the store. *)
Lemma tree_of_agree (n : nat) (h h2 : heap) (v : value) (t : tree) :
  agree_between 0 (length h) h h2 ->
  tree_of n h v = Some t -> tree_of n h2 v = Some t.
Proof.
  intros Hag. revert v t. induction n as [|n IH]; intros v t; [discriminate |].
  cbn [tree_of]. destruct v as [p|l]; [auto |].
  destruct (h !! l) as [o|] eqn:Hl; [| discriminate].
  rewrite (Hag l) by (apply lookup_lt_Some in Hl; lia). rewrite Hl.
  destruct o as [own|items|time own]; [| | auto].
  - intros Hfs.
    destruct (mapO _ own) as [fs|] eqn:Hm; simpl in *; [| discriminate].
    erewrite mapO_ext; [exact Hfs | | exact Hm].
    intros e _ y. simpl.
    destruct (tree_of n h (snd e)) as [te|] eqn:He; simpl; [| discriminate].
    rewrite (IH _ _ He). auto.
  - intros Hts.
    destruct (mapO _ items) as [ts|] eqn:Hm; simpl in *; [| discriminate].
    erewrite mapO_ext; [exact Hts | | exact Hm].
    intros x _ y. apply IH.
Qed.

Lemma agree_between_app (a : nat) (h new : heap) :
  agree_between a (length h) h (h ++ new).
Proof. intros l Hl. apply lookup_app_l. lia. Qed.

Lemma fresh_val_mono (a b : nat) (w : value) :
  a <= b -> fresh_val b w -> fresh_val a w.
Proof. destruct w; simpl; [auto | lia]. Qed.

Lemma region_closed_app (a : nat) (h new : heap) :
  a <= length h ->
  region_closed a h -> region_closed (length h) (h ++ new) ->
  region_closed a (h ++ new).
Proof.
  intros Hle H1 H2 l o w Hl Hlook Hin.
  destruct (Nat.lt_ge_cases l (length h)) as [Hlt|Hge].
  - rewrite lookup_app_l in Hlook by exact Hlt. eapply H1; eauto.
  - eapply fresh_val_mono; [exact Hle |]. eapply H2; eauto.
Qed.

Lemma region_closed_reach (a : nat) (h : heap) (v : value) (l : loc) :
  region_closed a h -> fresh_val a v -> reach h v l -> a <= l.
Proof.
  intros Hreg Hv Hr. induction Hr as [l o Hl | l o w l' Hl Hin Hr IH].
  - exact Hv.
  - apply IH. eapply Hreg; eauto.
Qed.

Section CloneList.
Context {A B T : Type}.
Variable f : heap -> A -> option (B * heap).
Variable src : heap -> A -> option T.
Variable dst : heap -> B -> option T.
Variable val : B -> value.

Hypothesis src_grow : forall h new x t,
  src h x = Some t -> src (h ++ new) x = Some t.

Hypothesis f_clones : forall h x t,
  keys_ok h = true -> src h x = Some t ->
  exists y h', f h x = Some (y, h') /\
    (exists new, h' = h ++ new) /\
    keys_ok h' = true /\
    (forall h2, agree_between (length h) (length h') h' h2 -> dst h2 y = Some t) /\
    region_closed (length h) h' /\
    fresh_val (length h) (val y).

Lemma mapH_clones (xs : list A) : forall h ts,
  keys_ok h = true -> mapO (src h) xs = Some ts ->
  exists ys h', mapH f xs h = Some (ys, h') /\
    (exists new, h' = h ++ new) /\
    keys_ok h' = true /\
    (forall h2, agree_between (length h) (length h') h' h2 ->
               mapO (dst h2) ys = Some ts) /\
    region_closed (length h) h' /\
    (forall y, In y ys -> fresh_val (length h) (val y)).
Proof.
  induction xs as [|x xs IH]; intros h ts Hok Hts; simpl in *.
  - injection Hts as <-. exists [], h. split; [reflexivity |].
    split; [exists []; symmetry; apply app_nil_r |]. split; [exact Hok |].
    split; [reflexivity |]. split; [| intros y []].
    intros l o w Hl Hlook. apply lookup_lt_Some in Hlook. lia.
  - destruct (src h x) as [t|] eqn:Hx; simpl in Hts; [| discriminate].
    destruct (mapO (src h) xs) as [ts'|] eqn:Hxs; simpl in Hts; [| discriminate].
    injection Hts as <-.
    destruct (f_clones h x t Hok Hx)
      as (y & h1 & Hf & [new1 ->] & Hok1 & Hy & Hreg1 & Hfy).
    assert (Hxs1 : mapO (src (h ++ new1)) xs = Some ts').
    { eapply mapO_ext; [| exact Hxs]. intros x' _ t'. apply src_grow. }
    destruct (IH _ _ Hok1 Hxs1)
      as (ys & h2 & Hm & [new2 ->] & Hok2 & Hys & Hreg2 & Hfys).
    exists (y :: ys), ((h ++ new1) ++ new2). rewrite Hf. simpl. rewrite Hm. simpl.
    split; [reflexivity |].
    split; [exists (new1 ++ new2); symmetry; apply app_assoc |].
    split; [exact Hok2 |].
    assert (Hlen : length h <= length (h ++ new1)) by (rewrite length_app; lia).
    split; [| split].
    + intros h3 Hag. rewrite Hy, Hys; [reflexivity | |].
      * intros l Hl. apply Hag. rewrite !length_app in *. lia.
      * intros l Hl. rewrite Hag by (rewrite !length_app in *; lia).
        apply lookup_app_l. lia.
    + apply region_closed_app; assumption.
    + intros y' [<-|Hin]; [exact Hfy |].
      eapply fresh_val_mono; [exact Hlen | auto].
Qed.
End CloneList.

Lemma mapO_entry_keys {V W : Type} (g : V -> option W) (es : list (string * V))
    (fs : list (string * W)) :
  mapO (fun e => t ← g (snd e); Some (fst e, t)) es = Some fs ->
  map fst fs = map fst es.
Proof.
  revert fs. induction es as [|e es IH]; simpl; intros fs Hfs.
  - injection Hfs as <-. reflexivity.
  - destruct (g (snd e)) as [t|]; simpl in Hfs; [| discriminate].
    destruct (mapO _ es) as [fs'|]; simpl in Hfs; [| discriminate].
    injection Hfs as <-. simpl. f_equal. apply IH. reflexivity.
Qed.

Lemma deepClone_spec (n : nat) : forall h v t,
  keys_ok h = true -> tree_of n h v = Some t ->
  exists v' h', deepClone n h v = Some (v', h') /\
    (exists new, h' = h ++ new) /\
    keys_ok h' = true /\
    (forall h2, agree_between (length h) (length h') h' h2 ->
                tree_of n h2 v' = Some t) /\
    region_closed (length h) h' /\
    fresh_val (length h) v'.
Proof.
  induction n as [|n IH]; intros h v t Hok Ht; [discriminate |].
  cbn [tree_of deepClone] in *.
  assert (Hnil : region_closed (length h) h).
  { intros l o w Hl Hlook. apply lookup_lt_Some in Hlook. lia. }
  destruct v as [p|l].
  { exists (Prim p), h. split; [reflexivity |].
    split; [exists []; symmetry; apply app_nil_r |].
    split; [exact Hok |]. split; [intros; exact Ht |]. split; [exact Hnil | exact I]. }
  destruct (h !! l) as [o|] eqn:Hl; [| discriminate].
  assert (Hsingle : forall h1 o1, length h <= length h1 ->
            region_closed (length h) h1 ->
            (forall w, In w (children o1) -> fresh_val (length h) w) ->
            region_closed (length h) (h1 ++ [o1])).
  { intros h1 o1 Hle Hreg Ho1 l0 o0 w Hl0 Hlook Hin.
    destruct (Nat.lt_ge_cases l0 (length h1)) as [Hlt|Hge].
    - rewrite lookup_app_l in Hlook by exact Hlt. eapply Hreg; eauto.
    - rewrite lookup_app_r in Hlook by exact Hge.
      destruct (l0 - length h1) as [|k] eqn:Hk; simpl in Hlook; [| discriminate].
      injection Hlook as <-. auto. }
  destruct o as [own|items|time own].
  - destruct (mapO _ own) as [fs|] eqn:Hfs; simpl in Ht; [| discriminate].
    injection Ht as <-.
    destruct (mapH_clones
                (fun (h : heap) (e : string * value) =>
                   c ← deepClone n h (snd e); Some ((fst e, fst c), snd c))
                (fun h (e : string * value) =>
                   t ← tree_of n h (snd e); Some (fst e, t))
                (fun h (e : string * value) =>
                   t ← tree_of n h (snd e); Some (fst e, t))
                snd) with (xs := own) (h := h) (ts := fs)
      as (ys & h' & Hm & [new ->] & Hok' & Hys & Hreg & Hfr); [| | exact Hok | exact Hfs |].
    + intros h0 new e t0 He.
      destruct (tree_of n h0 (snd e)) as [te|] eqn:Hte; simpl in He; [| discriminate].
      rewrite (tree_of_agree n h0 (h0 ++ new) _ _ (agree_between_app 0 h0 new) Hte).
      exact He.
    + intros h0 e t0 Hok0 He.
      destruct (tree_of n h0 (snd e)) as [te|] eqn:Hte; simpl in He; [| discriminate].
      injection He as <-.
      destruct (IH h0 (snd e) te Hok0 Hte) as (c & h1 & Hc & Hnew & Hok1 & Hc3 & Hc4 & Hc5).
      exists (fst e, c), h1. rewrite Hc. simpl.
      split; [reflexivity |]. split; [exact Hnew |]. split; [exact Hok1 |].
      split; [| split; assumption].
      intros h2 Hag. simpl. rewrite (Hc3 h2 Hag). reflexivity.
    + rewrite Hm. simpl.
      assert (Hkeys : keys ys = keys own).
      { pose proof (Hys (h ++ new) (fun l _ => eq_refl)) as Hys'.
        apply mapO_entry_keys in Hys'. apply mapO_entry_keys in Hfs.
        unfold keys. congruence. }
      assert (Hd : distinct (keys ys) = true).
      { rewrite Hkeys. apply (keys_ok_lookup h l (RecObj own) Hok Hl). }
      rewrite (Object_fromEntries_distinct ys Hd).
      exists (Ref (length (h ++ new))), ((h ++ new) ++ [RecObj ys]).
      split; [reflexivity |].
      split; [exists (new ++ [RecObj ys]); symmetry; apply app_assoc |].
      split; [apply keys_ok_app; [exact Hok' | exact Hd] |].
      split; [| split].
      * intros h2 Hag. cbn [tree_of].
        rewrite Hag by (rewrite !length_app; simpl; lia).
        rewrite lookup_app_r by lia. rewrite Nat.sub_diag. simpl.
        rewrite Hys; [reflexivity |].
        intros l0 Hl0. rewrite Hag by (rewrite !length_app in *; simpl; lia).
        apply lookup_app_l. lia.
      * apply Hsingle; [rewrite length_app; lia | exact Hreg |].
        intros w Hin. simpl in Hin. apply in_map_iff in Hin.
        destruct Hin as (e & <- & Hin). auto.
      * simpl. rewrite length_app. lia.
  - destruct (mapO _ items) as [ts|] eqn:Hts; simpl in Ht; [| discriminate].
    injection Ht as <-.
    destruct (mapH_clones (deepClone n) (tree_of n) (tree_of n) (fun w => w))
      with (xs := items) (h := h) (ts := ts)
      as (ys & h' & Hm & [new ->] & Hok' & Hys & Hreg & Hfr); [| | exact Hok | exact Hts |].
    + intros h0 new x t0. apply tree_of_agree, agree_between_app.
    + intros h0 x t0. apply IH.
    + rewrite Hm. simpl.
      exists (Ref (length (h ++ new))), ((h ++ new) ++ [ArrObj ys]).
      split; [reflexivity |].
      split; [exists (new ++ [ArrObj ys]); symmetry; apply app_assoc |].
      split; [apply keys_ok_app; [exact Hok' | reflexivity] |].
      split; [| split].
      * intros h2 Hag. cbn [tree_of].
        rewrite Hag by (rewrite !length_app; simpl; lia).
        rewrite lookup_app_r by lia. rewrite Nat.sub_diag. simpl.
        rewrite Hys; [reflexivity |].
        intros l0 Hl0. rewrite Hag by (rewrite !length_app in *; simpl; lia).
        apply lookup_app_l. lia.
      * apply Hsingle; [rewrite length_app; lia | exact Hreg |].
        intros w Hin. simpl in Hin. auto.
      * simpl. rewrite length_app. lia.
  - injection Ht as <-.
    exists (Ref (length h)), (h ++ [DateObj time []]).
    split; [reflexivity |]. split; [eexists; reflexivity |].
    split; [apply keys_ok_app; [exact Hok | reflexivity] |].
    split; [| split].
    + intros h2 Hag. cbn [tree_of].
      rewrite Hag by (rewrite !length_app; simpl; lia).
      rewrite lookup_app_r by lia. rewrite Nat.sub_diag. reflexivity.
    + apply Hsingle; [lia | exact Hnil | intros w []].
    + simpl. lia.
Qed.

(** C5.  A finite, acyclic value [v] (it unfolds to a tree [t]) is cloned to
    a value that unfolds to the same tree, so the clone is deep-equal to [v].
    The store that held [v] is left as it was, every object of the clone is
    new, and no object is part of both: whatever is changed in objects of the
    clone, [v] still unfolds to [t], and whatever is changed in the objects
    that existed before, the clone still unfolds to [t].  The clone of a date
    is a new date with the same timestamp, and a primitive is returned as it
    is. *)
Theorem deepClone_independent (n : nat) (h : heap) (v : value) (t : tree) :
  keys_ok h = true ->
  tree_of n h v = Some t ->
  exists v' h',
    deepClone n h v = Some (v', h') /\
    tree_of n h' v' = Some t /\
    (forall l, l < length h -> h' !! l = h !! l) /\
    (forall l, reach h v l -> l < length h) /\
    (forall l, reach h' v' l -> length h <= l) /\
    (forall h2, agree_between 0 (length h) h' h2 -> tree_of n h2 v = Some t) /\
    (forall h2, agree_between (length h) (length h') h' h2 ->
                tree_of n h2 v' = Some t) /\
    (forall l time own, v = Ref l -> h !! l = Some (DateObj time own) ->
       exists l', v' = Ref l' /\ l' <> l /\ h' !! l' = Some (DateObj time [])) /\
    (forall p, v = Prim p -> v' = v /\ h' = h).
Proof.
  intros Hok Ht.
  destruct (deepClone_spec n h v t Hok Ht)
    as (v' & h' & Hc & [new ->] & Hok' & Hdst & Hreg & Hfr).
  exists v', (h ++ new). split; [exact Hc |].
  split; [apply Hdst; intros l _; reflexivity |].
  split; [intros l Hl; apply lookup_app_l, Hl |].
  split.
  { intros l Hr. clear -Hr. induction Hr as [l o Hl | l o w l' Hl Hin Hr IH].
    - eapply lookup_lt_Some, Hl.
    - exact IH. }
  split; [intros l Hr; eapply region_closed_reach; eauto |].
  split.
  { intros h2 Hag. apply (tree_of_agree n h h2 v t); [| exact Ht].
    intros l Hl. rewrite Hag by exact Hl. apply lookup_app_l. lia. }
  split; [exact Hdst |].
  split.
  - intros l time own -> Hl. destruct n as [|n]; [discriminate |].
    cbn [deepClone] in Hc. rewrite Hl in Hc. injection Hc as <- Hnew.
    exists (length h). split; [reflexivity |].
    split; [apply lookup_lt_Some in Hl; lia |].
    rewrite <- Hnew. rewrite lookup_app_r by lia. rewrite Nat.sub_diag. reflexivity.
  - intros p ->. destruct n as [|n]; [discriminate |].
    cbn [deepClone] in Hc. injection Hc as <- Hh. split; [reflexivity |].
    symmetry. exact Hh.
Qed.

Lemma deepClone_independent_witness :
  let h := [RecObj [("user", Ref 1); ("n", Prim (Num 3))];
            RecObj [("name", Prim (Str "Alice")); ("tags", Ref 2); ("since", Ref 3)];
            ArrObj [Prim (Str "x")];
            DateObj 1700000000000 []] in
  exists v' h',
    deepClone 4 h (Ref 0) = Some (v', h') /\
    tree_of 4 h' v' = tree_of 4 h (Ref 0) /\
    forall l, reach h' v' l -> 4 <= l.
Proof.
  intros h.
  destruct (deepClone_independent 4 h (Ref 0)
              (TRec [("user", TRec [("name", TPrim (Str "Alice"));
                                    ("tags", TArr [TPrim (Str "x")]);
                                    ("since", TDate 1700000000000)]);
                     ("n", TPrim (Num 3))]))
    as (v' & h' & Hc & Ht & _ & _ & Hr & _); [reflexivity | reflexivity |].
  exists v', h'. split; [exact Hc |]. split; [exact Ht | exact Hr].
Defined.

(** ** [flattenObject] *)

Lemma flatten_test (h : heap) (v : value) :
  typeof_object v && negb (is_null v) && negb (isArray h v) = isObject h v.
Proof. unfold isObject. destruct v as [[]|]; reflexivity. Qed.

Lemma In_keys_read (h : heap) (obj : value) (k : string) :
  In k (keys (entries_of h obj)) -> get k (entries_of h obj) = Some (read h obj k).
Proof.
  intros Hin. apply In_keys_get in Hin. destruct Hin as [v Hv].
  unfold read. rewrite Hv. reflexivity.
Qed.

Lemma In_Object_assign (acc src : props) (k : string) (v : value) :
  In (k, v) (Object_assign acc src) -> In (k, v) acc \/ In (k, v) src.
Proof.
  unfold Object_assign. revert acc.
  induction src as [|[k0 v0] src IH]; intros acc; simpl; [auto |].
  intros Hin. apply IH in Hin. destruct Hin as [Hin|Hin]; [| auto].
  apply In_put in Hin. destruct Hin as [Heq|Hin]; [| auto].
  right. left. symmetry. exact Heq.
Qed.

Lemma keys_Object_assign (acc src : props) (k : string) :
  In k (keys (Object_assign acc src)) <-> In k (keys acc) \/ In k (keys src).
Proof.
  unfold Object_assign. revert acc.
  induction src as [|[k0 v0] src IH]; intros acc; simpl; [tauto |].
  rewrite IH, keys_put. intuition congruence.
Qed.

Lemma reduce_keys_mono (f : props -> string -> option props) (ks : list string) :
  (forall acc k acc' key, f acc k = Some acc' -> In key (keys acc) -> In key (keys acc')) ->
  forall acc out key, reduce f ks acc = Some out -> In key (keys acc) ->
                      In key (keys out).
Proof.
  intros Hf. induction ks as [|k ks IH]; simpl; intros acc out key Hr Hin.
  - injection Hr as <-. exact Hin.
  - destruct (f acc k) as [acc'|] eqn:Hfk; simpl in Hr; [| discriminate].
    eapply IH; [exact Hr |]. eapply Hf; eauto.
Qed.

Lemma flattenKey_keys_mono flatten h obj prefix acc k acc' key :
  flattenKey flatten h obj prefix acc k = Some acc' ->
  In key (keys acc) -> In key (keys acc').
Proof.
  unfold flattenKey. destruct (_ && _).
  - destruct (flatten _ _) as [sub|]; simpl; [| discriminate].
    intros [= <-] Hin. apply keys_Object_assign. auto.
  - intros [= <-] Hin. apply keys_put. auto.
Qed.

(** Every entry of the result is a leaf of the input, under the key of its
    path. *)
Lemma flattenObject_sound (fuel : nat) (h : heap) : forall obj prefix out,
  flattenObject fuel h obj prefix = Some out ->
  forall key v, In (key, v) out ->
    exists p, leaf_at h obj p v /\ key = render prefix p.
Proof.
  induction fuel as [|fuel IH]; intros obj prefix out Hout; [discriminate |].
  cbn [flattenObject] in Hout.
  assert (Hred : forall ks acc, incl ks (keys (entries_of h obj)) ->
    (forall key v, In (key, v) acc ->
       exists p, leaf_at h obj p v /\ key = render prefix p) ->
    reduce (flattenKey (flattenObject fuel h) h obj prefix) ks acc = Some out ->
    forall key v, In (key, v) out ->
       exists p, leaf_at h obj p v /\ key = render prefix p).
  { induction ks as [|k ks IHks]; simpl; intros acc Hincl Hacc Hr.
    - injection Hr as <-. exact Hacc.
    - destruct (flattenKey _ h obj prefix acc k) as [acc'|] eqn:Hk;
        simpl in Hr; [| discriminate].
      apply (IHks acc'); [intros x Hx; apply Hincl; right; exact Hx | | exact Hr].
      pose proof (In_keys_read h obj k (Hincl k (or_introl eq_refl))) as Hget.
      unfold flattenKey in Hk. rewrite flatten_test in Hk.
      destruct (isObject h (read h obj k)) eqn:Hobj.
      + destruct (flattenObject fuel h _ _) as [sub|] eqn:Hsub; simpl in Hk;
          [| discriminate].
        injection Hk as <-. intros key v Hin.
        apply In_Object_assign in Hin. destruct Hin as [Hin|Hin]; [auto |].
        destruct (IH _ _ _ Hsub key v Hin) as (p & Hleaf & ->).
        exists (k :: p). split; [| reflexivity].
        eapply leaf_down; eauto.
      + injection Hk as <-. intros key v Hin.
        apply In_put in Hin. destruct Hin as [[= -> ->]|Hin]; [| auto].
        exists [k]. split; [| reflexivity].
        apply leaf_here; assumption. }
  apply (Hred _ [] (fun x Hx => Hx)); [intros key v [] | exact Hout].
Qed.

(** Every leaf of the input has an entry under the key of its path. *)
Lemma flattenObject_complete (fuel : nat) (h : heap) : forall obj prefix out,
  flattenObject fuel h obj prefix = Some out ->
  forall p v, leaf_at h obj p v -> In (render prefix p) (keys out).
Proof.
  induction fuel as [|fuel IH]; intros obj prefix out Hout p v Hleaf; [discriminate |].
  cbn [flattenObject] in Hout.
  assert (Hhead : exists k p', p = k :: p' /\ In k (keys (entries_of h obj)) /\
            (p' = [] /\ isObject h (read h obj k) = false \/
             isObject h (read h obj k) = true /\ leaf_at h (read h obj k) p' v)).
  { inversion Hleaf as [? k v0 Hget Hno | ? k w p' v0 Hget Hyes Hsub]; subst.
    - exists k, []. split; [reflexivity |]. split; [eapply get_Some_key, Hget |].
      left. unfold read. rewrite Hget. auto.
    - exists k, p'. split; [reflexivity |]. split; [eapply get_Some_key, Hget |].
      right. unfold read. rewrite Hget. auto. }
  destruct Hhead as (k & p' & -> & Hk & Hcase).
  revert Hk Hout. generalize (@nil (string * value)).
  induction (keys (entries_of h obj)) as [|k0 ks IHks]; intros acc Hk; [destruct Hk |].
  intros Hr. simpl in Hr.
  destruct (flattenKey _ h obj prefix acc k0) as [acc'|] eqn:Hk0;
    simpl in Hr; [| discriminate].
  destruct (in_dec String.string_dec k ks) as [Hin|Hnotin]; [eapply IHks; eauto |].
  destruct Hk as [->|Hk]; [| contradiction].
  eapply reduce_keys_mono; [| exact Hr |].
  { intros; eapply flattenKey_keys_mono; eauto. }
  unfold flattenKey in Hk0. rewrite flatten_test in Hk0.
  destruct Hcase as [[-> Hno]|[Hyes Hsub]].
  - rewrite Hno in Hk0. injection Hk0 as <-. apply keys_put. left. reflexivity.
  - rewrite Hyes in Hk0.
    destruct (flattenObject fuel h _ _) as [sub|] eqn:Hs; simpl in Hk0; [| discriminate].
    injection Hk0 as <-. apply keys_Object_assign. right.
    apply (IH _ _ _ Hs _ _ Hsub).
Qed.

Lemma reduce_flattenKey_total flatten (h : heap) (obj : value) (prefix : string)
    (ks : list string) :
  (forall k, In k ks -> isObject h (read h obj k) = true ->
     exists sub, flatten (read h obj k) (dotted prefix +:+ k) = Some sub) ->
  forall acc, exists out,
    reduce (flattenKey flatten h obj prefix) ks acc = Some out.
Proof.
  induction ks as [|k ks IH]; intros Hsub acc; cbn [reduce]; [eauto |].
  assert (Hk : exists acc', flattenKey flatten h obj prefix acc k = Some acc').
  { unfold flattenKey. rewrite flatten_test.
    destruct (isObject h (read h obj k)) eqn:Hobj; [| eauto].
    destruct (Hsub k (or_introl eq_refl) Hobj) as [sub Hs].
    unfold dotted in Hs. rewrite Hs. cbn [mbind option_bind]. eauto. }
  destruct Hk as [acc' ->]. cbn [mbind option_bind].
  apply IH. intros k' Hk'. apply Hsub. right. exact Hk'.
Qed.

(** Enough fuel: an input of bounded depth is flattened. *)
Lemma flattenObject_total (n : nat) (h : heap) : forall obj prefix,
  forallb (fun e => depth_le n h (snd e)) (entries_of h obj) = true ->
  exists out, flattenObject (S n) h obj prefix = Some out.
Proof.
  induction n as [|n IH]; intros obj prefix Hd; cbn [flattenObject];
    apply reduce_flattenKey_total; intros k Hk Hobj;
    apply In_keys_read, get_In in Hk;
    rewrite forallb_forall in Hd; apply Hd in Hk; cbn [snd depth_le] in Hk;
    rewrite Hobj in Hk; [discriminate |].
  apply IH. exact Hk.
Qed.

Lemma append_assoc (a b c : string) : (a +:+ b) +:+ c = a +:+ (b +:+ c).
Proof.
  induction a as [|x a IH]; [reflexivity |].
  change (String x ((a +:+ b) +:+ c) = String x (a +:+ (b +:+ c))).
  f_equal. exact IH.
Qed.

Lemma dotted_nonempty (prefix : string) :
  prefix <> "" -> dotted prefix = prefix +:+ ".".
Proof. unfold dotted. destruct prefix; [congruence | reflexivity]. Qed.

Lemma render_nonempty (p : list string) : forall prefix,
  prefix <> "" -> Forall (fun k => k <> "") p ->
  render prefix p = String.concat "." (prefix :: p).
Proof.
  induction p as [|k p IH]; intros prefix Hpre Hp; [reflexivity |].
  inversion Hp as [|? ? Hk Hp']; subst. cbn [render].
  rewrite dotted_nonempty by exact Hpre.
  rewrite IH; [| destruct prefix; [congruence | discriminate] | exact Hp'].
  cbn [String.concat]. destruct p as [|k' p].
  - apply append_assoc.
  - rewrite !append_assoc. reflexivity.
Qed.

Lemma render_dot_join (p : list string) :
  Forall (fun k => k <> "") p -> render "" p = dot_join p.
Proof.
  destruct p as [|k p]; intros Hp; [reflexivity |].
  inversion Hp as [|? ? Hk Hp']; subst.
  cbn [render]. unfold dotted. simpl. apply render_nonempty; assumption.
Qed.




(** ** Stores and what a merge may touch *)

Lemma distinct_iff (ks : list string) : distinct ks = true <-> List.NoDup ks.
Proof.
  split; [apply distinct_NoDup |].
  induction 1 as [|k ks Hnotin Hnd IH]; simpl; [reflexivity |].
  rewrite IH, andb_true_r. destruct (includes ks k) eqn:Hinc; [| reflexivity].
  apply includes_In in Hinc. contradiction.
Qed.

Lemma distinct_put (k : string) (v : value) (ps : props) :
  distinct (keys ps) = true -> distinct (keys (put k v ps)) = true.
Proof. rewrite !distinct_iff. apply NoDup_put. Qed.

Lemma heap_ok_inv (h : heap) :
  heap_ok h = true ->
  forall l o, h !! l = Some o ->
    keys_ok_obj o = true /\
    forall w, In w (children o) -> valid_val (length h) w = true.
Proof.
  unfold heap_ok, keys_ok, closed. rewrite andb_true_iff, !forallb_forall.
  intros [Hk Hc] l o Hl.
  assert (Hin : In o h) by (apply list_elem_of_In; eapply list_elem_of_lookup_2, Hl).
  split; [auto |]. intros w Hw. specialize (Hc o Hin).
  rewrite forallb_forall in Hc. auto.
Qed.

Lemma heap_ok_intro (h : heap) :
  (forall l o, h !! l = Some o ->
     keys_ok_obj o = true /\
     forall w, In w (children o) -> valid_val (length h) w = true) ->
  heap_ok h = true.
Proof.
  intros H. unfold heap_ok, keys_ok, closed.
  rewrite andb_true_iff, !forallb_forall. split.
  - intros o Hin. apply list_elem_of_In, list_elem_of_lookup_1 in Hin.
    destruct Hin as [l Hl]. apply (H l o Hl).
  - intros o Hin. apply list_elem_of_In, list_elem_of_lookup_1 in Hin.
    destruct Hin as [l Hl]. rewrite forallb_forall. apply (H l o Hl).
Qed.

Lemma valid_val_mono (n m : nat) (v : value) :
  n <= m -> valid_val n v = true -> valid_val m v = true.
Proof.
  destruct v as [p|l]; simpl; [auto |].
  rewrite !Nat.ltb_lt. lia.
Qed.

Lemma children_props (o : object) (k : string) (v : value) :
  In (k, v) (own_props o) -> In v (children o).
Proof.
  destruct o as [own|items|time own]; simpl; intros Hin.
  - change v with (snd (k, v)). apply in_map. exact Hin.
  - apply list_elem_of_In, elem_of_lookup_imap in Hin.
    destruct Hin as (i & x & [= _ ->] & Hx).
    apply list_elem_of_In. eapply list_elem_of_lookup_2, Hx.
  - change v with (snd (k, v)). apply in_map. exact Hin.
Qed.

Lemma children_with_props (o : object) (ps : props) :
  mergeable o = true -> children (with_props o ps) = map snd ps.
Proof. destruct o; simpl; [reflexivity | discriminate | reflexivity]. Qed.

Lemma own_props_with_props (o : object) (ps : props) :
  mergeable o = true -> own_props (with_props o ps) = ps.
Proof. destruct o; simpl; [reflexivity | discriminate | reflexivity]. Qed.

Lemma with_props_array (o : object) (ps : props) :
  mergeable o = false -> with_props o ps = o.
Proof. destruct o; simpl; [discriminate | reflexivity | discriminate]. Qed.

Lemma same_kind_refl (o : object) : same_kind o o.
Proof. destruct o; simpl; auto. Qed.

Lemma same_kind_trans (a b c : object) :
  same_kind a b -> same_kind b c -> same_kind a c.
Proof. destruct a, b, c; simpl; intuition congruence. Qed.

Lemma same_kind_with_props (o : object) (ps : props) :
  same_kind o (with_props o ps).
Proof. destruct o; simpl; auto. Qed.

Lemma same_kind_mergeable (o o' : object) :
  same_kind o o' -> mergeable o' = mergeable o.
Proof. destruct o, o'; simpl; intuition. Qed.

(** [isObject] on references. *)
Lemma isObject_Ref (h : heap) (l : loc) :
  isObject h (Ref l) =
  match h !! l with Some o => mergeable o | None => true end.
Proof.
  unfold isObject. simpl. destruct (h !! l) as [[]|]; reflexivity.
Qed.

Lemma isObject_Prim (h : heap) (p : prim) : isObject h (Prim p) = false.
Proof. destruct p; reflexivity. Qed.

Lemma mreach_isObject (h : heap) (v : value) (l : loc) :
  mreach h v l -> isObject h v = true.
Proof.
  intros Hr. destruct Hr as [l o Hl Hm | l o k w l' Hl Hm _ _];
    rewrite isObject_Ref, Hl; exact Hm.
Qed.

Lemma mreach_lt (h : heap) (v : value) (l : loc) :
  mreach h v l -> l < length h.
Proof.
  induction 1 as [l o Hl Hm | l o k w l' Hl Hm Hin Hr IH]; [| exact IH].
  eapply lookup_lt_Some, Hl.
Qed.

Lemma mreach_reach (h : heap) (v : value) (l : loc) :
  mreach h v l -> reach h v l.
Proof.
  induction 1 as [l o Hl Hm | l o k w l' Hl Hm Hin Hr IH].
  - eapply reach_here, Hl.
  - eapply reach_step; [exact Hl | eapply children_props, Hin | exact IH].
Qed.

Lemma isObject_same_kind (h h' : heap) (v : value) :
  (forall l o, h !! l = Some o -> exists o', h' !! l = Some o' /\ same_kind o o') ->
  valid_val (length h) v = true ->
  isObject h' v = isObject h v.
Proof.
  intros Hkind Hv. destruct v as [p|l]; [rewrite !isObject_Prim; reflexivity |].
  simpl in Hv. apply Nat.ltb_lt in Hv.
  apply lookup_lt_is_Some in Hv. destruct Hv as [o Ho].
  destruct (Hkind l o Ho) as (o' & Ho' & Hk).
  rewrite !isObject_Ref, Ho, Ho'. apply same_kind_mergeable, Hk.
Qed.

(** An array stays the array it is. *)
Lemma not_isObject_same_kind (h h' : heap) (v : value) :
  (forall l o, h !! l = Some o -> exists o', h' !! l = Some o' /\ same_kind o o') ->
  isObject h v = false -> isObject h' v = false.
Proof.
  intros Hkind. destruct v as [p|l]; [rewrite !isObject_Prim; auto |].
  rewrite !isObject_Ref. destruct (h !! l) as [o|] eqn:Ho; [| discriminate].
  destruct (Hkind l o Ho) as (o' & -> & Hk). intros Hm.
  rewrite (same_kind_mergeable _ _ Hk). exact Hm.
Qed.

Lemma ext_fresh_reach (h h' : heap) (tv : value) :
  ext h tv h' ->
  forall v l, mreach h' v l ->
  forall l0, v = Ref l0 -> length h <= l0 -> length h <= l.
Proof.
  intros He v l Hr.
  induction Hr as [l o Hl Hm | l1 o k w l' Hl Hm Hin Hr IH]; intros l0 [= <-] Hfresh.
  - exact Hfresh.
  - destruct (ext_edges _ _ _ He _ _ _ _ Hl Hm Hin)
      as [(o0 & Ho0 & _) | [Hno | (lw & -> & Hlw)]].
    + apply lookup_lt_Some in Ho0. lia.
    + apply mreach_isObject in Hr. congruence.
    + eapply IH; eauto.
Qed.

(** Merging adds nothing old to what can be reached from a value. *)
Lemma ext_mreach (h h' : heap) (tv : value) :
  ext h tv h' ->
  forall v l, mreach h' v l -> mreach h v l \/ length h <= l.
Proof.
  intros He v l Hr.
  induction Hr as [l o Hl Hm | l1 o k w l' Hl Hm Hin Hr IH].
  - destruct (Nat.lt_ge_cases l (length h)) as [Hlt|Hge]; [| auto].
    left. apply lookup_lt_is_Some in Hlt. destruct Hlt as [o0 Ho0].
    destruct (ext_kind _ _ _ He _ _ Ho0) as (o' & Ho' & Hk).
    assert (o' = o) by congruence. subst o'.
    eapply mreach_here; [exact Ho0 |].
    rewrite <- (same_kind_mergeable _ _ Hk). exact Hm.
  - destruct (ext_edges _ _ _ He _ _ _ _ Hl Hm Hin)
      as [(o0 & Ho0 & Hin0) | [Hno | (lw & -> & Hlw)]].
    + destruct IH as [IH|IH]; [| auto]. left.
      destruct (ext_kind _ _ _ He _ _ Ho0) as (o' & Ho' & Hk).
      assert (o' = o) by congruence. subst o'.
      eapply mreach_step; [exact Ho0 | | exact Hin0 | exact IH].
      rewrite <- (same_kind_mergeable _ _ Hk). exact Hm.
    + apply mreach_isObject in Hr. congruence.
    + right. eapply (ext_fresh_reach h h' tv He); eauto.
Qed.

Lemma ext_refl (h : heap) (tv : value) : heap_ok h = true -> ext h tv h.
Proof.
  intros Hok. split; [lia | exact Hok | | reflexivity |].
  - intros l o Hl. exists o. split; [exact Hl | apply same_kind_refl].
  - intros l o' k v Hl _ Hin. left. eauto.
Qed.

Lemma ext_target (h h' : heap) (tv tv' : value) :
  (forall l, mreach h tv' l -> mreach h tv l) ->
  ext h tv' h' -> ext h tv h'.
Proof.
  intros Hsub He. split.
  - exact (ext_len _ _ _ He).
  - exact (ext_ok _ _ _ He).
  - exact (ext_kind _ _ _ He).
  - intros l Hl Hno. apply (ext_frame _ _ _ He); auto.
  - exact (ext_edges _ _ _ He).
Qed.

Lemma ext_trans (h h1 h2 : heap) (tv : value) :
  ext h tv h1 -> ext h1 tv h2 -> ext h tv h2.
Proof.
  intros H1 H2. split.
  - pose proof (ext_len _ _ _ H1). pose proof (ext_len _ _ _ H2). lia.
  - exact (ext_ok _ _ _ H2).
  - intros l o Hl. destruct (ext_kind _ _ _ H1 _ _ Hl) as (o1 & Ho1 & Hk1).
    destruct (ext_kind _ _ _ H2 _ _ Ho1) as (o2 & Ho2 & Hk2).
    exists o2. split; [exact Ho2 | eapply same_kind_trans; eauto].
  - intros l Hl Hno. rewrite <- (ext_frame _ _ _ H1 l Hl Hno).
    apply (ext_frame _ _ _ H2).
    + pose proof (ext_len _ _ _ H1). lia.
    + intros Hr. destruct (ext_mreach _ _ _ H1 _ _ Hr); [contradiction | lia].
  - intros l o2 k v Hl Hm Hin.
    destruct (ext_edges _ _ _ H2 _ _ _ _ Hl Hm Hin)
      as [(o1 & Ho1 & Hin1) | [Hno | (lw & -> & Hlw)]].
    + assert (Hm1 : mergeable o1 = true).
      { destruct (ext_kind _ _ _ H2 _ _ Ho1) as (o' & Ho' & Hk).
        assert (o' = o2) by congruence. subst o'.
        rewrite <- (same_kind_mergeable _ _ Hk). exact Hm. }
      destruct (ext_edges _ _ _ H1 _ _ _ _ Ho1 Hm1 Hin1)
        as [Hold | [Hno | Hfresh]]; [auto | | auto].
      right. left. eapply not_isObject_same_kind; [exact (ext_kind _ _ _ H2) | exact Hno].
    + auto.
    + right. right. exists lw. split; [reflexivity |].
      pose proof (ext_len _ _ _ H1). lia.
Qed.

Lemma write_lookup (h : heap) (l l' : loc) (o : object) (key : string) (x : value) :
  h !! l = Some o ->
  write h (Ref l) key x !! l' =
  if decide (l' = l) then Some (with_props o (put key x (own_props o))) else h !! l'.
Proof.
  intros Hl. unfold write. rewrite Hl. case_decide as Heq.
  - subst. apply list_lookup_insert_eq. eapply lookup_lt_Some, Hl.
  - apply list_lookup_insert_ne. congruence.
Qed.

Lemma length_write (h : heap) (v : value) (key : string) (x : value) :
  length (write h v key x) = length h.
Proof.
  unfold write. destruct v as [p|l]; [reflexivity |].
  destruct (h !! l); [apply length_insert | reflexivity].
Qed.

Lemma keys_ok_obj_with_props (o : object) (key : string) (x : value) :
  keys_ok_obj o = true ->
  keys_ok_obj (with_props o (put key x (own_props o))) = true.
Proof.
  destruct o as [own|items|time own]; simpl; [| auto |]; apply distinct_put.
Qed.

Lemma heap_ok_write (h : heap) (v : value) (key : string) (x : value) :
  heap_ok h = true -> valid_val (length h) x = true ->
  heap_ok (write h v key x) = true.
Proof.
  intros Hok Hx. destruct v as [p|l]; [exact Hok |].
  destruct (h !! l) as [o|] eqn:Hl; [| unfold write; rewrite Hl; exact Hok].
  apply heap_ok_intro. intros l' o' Hl'. rewrite length_write.
  rewrite (write_lookup h l l' o key x Hl) in Hl'.
  case_decide as Heq; [| exact (heap_ok_inv h Hok l' o' Hl')].
  injection Hl' as <-. destruct (heap_ok_inv h Hok l o Hl) as [Hk Hc].
  split; [apply keys_ok_obj_with_props, Hk |].
  intros w Hw. destruct (mergeable o) eqn:Hm.
  - rewrite children_with_props in Hw by exact Hm.
    apply in_map_iff in Hw. destruct Hw as ([k' w'] & <- & Hin).
    apply In_put in Hin. destruct Hin as [[= _ ->]|Hin]; [exact Hx |].
    apply Hc. eapply children_props, Hin.
  - rewrite with_props_array in Hw by exact Hm. auto.
Qed.

Lemma heap_ok_alloc (h : heap) :
  heap_ok h = true -> heap_ok (h ++ [RecObj []]) = true.
Proof.
  intros Hok. apply heap_ok_intro. intros l o Hl.
  rewrite length_app. simpl.
  destruct (Nat.lt_ge_cases l (length h)) as [Hlt|Hge].
  - rewrite lookup_app_l in Hl by exact Hlt.
    destruct (heap_ok_inv h Hok l o Hl) as [Hk Hc]. split; [exact Hk |].
    intros w Hw. eapply valid_val_mono; [| apply Hc, Hw]. lia.
  - rewrite lookup_app_r in Hl by exact Hge.
    destruct (l - length h) as [|i]; simpl in Hl; [| discriminate].
    injection Hl as <-. split; [reflexivity | intros w []].
Qed.

(** Assigning a value that is not merged into. *)
Lemma ext_write_leaf (h : heap) (tv : value) (key : string) (x : value) :
  heap_ok h = true -> valid_val (length h) x = true -> isObject h x = false ->
  ext h tv (write h tv key x).
Proof.
  intros Hok Hx Hno.
  destruct tv as [p|lt]; [apply ext_refl, Hok |].
  destruct (h !! lt) as [o|] eqn:Hlt;
    [| unfold write; rewrite Hlt; apply ext_refl, Hok].
  assert (Hkind : forall l o0, h !! l = Some o0 ->
            exists o', write h (Ref lt) key x !! l = Some o' /\ same_kind o0 o').
  { intros l o0 Hl. rewrite (write_lookup h lt l o key x Hlt).
    case_decide as Heq.
    - subst. assert (o0 = o) by congruence. subst.
      eexists. split; [reflexivity | apply same_kind_with_props].
    - exists o0. split; [exact Hl | apply same_kind_refl]. }
  split.
  - rewrite length_write. lia.
  - apply heap_ok_write; assumption.
  - exact Hkind.
  - intros l Hl Hnr. rewrite (write_lookup h lt l o key x Hlt).
    case_decide as Heq; [| reflexivity]. subst.
    destruct (mergeable o) eqn:Hm.
    + exfalso. apply Hnr. eapply mreach_here; eauto.
    + rewrite with_props_array by exact Hm. symmetry. exact Hlt.
  - intros l o' k v Hl Hm Hin.
    rewrite (write_lookup h lt l o key x Hlt) in Hl.
    case_decide as Heq; [| left; eauto]. subst. injection Hl as <-.
    assert (Hmo : mergeable o = true) by (destruct o; auto).
    rewrite own_props_with_props in Hin by exact Hmo.
    apply In_put in Hin. destruct Hin as [[= -> ->]|Hin]; [| left; eauto].
    right. left. eapply not_isObject_same_kind; [exact Hkind | exact Hno].
Qed.

(** Assigning a new empty record. *)
Lemma ext_write_new (h : heap) (tv : value) (key : string) :
  heap_ok h = true ->
  ext h tv (write (h ++ [RecObj []]) tv key (Ref (length h))).
Proof.
  intros Hok. set (h1 := h ++ [RecObj []]).
  assert (Hok1 : heap_ok h1 = true) by apply heap_ok_alloc, Hok.
  assert (Hlen1 : length h1 = S (length h)) by (unfold h1; rewrite length_app; simpl; lia).
  assert (Hold : forall l, l < length h -> h1 !! l = h !! l)
    by (intros l Hl; apply lookup_app_l, Hl).
  assert (Hnew : forall l o, h1 !! l = Some o -> length h <= l -> o = RecObj []).
  { intros l o Hl Hge. unfold h1 in Hl. rewrite lookup_app_r in Hl by exact Hge.
    destruct (l - length h); simpl in Hl; [congruence | discriminate]. }
  assert (Hbase : ext h tv h1).
  { split; [lia | exact Hok1 | | |].
    - intros l o Hl. exists o. rewrite Hold by (eapply lookup_lt_Some, Hl).
      split; [exact Hl | apply same_kind_refl].
    - intros l Hl _. apply Hold, Hl.
    - intros l o' k v Hl Hm Hin.
      destruct (Nat.lt_ge_cases l (length h)) as [Hlt|Hge].
      + left. exists o'. rewrite <- Hold by exact Hlt. auto.
      + rewrite (Hnew l o' Hl Hge) in Hin. destruct Hin. }
  destruct tv as [p|lt]; [exact Hbase |].
  destruct (h1 !! lt) as [o|] eqn:Hlt;
    [| unfold write; rewrite Hlt; exact Hbase].
  split.
  - rewrite length_write. lia.
  - apply heap_ok_write; [exact Hok1 |]. simpl. apply Nat.ltb_lt. lia.
  - intros l o0 Hl. rewrite (write_lookup h1 lt l o key _ Hlt).
    rewrite <- Hold in Hl by (eapply lookup_lt_Some, Hl).
    case_decide as Heq.
    + subst. assert (o0 = o) by congruence. subst.
      eexists. split; [reflexivity | apply same_kind_with_props].
    + exists o0. split; [exact Hl | apply same_kind_refl].
  - intros l Hl Hnr. rewrite (write_lookup h1 lt l o key _ Hlt).
    case_decide as Heq; [| apply Hold, Hl]. subst.
    rewrite Hold in Hlt by exact Hl.
    destruct (mergeable o) eqn:Hm.
    + exfalso. apply Hnr. eapply mreach_here; eauto.
    + rewrite with_props_array by exact Hm. symmetry. exact Hlt.
  - intros l o' k v Hl Hm Hin.
    rewrite (write_lookup h1 lt l o key _ Hlt) in Hl.
    case_decide as Heq.
    2:{ destruct (Nat.lt_ge_cases l (length h)) as [Hlt'|Hge].
        - left. exists o'. rewrite <- Hold by exact Hlt'. auto.
        - rewrite (Hnew l o' Hl Hge) in Hin. destruct Hin. }
    subst. injection Hl as <-.
    assert (Hmo : mergeable o = true) by (destruct o; auto).
    rewrite own_props_with_props in Hin by exact Hmo.
    apply In_put in Hin. destruct Hin as [[= -> ->]|Hin].
    + right. right. eauto.
    + destruct (Nat.lt_ge_cases lt (length h)) as [Hlt'|Hge].
      * left. exists o. rewrite <- Hold by exact Hlt'. auto.
      * rewrite (Hnew lt o Hlt Hge) in Hin. destruct Hin.
Qed.

Lemma read_cases (h : heap) (v : value) (key : string) :
  read h v key = Prim Undefined \/
  exists l o, v = Ref l /\ h !! l = Some o /\ In (key, read h v key) (own_props o).
Proof.
  unfold read. destruct (get key (entries_of h v)) as [w|] eqn:Hget; [| auto].
  right. apply get_In in Hget. destruct v as [p|l]; [destruct Hget |].
  simpl in Hget. destruct (h !! l) as [o|] eqn:Hl; [| destruct Hget].
  exists l, o. auto.
Qed.

Lemma read_valid (h : heap) (v : value) (key : string) :
  heap_ok h = true -> valid_val (length h) (read h v key) = true.
Proof.
  intros Hok. destruct (read_cases h v key) as [->|(l & o & -> & Hl & Hin)];
    [reflexivity |].
  destruct (heap_ok_inv h Hok l o Hl) as [_ Hc].
  apply Hc. eapply children_props, Hin.
Qed.

Lemma read_mreach (h : heap) (tv : value) (key : string) (l : loc) :
  isObject h tv = true -> mreach h (read h tv key) l -> mreach h tv l.
Proof.
  intros Hobj Hr.
  destruct (read_cases h tv key) as [Hu|(lt & o & -> & Hl & Hin)].
  - rewrite Hu in Hr. inversion Hr.
  - rewrite isObject_Ref, Hl in Hobj. eapply mreach_step; eauto.
Qed.

Lemma ext_isObject (h h' : heap) (tv v : value) :
  ext h tv h' -> valid_val (length h) v = true ->
  isObject h' v = isObject h v.
Proof. intros He. apply isObject_same_kind. exact (ext_kind _ _ _ He). Qed.

Lemma ext_valid (h h' : heap) (tv v : value) :
  ext h tv h' -> valid_val (length h) v = true ->
  valid_val (length h') v = true.
Proof. intros He. apply valid_val_mono. exact (ext_len _ _ _ He). Qed.

Section MergeStep.
Variable merge : heap -> value -> list value -> option (value * heap).

Hypothesis merge_ext : forall h t ss r h',
  heap_ok h = true -> valid_val (length h) t = true ->
  merge h t ss = Some (r, h') -> ext h t h'.

Lemma mergeKey_ext (target source : value) (h : heap) (key : string) (h' : heap) :
  heap_ok h = true -> valid_val (length h) target = true ->
  isObject h target = true ->
  mergeKey merge target source h key = Some h' ->
  ext h target h'.
Proof.
  intros Hok Hv Hobj. unfold mergeKey.
  destruct (isObject h (read h source key)) eqn:Hsrc.
  - set (h1 := if truthy (read h target key) then h
               else write (h ++ [RecObj []]) target key (Ref (length h))).
    assert (H1 : ext h target h1).
    { unfold h1. destruct (truthy _); [apply ext_refl, Hok | apply ext_write_new, Hok]. }
    destruct (merge h1 (read h1 target key) [read h1 source key])
      as [[r h2]|] eqn:Hm; simpl; [| discriminate].
    intros [= <-]. apply (ext_trans h h1 h2); [exact H1 |].
    apply (ext_target h1 h2 target (read h1 target key)).
    + intros l. apply read_mreach.
      rewrite (ext_isObject h h1 target target H1 Hv). exact Hobj.
    + eapply merge_ext; [exact (ext_ok _ _ _ H1) | | exact Hm].
      apply read_valid. exact (ext_ok _ _ _ H1).
  - intros [= <-]. apply ext_write_leaf; [exact Hok | | exact Hsrc].
    apply read_valid, Hok.
Qed.

Lemma forEach_ext (target source : value) (ks : list string) :
  forall h h',
  heap_ok h = true -> valid_val (length h) target = true ->
  isObject h target = true ->
  forEach (mergeKey merge target source) ks h = Some h' ->
  ext h target h'.
Proof.
  induction ks as [|k ks IH]; intros h h' Hok Hv Hobj; cbn [forEach].
  - intros [= <-]. apply ext_refl, Hok.
  - destruct (mergeKey merge target source h k) as [h1|] eqn:Hk;
      cbn [mbind option_bind]; [| discriminate].
    intros Hrest.
    pose proof (mergeKey_ext _ _ _ _ _ Hok Hv Hobj Hk) as H1.
    apply (ext_trans h h1 h'); [exact H1 |].
    apply IH; [exact (ext_ok _ _ _ H1) | eapply ext_valid; eauto | | exact Hrest].
    rewrite (ext_isObject h h1 target target H1 Hv). exact Hobj.
Qed.
End MergeStep.

(** What a merge returns and what it may change. *)
Lemma deepMerge_ext (fuel : nat) : forall h t ss r h',
  heap_ok h = true -> valid_val (length h) t = true ->
  deepMerge fuel h t ss = Some (r, h') ->
  r = t /\ ext h t h'.
Proof.
  induction fuel as [|fuel IH]; intros h t ss r h' Hok Hv; [discriminate |].
  cbn [deepMerge]. destruct ss as [|s rest].
  { intros [= <- <-]. split; [reflexivity | apply ext_refl, Hok]. }
  destruct (is_undefined s).
  { intros [= <- <-]. split; [reflexivity | apply ext_refl, Hok]. }
  assert (Hstep : forall h1,
    (if isObject h t && isObject h s
     then forEach (mergeKey (deepMerge fuel) t s) (keys (entries_of h s)) h
     else Some h) = Some h1 -> ext h t h1).
  { intros h1. destruct (isObject h t) eqn:Hobj; simpl.
    - destruct (isObject h s).
      + apply forEach_ext; try assumption.
        intros h0 t0 ss0 r0 h0' Hok0 Hv0 Hm. eapply IH; eauto.
      + intros [= <-]. apply ext_refl, Hok.
    - intros [= <-]. apply ext_refl, Hok. }
  destruct (if isObject h t && isObject h s then _ else _) as [h1|];
    cbn [mbind option_bind]; [| discriminate].
  specialize (Hstep h1 eq_refl). intros Hrest.
  destruct (IH h1 t rest r h' (ext_ok _ _ _ Hstep) (ext_valid _ _ _ _ Hstep Hv) Hrest)
    as [-> H2].
  split; [reflexivity | eapply ext_trans; eauto].
Qed.

(** ** A source that is apart from the target is only read *)

Lemma apart_unchanged (h h' : heap) (tv v : value) (l : loc) :
  ext h tv h' -> apart h tv v -> mreach h v l -> h' !! l = h !! l.
Proof.
  intros He Hap Hr. apply (ext_frame _ _ _ He); [eapply mreach_lt, Hr | auto].
Qed.

Lemma apart_entries (h h' : heap) (tv v : value) :
  ext h tv h' -> apart h tv v -> valid_val (length h) v = true ->
  isObject h v = true ->
  entries_of h' v = entries_of h v.
Proof.
  intros He Hap Hv Hobj. destruct v as [p|l]; [reflexivity |].
  simpl in Hv. apply Nat.ltb_lt, lookup_lt_is_Some in Hv. destruct Hv as [o Ho].
  rewrite isObject_Ref, Ho in Hobj. simpl.
  rewrite (apart_unchanged h h' tv (Ref l) l He Hap); [reflexivity |].
  eapply mreach_here; eauto.
Qed.

Lemma apart_read (h : heap) (tv v : value) (key : string) :
  apart h tv v -> isObject h v = true -> apart h tv (read h v key).
Proof. intros Hap Hobj l Hr. apply Hap. eapply read_mreach; eauto. Qed.

Lemma apart_prop (h : heap) (tv : value) (l : loc) (o : object) (k : string)
    (w : value) :
  apart h tv (Ref l) -> h !! l = Some o -> mergeable o = true ->
  In (k, w) (own_props o) -> apart h tv w.
Proof. intros Hap Hl Hm Hin l' Hr. apply Hap. eapply mreach_step; eauto. Qed.

Lemma mreach_back (h h' : heap) (tv : value) :
  ext h tv h' -> heap_ok h = true ->
  forall v l, mreach h' v l ->
    valid_val (length h) v = true -> apart h tv v -> mreach h v l.
Proof.
  intros He Hok v l Hr.
  induction Hr as [l o' Hl Hm | l1 o' k w l' Hl Hm Hin Hr IH]; intros Hv Hap;
    simpl in Hv; apply Nat.ltb_lt, lookup_lt_is_Some in Hv; destruct Hv as [o Ho];
    destruct (ext_kind _ _ _ He _ _ Ho) as (o2 & Ho2 & Hk);
    assert (o2 = o') by congruence; subst o2;
    assert (Hmo : mergeable o = true)
      by (rewrite <- (same_kind_mergeable _ _ Hk); exact Hm).
  - eapply mreach_here; eauto.
  - assert (Hsame : h' !! l1 = h !! l1).
    { apply (apart_unchanged h h' tv (Ref l1) l1 He Hap). eapply mreach_here; eauto. }
    assert (o' = o) by congruence. subst o'.
    eapply mreach_step; [exact Ho | exact Hmo | exact Hin |].
    apply IH.
    + destruct (heap_ok_inv h Hok l1 o Ho) as [_ Hc].
      apply Hc. eapply children_props, Hin.
    + eapply apart_prop; eauto.
Qed.

Lemma apart_ext (h h' : heap) (tv v : value) :
  ext h tv h' -> heap_ok h = true -> valid_val (length h) v = true ->
  apart h tv v -> apart h' tv v.
Proof.
  intros He Hok Hv Hap l Hr Ht.
  pose proof (mreach_back h h' tv He Hok v l Hr Hv Hap) as Hr0.
  destruct (ext_mreach h h' tv He tv l Ht) as [Ht0|Hfresh].
  - exact (Hap l Hr0 Ht0).
  - apply mreach_lt in Hr0. lia.
Qed.

Lemma depth_le_ext (h h' : heap) (tv : value) :
  ext h tv h' -> heap_ok h = true ->
  forall n v, valid_val (length h) v = true -> apart h tv v ->
    depth_le n h v = true -> depth_le n h' v = true.
Proof.
  intros He Hok. induction n as [|n IH]; intros v Hv Hap; cbn [depth_le];
    rewrite (ext_isObject h h' tv v He Hv); [auto |].
  destruct (isObject h v) eqn:Hobj; [| auto]. simpl.
  rewrite (apart_entries h h' tv v He Hap Hv Hobj).
  rewrite !forallb_forall. intros Hd [k w] Hin. simpl.
  destruct v as [p|l]; [destruct Hin |]. simpl in Hin.
  destruct (h !! l) as [o|] eqn:Ho; [| destruct Hin].
  rewrite isObject_Ref, Ho in Hobj.
  apply IH.
  - destruct (heap_ok_inv h Hok l o Ho) as [_ Hc]. apply Hc.
    eapply children_props, Hin.
  - eapply apart_prop; eauto.
  - apply (Hd (k, w)). simpl. rewrite Ho. exact Hin.
Qed.

Lemma depth_le_read (n : nat) (h : heap) (v : value) (key : string) :
  isObject h v = true -> depth_le (S n) h v = true ->
  depth_le n h (read h v key) = true.
Proof.
  intros Hobj Hd. cbn [depth_le] in Hd. rewrite Hobj in Hd. simpl in Hd.
  destruct (read_cases h v key) as [->|(l & o & -> & Hl & Hin)].
  - destruct n; reflexivity.
  - rewrite forallb_forall in Hd.
    apply (Hd (key, read h (Ref l) key)). simpl. rewrite Hl. exact Hin.
Qed.

Section MergeLoop.
Variable merge : heap -> value -> list value -> option (value * heap).
Variable n : nat.

Hypothesis merge_ext : forall h t ss r h',
  heap_ok h = true -> valid_val (length h) t = true ->
  merge h t ss = Some (r, h') -> ext h t h'.

Hypothesis merge_total : forall h t s,
  heap_ok h = true -> valid_val (length h) t = true ->
  valid_val (length h) s = true -> depth_le n h s = true -> apart h t s ->
  exists h', merge h t [s] = Some (t, h').

Lemma mergeKey_total (target source : value) (h : heap) (key : string) :
  heap_ok h = true -> valid_val (length h) target = true ->
  isObject h target = true ->
  valid_val (length h) source = true -> isObject h source = true ->
  depth_le (S n) h source = true -> apart h target source ->
  exists h', mergeKey merge target source h key = Some h'.
Proof.
  intros Hok Hvt Hot Hvs Hos Hd Hap. unfold mergeKey.
  destruct (isObject h (read h source key)) eqn:Hsrc; [| eauto].
  set (h1 := if truthy (read h target key) then h
             else write (h ++ [RecObj []]) target key (Ref (length h))).
  assert (H1 : ext h target h1).
  { unfold h1. destruct (truthy _); [apply ext_refl, Hok | apply ext_write_new, Hok]. }
  assert (Hrd : read h1 source key = read h source key).
  { unfold read. rewrite (apart_entries h h1 target source H1 Hap Hvs Hos).
    reflexivity. }
  rewrite Hrd.
  assert (Hot1 : isObject h1 target = true)
    by (rewrite (ext_isObject h h1 target target H1 Hvt); exact Hot).
  destruct (merge_total h1 (read h1 target key) (read h source key))
    as [h2 Hm].
  - exact (ext_ok _ _ _ H1).
  - apply read_valid. exact (ext_ok _ _ _ H1).
  - eapply ext_valid; [exact H1 |]. apply read_valid, Hok.
  - apply (depth_le_ext h h1 target H1 Hok).
    + apply read_valid, Hok.
    + apply apart_read; assumption.
    + apply depth_le_read; assumption.
  - intros l Hr Ht. apply read_mreach in Ht; [| exact Hot1].
    revert l Hr Ht. apply (apart_ext h h1 target _ H1 Hok).
    + apply read_valid, Hok.
    + apply apart_read; assumption.
  - rewrite Hm. simpl. eauto.
Qed.

Lemma forEach_total (target source : value) (ks : list string) :
  forall h,
  heap_ok h = true -> valid_val (length h) target = true ->
  isObject h target = true ->
  valid_val (length h) source = true -> isObject h source = true ->
  depth_le (S n) h source = true -> apart h target source ->
  exists h', forEach (mergeKey merge target source) ks h = Some h'.
Proof.
  induction ks as [|k ks IH]; intros h Hok Hvt Hot Hvs Hos Hd Hap;
    cbn [forEach]; [eauto |].
  destruct (mergeKey_total target source h k Hok Hvt Hot Hvs Hos Hd Hap)
    as [h1 Hk].
  rewrite Hk. cbn [mbind option_bind].
  pose proof (mergeKey_ext merge merge_ext _ _ _ _ _ Hok Hvt Hot Hk) as H1.
  apply IH.
  - exact (ext_ok _ _ _ H1).
  - eapply ext_valid; eauto.
  - rewrite (ext_isObject h h1 target target H1 Hvt). exact Hot.
  - eapply ext_valid; eauto.
  - rewrite (ext_isObject h h1 target source H1 Hvs). exact Hos.
  - apply (depth_le_ext h h1 target H1 Hok); assumption.
  - apply (apart_ext h h1 target source H1 Hok); assumption.
Qed.
End MergeLoop.

(** Enough fuel: sources of bounded depth that are apart from the target are
    merged, and the call returns. *)
Lemma deepMerge_total (fuel : nat) : forall n ss h t,
  n + length ss < fuel ->
  heap_ok h = true -> valid_val (length h) t = true ->
  (forall s, In s ss ->
     valid_val (length h) s = true /\ depth_le n h s = true /\ apart h t s) ->
  exists h', deepMerge fuel h t ss = Some (t, h').
Proof.
  induction fuel as [|fuel IH]; intros n ss h t Hfuel Hok Hvt Hss; [lia |].
  cbn [deepMerge]. destruct ss as [|s rest]; [eauto |].
  destruct (is_undefined s); [eauto |].
  destruct (Hss s (or_introl eq_refl)) as (Hvs & Hds & Haps).
  simpl in Hfuel.
  assert (Hstep : exists h1,
    (if isObject h t && isObject h s
     then forEach (mergeKey (deepMerge fuel) t s) (keys (entries_of h s)) h
     else Some h) = Some h1 /\ ext h t h1).
  { destruct (isObject h t) eqn:Hot; simpl;
      [| exists h; split; [reflexivity | apply ext_refl, Hok]].
    destruct (isObject h s) eqn:Hos;
      [| exists h; split; [reflexivity | apply ext_refl, Hok]].
    destruct n as [|n]; [cbn [depth_le] in Hds; rewrite Hos in Hds; discriminate |].
    assert (Hext : forall h0 t0 ss0 r0 h0',
      heap_ok h0 = true -> valid_val (length h0) t0 = true ->
      deepMerge fuel h0 t0 ss0 = Some (r0, h0') -> ext h0 t0 h0').
    { intros h0 t0 ss0 r0 h0' Hok0 Hv0 Hm. eapply deepMerge_ext; eauto. }
    destruct (forEach_total (deepMerge fuel) n Hext) with
      (target := t) (source := s) (ks := keys (entries_of h s)) (h := h)
      as [h1 Hh1]; try assumption.
    { intros h0 t0 s0 Hok0 Hvt0 Hvs0 Hd0 Hap0.
      apply (IH n [s0] h0 t0); [simpl; lia | assumption | assumption |].
      intros s' [<-|[]]. auto. }
    exists h1. split; [exact Hh1 |].
    eapply forEach_ext; [exact Hext | | | | exact Hh1]; assumption. }
  destruct Hstep as (h1 & -> & H1). cbn [mbind option_bind].
  apply (IH n rest h1 t); [lia | exact (ext_ok _ _ _ H1) | eapply ext_valid; eauto |].
  intros s' Hin. destruct (Hss s' (or_intror Hin)) as (Hv' & Hd' & Hap').
  split; [eapply ext_valid; eauto |].
  split; [apply (depth_le_ext h h1 t H1 Hok); assumption |].
  apply (apart_ext h h1 t s' H1 Hok); assumption.
Qed.

(** ** More fuel changes nothing *)

Lemma forEach_mono (f g : heap -> string -> option heap) (ks : list string) :
  (forall h k h', f h k = Some h' -> g h k = Some h') ->
  forall h h', forEach f ks h = Some h' -> forEach g ks h = Some h'.
Proof.
  intros Hfg. induction ks as [|k ks IH]; intros h h'; cbn [forEach]; [auto |].
  destruct (f h k) as [h1|] eqn:Hk; cbn [mbind option_bind]; [| discriminate].
  rewrite (Hfg _ _ _ Hk). cbn [mbind option_bind]. apply IH.
Qed.

Lemma mergeKey_mono (m m' : heap -> value -> list value -> option (value * heap))
    (target source : value) (h : heap) (key : string) (h' : heap) :
  (forall h t ss x, m h t ss = Some x -> m' h t ss = Some x) ->
  mergeKey m target source h key = Some h' ->
  mergeKey m' target source h key = Some h'.
Proof.
  intros Hm. unfold mergeKey. destruct (isObject h _); [| auto].
  destruct (m _ _ _) as [x|] eqn:Hx; cbn [mbind option_bind]; [| discriminate].
  rewrite (Hm _ _ _ _ Hx). auto.
Qed.

Lemma deepMerge_fuel_S (fuel : nat) : forall h t ss x,
  deepMerge fuel h t ss = Some x -> deepMerge (S fuel) h t ss = Some x.
Proof.
  induction fuel as [|fuel IH]; intros h t ss x; [discriminate |].
  intros Hm. cbn [deepMerge] in Hm |- *.
  destruct ss as [|s rest]; [exact Hm |].
  destruct (is_undefined s); [exact Hm |].
  destruct (isObject h t && isObject h s).
  - destruct (forEach (mergeKey (deepMerge fuel) t s) _ h) as [h1|] eqn:Hf;
      cbn [mbind option_bind] in Hm; [| discriminate].
    erewrite forEach_mono; [| | exact Hf].
    + cbn [mbind option_bind]. apply IH, Hm.
    + intros h0 k h0'. apply mergeKey_mono. exact IH.
  - cbn [mbind option_bind] in *. apply IH, Hm.
Qed.

Lemma deepMerge_fuel_mono (fuel fuel' : nat) (h : heap) (t : value)
    (ss : list value) (x : value * heap) :
  fuel <= fuel' ->
  deepMerge fuel h t ss = Some x -> deepMerge fuel' h t ss = Some x.
Proof.
  induction 1 as [|fuel' Hle IH]; [auto |].
  intros Hm. apply deepMerge_fuel_S, IH, Hm.
Qed.

(** A run that returns returns what a run with a given amount of fuel does. *)
Lemma deepMerge_fuel_det (fuel fuel' : nat) (h : heap) (t : value)
    (ss : list value) (x x' : value * heap) :
  deepMerge fuel h t ss = Some x -> deepMerge fuel' h t ss = Some x' -> x = x'.
Proof.
  intros H1 H2.
  apply (deepMerge_fuel_mono fuel (Nat.max fuel fuel')) in H1; [| lia].
  apply (deepMerge_fuel_mono fuel' (Nat.max fuel fuel')) in H2; [| lia].
  congruence.
Qed.

(** ** Separation from regions *)

Lemma inb_In (l : loc) (R : list loc) : inb l R = true <-> In l R.
Proof.
  unfold inb. rewrite existsb_exists. split.
  - intros (x & Hin & Heq). apply Nat.eqb_eq in Heq. subst. exact Hin.
  - intros Hin. exists l. split; [exact Hin | apply Nat.eqb_refl].
Qed.

Lemma region_reach (h : heap) (R : list loc) :
  region h R = true ->
  forall v l, reach h v l -> refs_in R [v] = true -> In l R.
Proof.
  intros Hreg v l Hr.
  induction Hr as [l o Hl | l o w l' Hl Hin Hr IH]; simpl; rewrite andb_true_r;
    intros Hv; apply inb_In in Hv; [exact Hv |].
  apply IH. simpl. rewrite andb_true_r.
  unfold region in Hreg. rewrite forallb_forall in Hreg.
  specialize (Hreg l Hv). rewrite Hl in Hreg.
  unfold refs_in in Hreg. rewrite forallb_forall in Hreg. exact (Hreg w Hin).
Qed.

Lemma disjoint_In (R1 R2 : list loc) (l : loc) :
  disjoint R1 R2 = true -> In l R2 -> ~ In l R1.
Proof.
  unfold disjoint. rewrite forallb_forall. intros Hd Hin2 Hin1.
  specialize (Hd l Hin2). apply inb_In in Hin1. rewrite Hin1 in Hd. discriminate.
Qed.

Lemma regions_apart (h : heap) (tv v : value) (Rt Rv : list loc) :
  region h Rt = true -> refs_in Rt [tv] = true ->
  region h Rv = true -> refs_in Rv [v] = true ->
  disjoint Rt Rv = true ->
  forall l, reach h v l -> ~ reach h tv l.
Proof.
  intros HRt Ht HRv Hv Hdis l Hrv Hrt.
  apply (disjoint_In Rt Rv l Hdis).
  - exact (region_reach h Rv HRv v l Hrv Hv).
  - exact (region_reach h Rt HRt tv l Hrt Ht).
Qed.

Lemma regions_apart_m (h : heap) (tv v : value) (Rt Rv : list loc) :
  region h Rt = true -> refs_in Rt [tv] = true ->
  region h Rv = true -> refs_in Rv [v] = true ->
  disjoint Rt Rv = true ->
  apart h tv v.
Proof.
  intros HRt Ht HRv Hv Hdis l Hrv Hrt.
  apply (regions_apart h tv v Rt Rv HRt Ht HRv Hv Hdis l); apply mreach_reach; assumption.
Qed.

Lemma region_rooted (h : heap) (lt : loc) (o : object) (R : list loc) :
  h !! lt = Some o -> region h R = true -> refs_in R (children o) = true ->
  inb lt R = false -> rooted h (Ref lt).
Proof.
  intros Hl Hreg Hkids Hnot l o' k w [= <-] Hl' Hin Hr.
  assert (o' = o) by congruence. subst o'.
  assert (Hinl : In lt R).
  { eapply region_reach; [exact Hreg | apply mreach_reach, Hr |].
    simpl. rewrite andb_true_r.
    unfold refs_in in Hkids. rewrite forallb_forall in Hkids.
    apply (Hkids w). eapply children_props, Hin. }
  apply inb_In in Hinl. congruence.
Qed.

(** ** [deepMerge]: the result and the frame *)

Lemma deepMerge_result (fuel : nat) : forall h t ss r h',
  deepMerge fuel h t ss = Some (r, h') -> r = t.
Proof.
  induction fuel as [|fuel IH]; intros h t ss r h'; [discriminate |].
  cbn [deepMerge]. destruct ss as [|s rest]; [congruence |].
  destruct (is_undefined s); [congruence |].
  destruct (if isObject h t && isObject h s then _ else _) as [h1|];
    cbn [mbind option_bind]; [apply IH | discriminate].
Qed.



(** ** [deepMerge]: what the target holds afterwards *)

Lemma mreach_end (h : heap) (v : value) (l : loc) :
  mreach h v l -> exists o, h !! l = Some o /\ mergeable o = true.
Proof. induction 1 as [l o Hl Hm | ? ? ? ? ? ? ? ? ? IH]; eauto. Qed.

Lemma rooted_ext (h h' : heap) (tv : value) :
  ext h tv h' -> valid_val (length h) tv = true -> rooted h tv -> rooted h' tv.
Proof.
  intros He Hv Hroot lt o' k w -> Hl Hin Hr.
  simpl in Hv. apply Nat.ltb_lt in Hv.
  destruct (mreach_end _ _ _ Hr) as (o2 & Ho2 & Hm).
  assert (o2 = o') by congruence. subst o2.
  destruct (ext_edges _ _ _ He _ _ _ _ Hl Hm Hin)
    as [(o & Ho & Hin0) | [Hno | (lw & -> & Hlw)]].
  - destruct (ext_mreach _ _ _ He _ _ Hr) as [Hr0|Hfresh]; [| lia].
    exact (Hroot lt o k w eq_refl Ho Hin0 Hr0).
  - apply mreach_isObject in Hr. congruence.
  - pose proof (ext_fresh_reach _ _ _ He _ _ Hr lw eq_refl Hlw). lia.
Qed.

Lemma read_lookup_eq (h h' : heap) (l : loc) (k : string) :
  h' !! l = h !! l -> read h' (Ref l) k = read h (Ref l) k.
Proof. intros Heq. unfold read, entries_of. rewrite Heq. reflexivity. Qed.

Lemma read_write (h : heap) (lt : loc) (o : object) (k k0 : string) (x : value) :
  h !! lt = Some o -> mergeable o = true ->
  read (write h (Ref lt) k x) (Ref lt) k0 =
  if String.eqb k0 k then x else read h (Ref lt) k0.
Proof.
  intros Hl Hm. unfold read at 1. unfold entries_of.
  rewrite (write_lookup h lt lt o k x Hl). case_decide; [| congruence].
  rewrite own_props_with_props by exact Hm. rewrite get_put.
  destruct (String.eqb k0 k); [reflexivity |].
  unfold read, entries_of. rewrite Hl. reflexivity.
Qed.

Lemma read_write_new (h : heap) (lt : loc) (o : object) (k k0 : string) :
  h !! lt = Some o -> mergeable o = true ->
  read (write (h ++ [RecObj []]) (Ref lt) k (Ref (length h))) (Ref lt) k0 =
  if String.eqb k0 k then Ref (length h) else read h (Ref lt) k0.
Proof.
  intros Hl Hm.
  assert (Hl1 : (h ++ [RecObj []]) !! lt = Some o).
  { rewrite lookup_app_l by (eapply lookup_lt_Some, Hl). exact Hl. }
  rewrite (read_write _ lt o k k0 _ Hl1 Hm).
  destruct (String.eqb k0 k); [reflexivity |].
  apply read_lookup_eq. congruence.
Qed.

Lemma isObject_lookup (h : heap) (l : loc) :
  isObject h (Ref l) = true -> l < length h ->
  exists o, h !! l = Some o /\ mergeable o = true.
Proof.
  intros Hobj Hl. apply lookup_lt_is_Some in Hl. destruct Hl as [o Ho].
  rewrite isObject_Ref, Ho in Hobj. eauto.
Qed.

Lemma rooted_read (h : heap) (lt : loc) (k : string) :
  rooted h (Ref lt) -> ~ mreach h (read h (Ref lt) k) lt.
Proof.
  intros Hroot Hr.
  destruct (read_cases h (Ref lt) k) as [Hu|(l & o & [= <-] & Hl & Hin)].
  - rewrite Hu in Hr. inversion Hr.
  - exact (Hroot lt o k _ eq_refl Hl Hin Hr).
Qed.

Section MergeReads.
Variable merge : heap -> value -> list value -> option (value * heap).

Hypothesis merge_ext : forall h t ss r h',
  heap_ok h = true -> valid_val (length h) t = true ->
  merge h t ss = Some (r, h') -> ext h t h'.

(** A step for the key [k] leaves the other properties of the target. *)
Lemma mergeKey_read_other (lt : loc) (source : value) (h : heap)
    (k k0 : string) (h' : heap) :
  heap_ok h = true -> lt < length h -> isObject h (Ref lt) = true ->
  rooted h (Ref lt) -> k0 <> k ->
  mergeKey merge (Ref lt) source h k = Some h' ->
  read h' (Ref lt) k0 = read h (Ref lt) k0.
Proof.
  intros Hok Hlt Hobj Hroot Hne.
  destruct (isObject_lookup h lt Hobj Hlt) as (o & Ho & Hm).
  assert (Hv : valid_val (length h) (Ref lt) = true) by (apply Nat.ltb_lt, Hlt).
  assert (Hk : String.eqb k0 k = false) by (apply String.eqb_neq, Hne).
  unfold mergeKey. destruct (isObject h (read h source k)).
  - set (h1 := if truthy (read h (Ref lt) k) then h
               else write (h ++ [RecObj []]) (Ref lt) k (Ref (length h))).
    assert (H1 : ext h (Ref lt) h1).
    { unfold h1. destruct (truthy _); [apply ext_refl, Hok | apply ext_write_new, Hok]. }
    assert (Hr1 : read h1 (Ref lt) k0 = read h (Ref lt) k0).
    { unfold h1. destruct (truthy _); [reflexivity |].
      rewrite (read_write_new h lt o k k0 Ho Hm), Hk. reflexivity. }
    destruct (merge h1 _ _) as [[r h2]|] eqn:Hmerge;
      cbn [mbind option_bind]; [| discriminate].
    intros [= <-]. rewrite <- Hr1. apply read_lookup_eq.
    assert (H2 : ext h1 (read h1 (Ref lt) k) h2).
    { eapply merge_ext; [exact (ext_ok _ _ _ H1) | | exact Hmerge].
      apply read_valid. exact (ext_ok _ _ _ H1). }
    apply (ext_frame _ _ _ H2).
    + pose proof (ext_len _ _ _ H1). lia.
    + apply rooted_read. eapply rooted_ext; eauto.
  - intros Heq. apply (inj Some) in Heq. subst h'.
    rewrite (read_write h lt o k k0 _ Ho Hm), Hk. reflexivity.
Qed.

(** A step for a key whose source value is not merged into assigns it. *)
Lemma mergeKey_read_leaf (lt : loc) (source : value) (h : heap)
    (k : string) (h' : heap) :
  lt < length h -> isObject h (Ref lt) = true ->
  isObject h (read h source k) = false ->
  mergeKey merge (Ref lt) source h k = Some h' ->
  read h' (Ref lt) k = read h source k.
Proof.
  intros Hlt Hobj Hleaf.
  destruct (isObject_lookup h lt Hobj Hlt) as (o & Ho & Hm).
  unfold mergeKey. rewrite Hleaf. intros Heq. apply (inj Some) in Heq. subst h'.
  rewrite (read_write h lt o k k _ Ho Hm), String.eqb_refl. reflexivity.
Qed.

Lemma forEach_read_other (lt : loc) (source : value) (k0 : string)
    (ks : list string) :
  forall h h',
  heap_ok h = true -> lt < length h -> isObject h (Ref lt) = true ->
  rooted h (Ref lt) -> ~ In k0 ks ->
  forEach (mergeKey merge (Ref lt) source) ks h = Some h' ->
  read h' (Ref lt) k0 = read h (Ref lt) k0.
Proof.
  induction ks as [|k ks IH]; intros h h' Hok Hlt Hobj Hroot Hnotin;
    cbn [forEach].
  - intros [= <-]. reflexivity.
  - destruct (mergeKey merge (Ref lt) source h k) as [h1|] eqn:Hk;
      cbn [mbind option_bind]; [| discriminate].
    intros Hrest.
    assert (Hv : valid_val (length h) (Ref lt) = true) by (apply Nat.ltb_lt, Hlt).
    pose proof (mergeKey_ext merge merge_ext _ _ _ _ _ Hok Hv Hobj Hk) as H1.
    rewrite <- (mergeKey_read_other lt source h k k0 h1 Hok Hlt Hobj Hroot);
      [| intros ->; apply Hnotin; left; reflexivity | exact Hk].
    apply IH; [exact (ext_ok _ _ _ H1) | | | | | exact Hrest].
    + pose proof (ext_len _ _ _ H1). lia.
    + rewrite (ext_isObject h h1 _ _ H1 Hv). exact Hobj.
    + eapply rooted_ext; eauto.
    + intros Hin. apply Hnotin. right. exact Hin.
Qed.

Lemma forEach_read_leaf (lt : loc) (source : value) (k0 : string)
    (ks : list string) :
  forall h h',
  heap_ok h = true -> lt < length h -> isObject h (Ref lt) = true ->
  rooted h (Ref lt) ->
  valid_val (length h) source = true -> isObject h source = true ->
  apart h (Ref lt) source ->
  isObject h (read h source k0) = false -> In k0 ks ->
  forEach (mergeKey merge (Ref lt) source) ks h = Some h' ->
  read h' (Ref lt) k0 = read h source k0.
Proof.
  induction ks as [|k ks IH];
    intros h h' Hok Hlt Hobj Hroot Hvs Hos Hap Hleaf Hin; [destruct Hin |].
  cbn [forEach].
  destruct (mergeKey merge (Ref lt) source h k) as [h1|] eqn:Hk;
    cbn [mbind option_bind]; [| discriminate].
  intros Hrest.
  assert (Hv : valid_val (length h) (Ref lt) = true) by (apply Nat.ltb_lt, Hlt).
  pose proof (mergeKey_ext merge merge_ext _ _ _ _ _ Hok Hv Hobj Hk) as H1.
  assert (Hlt1 : lt < length h1) by (pose proof (ext_len _ _ _ H1); lia).
  assert (Hobj1 : isObject h1 (Ref lt) = true)
    by (rewrite (ext_isObject h h1 _ _ H1 Hv); exact Hobj).
  assert (Hroot1 : rooted h1 (Ref lt)) by (eapply rooted_ext; eauto).
  assert (Hrd : forall key, read h1 source key = read h source key).
  { intros key. unfold read.
    rewrite (apart_entries h h1 (Ref lt) source H1 Hap Hvs Hos). reflexivity. }
  destruct (in_dec String.string_dec k0 ks) as [Hlater|Hlast].
  - rewrite <- (Hrd k0).
    apply IH; try assumption.
    + exact (ext_ok _ _ _ H1).
    + eapply ext_valid; eauto.
    + rewrite (ext_isObject h h1 _ _ H1 Hvs). exact Hos.
    + apply (apart_ext h h1 (Ref lt) source H1 Hok); assumption.
    + rewrite (Hrd k0).
      eapply not_isObject_same_kind; [exact (ext_kind _ _ _ H1) | exact Hleaf].
  - destruct Hin as [->|Hin]; [| contradiction].
    rewrite (forEach_read_other lt source k0 ks h1 h'
               (ext_ok _ _ _ H1) Hlt1 Hobj1 Hroot1 Hlast Hrest).
    apply (mergeKey_read_leaf lt source h k0 h1); assumption.
Qed.
End MergeReads.

Lemma deepMerge_ext' (fuel : nat) : forall h t ss r h',
  heap_ok h = true -> valid_val (length h) t = true ->
  deepMerge fuel h t ss = Some (r, h') -> ext h t h'.
Proof. intros h t ss r h' Hok Hv Hm. eapply deepMerge_ext; eauto. Qed.

(** One source: the value of a key that holds a primitive or a list ends up
    in the target. *)
Lemma deepMerge_read_leaf (fuel : nat) (h : heap) (lt : loc) (s : value)
    (k : string) (r : value) (h' : heap) :
  heap_ok h = true -> lt < length h -> isObject h (Ref lt) = true ->
  rooted h (Ref lt) ->
  valid_val (length h) s = true -> isObject h s = true ->
  apart h (Ref lt) s ->
  In k (keys (entries_of h s)) -> isObject h (read h s k) = false ->
  deepMerge fuel h (Ref lt) [s] = Some (r, h') ->
  read h' (Ref lt) k = read h s k /\ read h' s k = read h s k.
Proof.
  intros Hok Hlt Hobj Hroot Hvs Hos Hap Hin Hleaf Hm.
  assert (Hv : valid_val (length h) (Ref lt) = true) by (apply Nat.ltb_lt, Hlt).
  destruct (deepMerge_ext fuel h (Ref lt) [s] r h' Hok Hv Hm) as [_ He].
  split.
  - destruct fuel as [|fuel]; [discriminate |]. cbn [deepMerge] in Hm.
    destruct (is_undefined s) eqn:Hu; [destruct s as [[]|]; discriminate |].
    rewrite Hobj, Hos in Hm. simpl in Hm.
    destruct (forEach _ _ h) as [h1|] eqn:Hf; cbn [mbind option_bind] in Hm;
      [| discriminate].
    destruct fuel as [|fuel']; [discriminate |]. cbn [deepMerge] in Hm.
    injection Hm as _ <-.
    eapply (forEach_read_leaf (deepMerge (S fuel')) (deepMerge_ext' (S fuel')));
      eauto.
  - unfold read. rewrite (apart_entries h h' (Ref lt) s He Hap Hvs Hos). reflexivity.
Qed.




Lemma tree_of_reach_agree (n : nat) (h h' : heap) : forall v t,
  (forall l, reach h v l -> h' !! l = h !! l) ->
  tree_of n h v = Some t -> tree_of n h' v = Some t.
Proof.
  induction n as [|n IH]; intros v t Hag; [discriminate |].
  cbn [tree_of]. destruct v as [p|l]; [auto |].
  destruct (h !! l) as [o|] eqn:Hl; [| discriminate].
  rewrite (Hag l) by (eapply reach_here, Hl). rewrite Hl.
  destruct o as [own|items|time own]; [| | auto].
  - intros Hfs.
    destruct (mapO _ own) as [fs|] eqn:Hm; simpl in *; [| discriminate].
    erewrite mapO_ext; [exact Hfs | | exact Hm].
    intros e He y. simpl.
    destruct (tree_of n h (snd e)) as [te|] eqn:Hte; simpl; [| discriminate].
    rewrite (IH _ _ (fun l' Hr => Hag l' (reach_step h l (RecObj own) (snd e) l' Hl
                                    (in_map snd own e He) Hr)) Hte).
    auto.
  - intros Hts.
    destruct (mapO _ items) as [ts|] eqn:Hm; simpl in *; [| discriminate].
    erewrite mapO_ext; [exact Hts | | exact Hm].
    intros x Hx y. apply IH. intros l' Hr. apply Hag.
    eapply reach_step; [exact Hl | exact Hx | exact Hr].
Qed.




(** ** [deepMerge]: several sources *)

Lemma deepMerge_app (ss1 : list value) : forall fuel h t ss2 r h',
  Forall (fun s => is_undefined s = false) ss1 ->
  deepMerge fuel h t (ss1 ++ ss2) = Some (r, h') ->
  exists h1,
    deepMerge fuel h t ss1 = Some (t, h1) /\
    deepMerge fuel h1 t ss2 = Some (r, h').
Proof.
  induction ss1 as [|s ss1 IH]; intros fuel h t ss2 r h' Hdef Hm.
  - exists h. split; [| exact Hm]. destruct fuel; [discriminate | reflexivity].
  - destruct fuel as [|fuel]; [discriminate |].
    inversion Hdef as [|? ? Hs Hdef']; subst.
    cbn [deepMerge app] in Hm |- *. rewrite Hs in Hm |- *.
    destruct (if isObject h t && isObject h s then _ else _) as [ha|];
      cbn [mbind option_bind] in Hm |- *; [| discriminate].
    destruct (IH fuel ha t ss2 r h' Hdef' Hm) as (h1 & H1 & H2).
    exists h1. split; [exact H1 | apply deepMerge_fuel_S, H2].
Qed.




(** ** [deepMerge] into a new record *)

Lemma keys_put_fresh (k : string) (v : value) (ps : props) :
  ~ In k (keys ps) -> keys (put k v ps) = keys ps ++ [k].
Proof.
  induction ps as [|[k0 v0] ps IH]; simpl; intros Hnot; [reflexivity |].
  destruct (String.eqb_spec k k0) as [->|Hk]; [exfalso; auto |].
  simpl. f_equal. apply IH. auto.
Qed.

Lemma forEach_app (f : heap -> string -> option heap) (ks1 ks2 : list string) :
  forall h h',
  forEach f (ks1 ++ ks2) h = Some h' ->
  exists h1, forEach f ks1 h = Some h1 /\ forEach f ks2 h1 = Some h'.
Proof.
  induction ks1 as [|k ks1 IH]; intros h h'; cbn [forEach app]; [eauto |].
  destruct (f h k) as [ha|]; cbn [mbind option_bind]; [apply IH | discriminate].
Qed.

Lemma mreach_empty (h : heap) (l l' : loc) :
  h !! l = Some (RecObj []) -> mreach h (Ref l) l' -> l' = l.
Proof.
  intros Hl Hr. inversion Hr as [? o Ho Hm | ? o k w ? Ho Hm Hin Hr']; subst;
    [reflexivity |].
  rewrite Hl in Ho. injection Ho as <-. destruct Hin.
Qed.

Lemma absorbed_stable (h h' : heap) (tv sv : value) :
  absorbed h tv sv ->
  heap_ok h = true ->
  (forall l o, h !! l = Some o -> exists o', h' !! l = Some o' /\ same_kind o o') ->
  (forall l, mreach h tv l -> h' !! l = h !! l) ->
  (forall l, mreach h sv l -> h' !! l = h !! l) ->
  absorbed h' tv sv.
Proof.
  intros Habs Hok Hkind.
  induction Habs as [lt pt ls os Hlt Hls Hm Hkeys Hleaf Hrec IH].
  intros Ht Hs.
  assert (Hlt' : h' !! lt = Some (RecObj pt)).
  { rewrite Ht; [exact Hlt |]. eapply mreach_here; eauto. }
  assert (Hls' : h' !! ls = Some os).
  { rewrite Hs; [exact Hls |]. eapply mreach_here; eauto. }
  assert (Hrd : forall j, read h' (Ref lt) j = read h (Ref lt) j).
  { intros j. apply read_lookup_eq. congruence. }
  assert (Hobj : forall j w, In (j, w) (own_props os) ->
            isObject h' w = isObject h w).
  { intros j w Hin. apply isObject_same_kind; [exact Hkind |].
    destruct (heap_ok_inv h Hok ls os Hls) as [_ Hc].
    apply Hc. eapply children_props, Hin. }
  eapply absorbed_intro; eauto.
  - intros j w Hin Hno. rewrite Hrd. apply (Hleaf j w Hin).
    rewrite <- (Hobj j w Hin). exact Hno.
  - intros j w Hin Hyes. rewrite Hrd.
    assert (Hyes0 : isObject h w = true) by (rewrite <- (Hobj j w Hin); exact Hyes).
    apply (IH j w Hin Hyes0).
    + intros l Hr. apply Ht. eapply read_mreach; [| exact Hr].
      rewrite isObject_Ref, Hlt. reflexivity.
    + intros l Hr. apply Hs. eapply mreach_step; eauto.
Qed.

(** Where only one old object changed, what was reached without passing
    through it is reached through old objects. *)
Lemma mreach_old (h h' : heap) (lt : loc) :
  heap_ok h = true ->
  (forall l, l < length h -> l <> lt -> h' !! l = h !! l) ->
  forall v l, mreach h' v l ->
    valid_val (length h) v = true -> ~ mreach h' v lt -> l < length h.
Proof.
  intros Hok Hsame v l Hr.
  induction Hr as [l o Hl Hm | l1 o k w l' Hl Hm Hin Hr IH]; intros Hv Hnot;
    simpl in Hv; apply Nat.ltb_lt in Hv; [exact Hv |].
  assert (Hne : l1 <> lt).
  { intros ->. apply Hnot. eapply mreach_here; eauto. }
  rewrite (Hsame l1 Hv Hne) in Hl.
  apply IH.
  - destruct (heap_ok_inv h Hok l1 o Hl) as [_ Hc].
    apply Hc. eapply children_props, Hin.
  - intros Hw. apply Hnot. eapply mreach_step; eauto.
    rewrite (Hsame l1 Hv Hne). exact Hl.
Qed.

Section MergeInto.
Variable merge : heap -> value -> list value -> option (value * heap).

Hypothesis merge_ext : forall h t ss r h',
  heap_ok h = true -> valid_val (length h) t = true ->
  merge h t ss = Some (r, h') -> ext h t h'.

Hypothesis merge_abs : forall h lt sv r h',
  heap_ok h = true -> h !! lt = Some (RecObj []) ->
  valid_val (length h) sv = true -> isObject h sv = true ->
  apart h (Ref lt) sv ->
  merge h (Ref lt) [sv] = Some (r, h') ->
  absorbed h' (Ref lt) sv.

Variable h0 : heap.
Variables lt ls : loc.
Variable os : object.

Hypothesis h0_ok : heap_ok h0 = true.
Hypothesis lt_empty : h0 !! lt = Some (RecObj []).
Hypothesis ls_obj : h0 !! ls = Some os.
Hypothesis os_mergeable : mergeable os = true.
Hypothesis lt_apart : apart h0 (Ref lt) (Ref ls).

Lemma into_ls_valid : valid_val (length h0) (Ref ls) = true.
Proof. apply Nat.ltb_lt. eapply lookup_lt_Some, ls_obj. Qed.

Lemma into_ls_isObject : isObject h0 (Ref ls) = true.
Proof. rewrite isObject_Ref, ls_obj. exact os_mergeable. Qed.

Lemma into_source_read (hc : heap) (key : string) :
  ext h0 (Ref lt) hc -> read hc (Ref ls) key = read h0 (Ref ls) key.
Proof.
  intros He. unfold read.
  rewrite (apart_entries h0 hc (Ref lt) (Ref ls) He lt_apart
             into_ls_valid into_ls_isObject).
  reflexivity.
Qed.

(** What was absorbed under the keys done stays so when only the target and
    new objects change. *)
Lemma into_keep (done : list string) (hc h2 : heap) :
  into_inv h0 lt ls done hc ->
  ext hc (Ref lt) h2 ->
  (forall l, l < length hc -> l <> lt -> h2 !! l = hc !! l) ->
  (forall j, In j done -> read h2 (Ref lt) j = read hc (Ref lt) j) ->
  forall j, In j done ->
    (isObject h0 (read h0 (Ref ls) j) = false ->
       read h2 (Ref lt) j = read h0 (Ref ls) j) /\
    (isObject h0 (read h0 (Ref ls) j) = true ->
       absorbed h2 (read h2 (Ref lt) j) (read h0 (Ref ls) j) /\
       exists F, read h2 (Ref lt) j = Ref F /\ length h0 <= F).
Proof.
  intros (He & _ & Hdone) He2 Hsame Hrd j Hj.
  destruct (Hdone j Hj) as [Hleaf Hrec]. rewrite (Hrd j Hj).
  split; [exact Hleaf |].
  intros Hobj. destruct (Hrec Hobj) as (Habs & F & HF & Hfresh).
  split; [| eauto].
  assert (Hlt : lt < length h0) by (eapply lookup_lt_Some, lt_empty).
  apply (absorbed_stable hc h2); [exact Habs | exact (ext_ok _ _ _ He) | | |].
  - exact (ext_kind _ _ _ He2).
  - intros l Hr. rewrite HF in Hr.
    pose proof (ext_fresh_reach _ _ _ He _ _ Hr F eq_refl Hfresh).
    apply Hsame; [eapply mreach_lt, Hr | lia].
  - intros l Hr. apply Hsame; [eapply mreach_lt, Hr |].
    intros ->.
    apply (apart_ext h0 hc (Ref lt) (Ref ls) He h0_ok into_ls_valid lt_apart lt).
    + eapply read_mreach; [| rewrite (into_source_read hc j He); exact Hr].
      rewrite (ext_isObject h0 hc _ _ He into_ls_valid). exact into_ls_isObject.
    + destruct (ext_kind _ _ _ He _ _ lt_empty) as (o' & Ho' & Hk).
      eapply mreach_here; [exact Ho' |]. destruct o'; simpl in Hk; tauto.
Qed.

Lemma mergeKey_into (done : list string) (hc : heap) (k : string) (h1 : heap) :
  into_inv h0 lt ls done hc -> ~ In k done ->
  mergeKey merge (Ref lt) (Ref ls) hc k = Some h1 ->
  into_inv h0 lt ls (done ++ [k]) h1.
Proof.
  intros Hinv Hnew Hk.
  pose proof Hinv as (He & (pc & Hpc & Hkeys) & Hdone).
  assert (Hlt : lt < length h0) by (eapply lookup_lt_Some, lt_empty).
  assert (Hltc : lt < length hc) by (pose proof (ext_len _ _ _ He); lia).
  assert (Hokc : heap_ok hc = true) by exact (ext_ok _ _ _ He).
  assert (Hvt : valid_val (length hc) (Ref lt) = true) by (apply Nat.ltb_lt, Hltc).
  assert (Hot : isObject hc (Ref lt) = true) by (rewrite isObject_Ref, Hpc; reflexivity).
  pose proof (mergeKey_ext merge merge_ext _ _ _ _ _ Hokc Hvt Hot Hk) as He1.
  assert (Hsrc : read hc (Ref ls) k = read h0 (Ref ls) k)
    by (apply into_source_read, He).
  assert (Hvw : valid_val (length h0) (read h0 (Ref ls) k) = true)
    by (apply read_valid, h0_ok).
  assert (Hobjw : isObject hc (read h0 (Ref ls) k) = isObject h0 (read h0 (Ref ls) k))
    by (apply (ext_isObject h0 hc (Ref lt)); assumption).
  assert (Habsent : read hc (Ref lt) k = Prim Undefined).
  { unfold read, entries_of. rewrite Hpc. simpl.
    assert (Hn : get k pc = None) by (apply get_None; rewrite Hkeys; exact Hnew).
    rewrite Hn. reflexivity. }
  unfold mergeKey in Hk. rewrite Hsrc, Hobjw in Hk.
  destruct (isObject h0 (read h0 (Ref ls) k)) eqn:Hobj.
  - (* a record or a date: a new record is made and merged into *)
    rewrite Habsent in Hk. cbn [truthy] in Hk.
    set (F := length hc) in *.
    set (h1' := write (hc ++ [RecObj []]) (Ref lt) k (Ref F)) in *.
    assert (He1' : ext hc (Ref lt) h1') by (apply ext_write_new, Hokc).
    assert (Hrt : read h1' (Ref lt) k = Ref F).
    { unfold h1', F. rewrite (read_write_new hc lt (RecObj pc) k k Hpc eq_refl).
      rewrite String.eqb_refl. reflexivity. }
    assert (Hrs : read h1' (Ref ls) k = read h0 (Ref ls) k).
    { apply into_source_read. eapply ext_trans; eauto. }
    rewrite Hrt, Hrs in Hk.
    destruct (merge h1' (Ref F) [read h0 (Ref ls) k]) as [[r h2]|] eqn:Hm;
      cbn [mbind option_bind] in Hk; [| discriminate].
    apply (inj Some) in Hk. simpl in Hk. subst h2.
    assert (Hlook1 : forall l, l <> lt -> h1' !! l = (hc ++ [RecObj []]) !! l).
    { intros l Hne. unfold h1'.
      rewrite (write_lookup (hc ++ [RecObj []]) lt l (RecObj pc) k (Ref F)).
      - case_decide; [contradiction | reflexivity].
      - rewrite lookup_app_l by exact Hltc. exact Hpc. }
    assert (HF : h1' !! F = Some (RecObj [])).
    { rewrite Hlook1 by (unfold F; lia). unfold F.
      rewrite lookup_app_r by lia. rewrite Nat.sub_diag. reflexivity. }
    assert (Hok1' : heap_ok h1' = true) by exact (ext_ok _ _ _ He1').
    assert (Hvw1 : valid_val (length h1') (read h0 (Ref ls) k) = true).
    { eapply ext_valid; [exact He1' |]. eapply ext_valid; eauto. }
    assert (Hapw : apart hc (Ref lt) (read h0 (Ref ls) k)).
    { apply (apart_ext h0 hc (Ref lt) _ He h0_ok Hvw).
      apply apart_read; [exact lt_apart | exact into_ls_isObject]. }
    assert (HapF : apart h1' (Ref F) (read h0 (Ref ls) k)).
    { intros l Hr HrF. apply (mreach_empty h1' F l HF) in HrF. subst l.
      apply (mreach_back hc h1' (Ref lt) He1' Hokc) in Hr.
      - apply mreach_lt in Hr. unfold F in Hr. lia.
      - eapply ext_valid; eauto.
      - exact Hapw. }
    assert (Hobj1 : isObject h1' (read h0 (Ref ls) k) = true).
    { rewrite (ext_isObject hc h1' (Ref lt)); [| exact He1' | eapply ext_valid; eauto].
      rewrite Hobjw. reflexivity. }
    pose proof (merge_abs h1' F _ r h1 Hok1' HF Hvw1 Hobj1 HapF Hm) as Habs.
    assert (He2 : ext h1' (Ref F) h1).
    { eapply merge_ext; [exact Hok1' | | exact Hm].
      apply Nat.ltb_lt. eapply lookup_lt_Some, HF. }
    assert (Hfr2 : forall l, l < length h1' -> l <> F -> h1 !! l = h1' !! l).
    { intros l Hl Hne. apply (ext_frame _ _ _ He2 l Hl).
      intros Hr. apply Hne. eapply mreach_empty; eauto. }
    assert (Hlen1 : length h1' = S (length hc)).
    { unfold h1'. rewrite length_write, length_app. simpl. lia. }
    assert (Hlt1 : h1 !! lt = h1' !! lt)
      by (apply Hfr2; [lia | unfold F; lia]).
    assert (Hlt1' : h1' !! lt = Some (RecObj (put k (Ref F) pc))).
    { unfold h1'.
      rewrite (write_lookup (hc ++ [RecObj []]) lt lt (RecObj pc) k (Ref F)).
      - case_decide; [reflexivity | congruence].
      - rewrite lookup_app_l by exact Hltc. exact Hpc. }
    assert (Hrd1 : forall j, read h1 (Ref lt) j = read h1' (Ref lt) j)
      by (intros j; apply read_lookup_eq, Hlt1).
    split; [eapply ext_trans; eauto |]. split.
    { exists (put k (Ref F) pc). split; [congruence |].
      rewrite keys_put_fresh by (rewrite Hkeys; exact Hnew). congruence. }
    intros j Hj. apply in_app_iff in Hj. destruct Hj as [Hj|[<-|[]]].
    + apply (into_keep done hc h1 Hinv He1); [| | exact Hj].
      * intros l Hl Hne. rewrite Hfr2 by (unfold F; lia).
        rewrite Hlook1 by exact Hne. apply lookup_app_l, Hl.
      * intros j' Hj'. rewrite Hrd1. unfold h1', F.
        rewrite (read_write_new hc lt (RecObj pc) k j' Hpc eq_refl).
        destruct (String.eqb_spec j' k) as [->|]; [contradiction | reflexivity].
    + rewrite Hobj. split; [discriminate |]. intros _.
      rewrite Hrd1, Hrt. split; [exact Habs |].
      exists F. split; [reflexivity |]. pose proof (ext_len _ _ _ He). unfold F. lia.
  - (* a value that is not merged into: it is assigned *)
    apply (inj Some) in Hk. subst h1.
    assert (Hlook1 : forall l, l <> lt ->
              write hc (Ref lt) k (read h0 (Ref ls) k) !! l = hc !! l).
    { intros l Hne. rewrite (write_lookup hc lt l (RecObj pc) k _ Hpc).
      case_decide; [contradiction | reflexivity]. }
    split; [eapply ext_trans; eauto |]. split.
    { exists (put k (read h0 (Ref ls) k) pc). split.
      - rewrite (write_lookup hc lt lt (RecObj pc) k _ Hpc).
        case_decide; [reflexivity | congruence].
      - rewrite keys_put_fresh by (rewrite Hkeys; exact Hnew). congruence. }
    intros j Hj. apply in_app_iff in Hj. destruct Hj as [Hj|[<-|[]]].
    + apply (into_keep done hc _ Hinv He1); [| | exact Hj].
      * intros l Hl Hne. apply Hlook1, Hne.
      * intros j' Hj'. rewrite (read_write hc lt (RecObj pc) k j' _ Hpc eq_refl).
        destruct (String.eqb_spec j' k) as [->|]; [contradiction | reflexivity].
    + rewrite Hobj. split; [| discriminate]. intros _.
      rewrite (read_write hc lt (RecObj pc) k k _ Hpc eq_refl), String.eqb_refl.
      reflexivity.
Qed.

Lemma forEach_into (ks : list string) : forall done hc h',
  List.NoDup (done ++ ks) ->
  into_inv h0 lt ls done hc ->
  forEach (mergeKey merge (Ref lt) (Ref ls)) ks hc = Some h' ->
  into_inv h0 lt ls (done ++ ks) h'.
Proof.
  induction ks as [|k ks IH]; intros done hc h' Hnd Hinv; cbn [forEach].
  - intros Heq. apply (inj Some) in Heq. subst h'. rewrite app_nil_r. exact Hinv.
  - destruct (mergeKey merge (Ref lt) (Ref ls) hc k) as [h1|] eqn:Hk;
      cbn [mbind option_bind]; [| discriminate].
    intros Hrest.
    replace (done ++ k :: ks) with ((done ++ [k]) ++ ks) in *
      by (rewrite <- app_assoc; reflexivity).
    apply (IH (done ++ [k]) h1 h' Hnd); [| exact Hrest].
    apply (mergeKey_into done hc k h1 Hinv); [| exact Hk].
    apply List.NoDup_app_remove_r in Hnd. apply List.NoDup_remove_2 in Hnd.
    rewrite app_nil_r in Hnd. exact Hnd.
Qed.
End MergeInto.

(** A run that merges a record or a date into an empty record leaves that
    record with the merged contents. *)
Lemma deepMerge_into_empty (fuel : nat) : forall h lt sv r h',
  heap_ok h = true -> h !! lt = Some (RecObj []) ->
  valid_val (length h) sv = true -> isObject h sv = true ->
  apart h (Ref lt) sv ->
  deepMerge fuel h (Ref lt) [sv] = Some (r, h') ->
  absorbed h' (Ref lt) sv.
Proof.
  induction fuel as [|fuel IH]; intros h lt sv r h' Hok Hlt Hvs Hos Hap Hm;
    [discriminate |].
  cbn [deepMerge] in Hm.
  destruct (is_undefined sv) eqn:Hu; [destruct sv as [[]|]; discriminate |].
  assert (Hot : isObject h (Ref lt) = true) by (rewrite isObject_Ref, Hlt; reflexivity).
  rewrite Hot, Hos in Hm. simpl in Hm.
  destruct (forEach _ _ h) as [h1|] eqn:Hf; cbn [mbind option_bind] in Hm;
    [| discriminate].
  destruct fuel as [|fuel']; [discriminate |].
  assert (Hh : h1 = h') by (cbn [deepMerge] in Hm; congruence). subst h1. clear Hm.
  destruct sv as [p|ls]; [rewrite isObject_Prim in Hos; discriminate |].
  simpl in Hvs. apply Nat.ltb_lt in Hvs.
  destruct (isObject_lookup h ls Hos Hvs) as (os & Hls & Hmo).
  assert (Hnd : List.NoDup (keys (own_props os))).
  { destruct (heap_ok_inv h Hok ls os Hls) as [Hk _].
    destruct os; simpl in *; [| discriminate |]; apply distinct_NoDup, Hk. }
  assert (Hinv0 : into_inv h lt ls [] h).
  { split; [apply ext_refl, Hok |]. split; [exists []; auto | intros j []]. }
  pose proof (forEach_into (deepMerge (S fuel')) (deepMerge_ext' (S fuel'))
                (IH) h lt ls os Hok Hlt Hls Hmo Hap
                (keys (own_props os)) [] h h' Hnd Hinv0) as Hinv.
  unfold entries_of in Hf. rewrite Hls in Hf. specialize (Hinv Hf).
  destruct Hinv as (He & (pc & Hpc & Hkeys) & Hdone). simpl in Hkeys.
  assert (Hls' : h' !! ls = Some os).
  { rewrite (apart_unchanged h h' (Ref lt) (Ref ls) ls He Hap); [exact Hls |].
    eapply mreach_here; eauto. }
  assert (Hrd : forall j w, In (j, w) (own_props os) -> read h (Ref ls) j = w).
  { intros j w Hin. unfold read, entries_of. rewrite Hls.
    rewrite (In_get j w _ Hnd Hin). reflexivity. }
  assert (Hobj : forall j w, In (j, w) (own_props os) ->
            isObject h' w = isObject h w).
  { intros j w Hin. apply (ext_isObject h h' (Ref lt)); [exact He |].
    destruct (heap_ok_inv h Hok ls os Hls) as [_ Hc].
    apply Hc. eapply children_props, Hin. }
  eapply absorbed_intro; eauto.
  - intros j w Hin Hno. rewrite (Hobj j w Hin) in Hno.
    assert (Hj : In j (keys (own_props os)))
      by (change j with (fst (j, w)); apply in_map, Hin).
    destruct (Hdone j Hj) as [Hleaf _]. rewrite (Hrd j w Hin) in Hleaf. auto.
  - intros j w Hin Hyes. rewrite (Hobj j w Hin) in Hyes.
    assert (Hj : In j (keys (own_props os)))
      by (change j with (fst (j, w)); apply in_map, Hin).
    destruct (Hdone j Hj) as [_ Hrec]. rewrite (Hrd j w Hin) in Hrec.
    apply Hrec, Hyes.
Qed.

(** ** [deepMerge] where the target has nothing to merge into *)

Section MergePhases.
Variable merge : heap -> value -> list value -> option (value * heap).

Hypothesis merge_ext : forall h t ss r h',
  heap_ok h = true -> valid_val (length h) t = true ->
  merge h t ss = Some (r, h') -> ext h t h'.

Hypothesis merge_abs : forall h lt sv r h',
  heap_ok h = true -> h !! lt = Some (RecObj []) ->
  valid_val (length h) sv = true -> isObject h sv = true ->
  apart h (Ref lt) sv ->
  merge h (Ref lt) [sv] = Some (r, h') ->
  absorbed h' (Ref lt) sv.

(** A step for the key [k] changes, of the old objects, the target and what
    is nested in its property [k]. *)
Lemma mergeKey_frame (lt : loc) (source : value) (h : heap) (k : string)
    (h' : heap) :
  heap_ok h = true -> lt < length h -> isObject h (Ref lt) = true ->
  mergeKey merge (Ref lt) source h k = Some h' ->
  forall l, l < length h -> l <> lt ->
    ~ mreach h (read h (Ref lt) k) l -> h' !! l = h !! l.
Proof.
  intros Hok Hlt Hobj Hk l Hl Hne Hnr.
  destruct (isObject_lookup h lt Hobj Hlt) as (o & Ho & Hm).
  unfold mergeKey in Hk. destruct (isObject h (read h source k)).
  - destruct (truthy (read h (Ref lt) k)).
    + destruct (merge h _ _) as [[r h2]|] eqn:Hmerge;
        cbn [mbind option_bind] in Hk; [| discriminate].
      apply (inj Some) in Hk. simpl in Hk. subst h2.
      assert (H2 : ext h (read h (Ref lt) k) h').
      { eapply merge_ext; [exact Hok | apply read_valid, Hok | exact Hmerge]. }
      apply (ext_frame _ _ _ H2); assumption.
    + set (h1 := write (h ++ [RecObj []]) (Ref lt) k (Ref (length h))) in *.
      assert (Ho1 : (h ++ [RecObj []]) !! lt = Some o)
        by (rewrite lookup_app_l by exact Hlt; exact Ho).
      assert (Hlook1 : forall l0, l0 <> lt -> h1 !! l0 = (h ++ [RecObj []]) !! l0).
      { intros l0 Hne0. unfold h1.
        rewrite (write_lookup _ lt l0 o k _ Ho1).
        case_decide; [contradiction | reflexivity]. }
      assert (Hrt : read h1 (Ref lt) k = Ref (length h)).
      { unfold h1. rewrite (read_write_new h lt o k k Ho Hm), String.eqb_refl.
        reflexivity. }
      rewrite Hrt in Hk.
      destruct (merge h1 _ _) as [[r h2]|] eqn:Hmerge;
        cbn [mbind option_bind] in Hk; [| discriminate].
      apply (inj Some) in Hk. simpl in Hk. subst h2.
      assert (HF : h1 !! length h = Some (RecObj [])).
      { rewrite Hlook1 by lia. rewrite lookup_app_r by lia.
        rewrite Nat.sub_diag. reflexivity. }
      assert (H1 : ext h (Ref lt) h1) by (apply ext_write_new, Hok).
      assert (H2 : ext h1 (Ref (length h)) h').
      { eapply merge_ext; [exact (ext_ok _ _ _ H1) | | exact Hmerge].
        apply Nat.ltb_lt. eapply lookup_lt_Some, HF. }
      rewrite (ext_frame _ _ _ H2).
      * rewrite Hlook1 by exact Hne. apply lookup_app_l, Hl.
      * pose proof (ext_len _ _ _ H1). lia.
      * intros Hr. apply (mreach_empty h1 _ l HF) in Hr. lia.
  - apply (inj Some) in Hk. subst h'.
    rewrite (write_lookup h lt l o k _ Ho). case_decide; [contradiction | reflexivity].
Qed.

(** The steps for keys whose target value reaches nothing in the range of
    addresses from [a] to [b] leave the objects of that range. *)
Lemma forEach_keeps (a b : nat) (lt : loc) (source : value) (ks : list string) :
  forall hc h',
  heap_ok hc = true -> lt < a -> b <= length hc ->
  isObject hc (Ref lt) = true -> rooted hc (Ref lt) ->
  (forall k, In k ks -> forall l, mreach hc (read hc (Ref lt) k) l ->
     ~ (a <= l < b)) ->
  List.NoDup ks ->
  forEach (mergeKey merge (Ref lt) source) ks hc = Some h' ->
  forall l, a <= l < b -> h' !! l = hc !! l.
Proof.
  induction ks as [|k ks IH]; intros hc h' Hok Hlt Hb Hobj Hroot Hout Hnd;
    cbn [forEach].
  - intros Heq. apply (inj Some) in Heq. subst h'. reflexivity.
  - destruct (mergeKey merge (Ref lt) source hc k) as [h1|] eqn:Hk;
      cbn [mbind option_bind]; [| discriminate].
    intros Hrest l Hl.
    inversion Hnd as [|? ? Hnotin Hnd']; subst.
    assert (Hltc : lt < length hc) by lia.
    assert (Hv : valid_val (length hc) (Ref lt) = true) by (apply Nat.ltb_lt, Hltc).
    pose proof (mergeKey_ext merge merge_ext _ _ _ _ _ Hok Hv Hobj Hk) as H1.
    rewrite (IH h1 h'); [| exact (ext_ok _ _ _ H1) | exact Hlt | | | | | exact Hnd'
                         | exact Hrest | exact Hl].
    + apply (mergeKey_frame lt source hc k h1 Hok Hltc Hobj Hk); [lia | lia |].
      intros Hr. apply (Hout k (or_introl eq_refl) l Hr Hl).
    + pose proof (ext_len _ _ _ H1). lia.
    + rewrite (ext_isObject hc h1 _ _ H1 Hv). exact Hobj.
    + eapply rooted_ext; eauto.
    + intros k' Hk' l' Hr Hl'.
      rewrite (mergeKey_read_other merge merge_ext lt source hc k k' h1
                 Hok Hltc Hobj Hroot) in Hr;
        [| intros ->; contradiction | exact Hk].
      destruct (ext_mreach _ _ _ H1 _ _ Hr) as [Hr0|Hfresh]; [| lia].
      apply (Hout k' (or_intror Hk') l' Hr0 Hl').
Qed.

(** The step for a key under which the source holds a record or a date and
    the target nothing truthy: the target gets a new record that absorbs the
    value of the source. *)
Lemma mergeKey_new (lt : loc) (source : value) (h : heap) (k : string)
    (h' : heap) :
  heap_ok h = true -> lt < length h -> isObject h (Ref lt) = true ->
  valid_val (length h) source = true -> isObject h source = true ->
  apart h (Ref lt) source ->
  isObject h (read h source k) = true ->
  truthy (read h (Ref lt) k) = false ->
  mergeKey merge (Ref lt) source h k = Some h' ->
  read h' (Ref lt) k = Ref (length h) /\
  absorbed h' (Ref (length h)) (read h source k) /\
  (forall l, l < length h -> l <> lt -> h' !! l = h !! l).
Proof.
  intros Hok Hlt Hobj Hvs Hos Hap Hsrc Hfalsy Hk.
  destruct (isObject_lookup h lt Hobj Hlt) as (o & Ho & Hm).
  split; [| split].
  3:{ intros l Hl Hne.
      apply (mergeKey_frame lt source h k h' Hok Hlt Hobj Hk l Hl Hne).
      intros Hr. destruct (read h (Ref lt) k); [inversion Hr | discriminate]. }
  all: unfold mergeKey in Hk; rewrite Hsrc, Hfalsy in Hk.
  all: set (h1 := write (h ++ [RecObj []]) (Ref lt) k (Ref (length h))) in *.
  all: assert (H1 : ext h (Ref lt) h1) by (apply ext_write_new, Hok).
  all: assert (Ho1 : (h ++ [RecObj []]) !! lt = Some o)
         by (rewrite lookup_app_l by exact Hlt; exact Ho).
  all: assert (Hlook1 : forall l0, l0 <> lt -> h1 !! l0 = (h ++ [RecObj []]) !! l0)
         by (intros l0 Hne0; unfold h1; rewrite (write_lookup _ lt l0 o k _ Ho1);
             case_decide; [contradiction | reflexivity]).
  all: assert (Hrt : read h1 (Ref lt) k = Ref (length h))
         by (unfold h1; rewrite (read_write_new h lt o k k Ho Hm), String.eqb_refl;
             reflexivity).
  all: assert (Hrs : read h1 source k = read h source k)
         by (unfold read; rewrite (apart_entries h h1 (Ref lt) source H1 Hap Hvs Hos);
             reflexivity).
  all: rewrite Hrt, Hrs in Hk.
  all: destruct (merge h1 _ _) as [[r h2]|] eqn:Hmerge;
         cbn [mbind option_bind] in Hk; [| discriminate].
  all: apply (inj Some) in Hk; simpl in Hk; subst h2.
  all: assert (HF : h1 !! length h = Some (RecObj []))
         by (rewrite Hlook1 by lia; rewrite lookup_app_r by lia;
             rewrite Nat.sub_diag; reflexivity).
  - assert (H2 : ext h1 (Ref (length h)) h').
    { eapply merge_ext; [exact (ext_ok _ _ _ H1) | | exact Hmerge].
      apply Nat.ltb_lt. eapply lookup_lt_Some, HF. }
    rewrite <- Hrt. apply read_lookup_eq. apply (ext_frame _ _ _ H2).
    + pose proof (ext_len _ _ _ H1). lia.
    + intros Hr. apply (mreach_empty h1 _ lt HF) in Hr. lia.
  - assert (Hvw : valid_val (length h) (read h source k) = true)
      by (apply read_valid, Hok).
    eapply (merge_abs h1 (length h) _ r h'); [exact (ext_ok _ _ _ H1) | exact HF | | | |
                                              exact Hmerge].
    + eapply ext_valid; eauto.
    + rewrite (ext_isObject h h1 _ _ H1 Hvw). exact Hsrc.
    + intros l Hr HrF. apply (mreach_empty h1 _ l HF) in HrF. subst l.
      apply (mreach_back h h1 (Ref lt) H1 Hok) in Hr.
      * apply mreach_lt in Hr. lia.
      * exact Hvw.
      * apply apart_read; assumption.
Qed.
End MergePhases.

Lemma NoDup_split_key (k : string) (pre post : list string) :
  List.NoDup (pre ++ k :: post) ->
  ~ In k pre /\ ~ In k post /\ List.NoDup post.
Proof.
  intros Hnd. pose proof (List.NoDup_remove_2 _ _ _ Hnd) as Hnot.
  rewrite in_app_iff in Hnot.
  apply List.NoDup_app_remove_l in Hnd. inversion Hnd; subst. tauto.
Qed.

(** One source, a key under which it holds a record or a date.  Where the
    target holds nothing truthy it gets a new record with the merged
    contents; where it holds a truthy value that is not merged into, that
    value stays. *)
Lemma deepMerge_read_record (fuel : nat) (h : heap) (lt ls : loc)
    (ot os : object) (k0 : string) (w0 r : value) (h' : heap) :
  heap_ok h = true ->
  h !! lt = Some ot -> mergeable ot = true -> rooted h (Ref lt) ->
  h !! ls = Some os -> mergeable os = true -> apart h (Ref lt) (Ref ls) ->
  get k0 (own_props os) = Some w0 -> isObject h w0 = true ->
  deepMerge fuel h (Ref lt) [Ref ls] = Some (r, h') ->
  (truthy (read h (Ref lt) k0) = false ->
     exists F, read h' (Ref lt) k0 = Ref F /\ length h <= F /\
               absorbed h' (Ref F) w0) /\
  (truthy (read h (Ref lt) k0) = true ->
   isObject h (read h (Ref lt) k0) = false ->
     read h' (Ref lt) k0 = read h (Ref lt) k0).
Proof.
  intros Hok Hlt Hmt Hroot Hls Hms Hap Hget Hw0 Hm.
  assert (Hltl : lt < length h) by (eapply lookup_lt_Some, Hlt).
  assert (Hvt : valid_val (length h) (Ref lt) = true) by (apply Nat.ltb_lt, Hltl).
  assert (Hvs : valid_val (length h) (Ref ls) = true)
    by (apply Nat.ltb_lt; eapply lookup_lt_Some, Hls).
  assert (Hot : isObject h (Ref lt) = true) by (rewrite isObject_Ref, Hlt; exact Hmt).
  assert (Hos : isObject h (Ref ls) = true) by (rewrite isObject_Ref, Hls; exact Hms).
  assert (Hrd0 : read h (Ref ls) k0 = w0).
  { unfold read, entries_of. rewrite Hls, Hget. reflexivity. }
  assert (Hvw : valid_val (length h) w0 = true)
    by (rewrite <- Hrd0; apply read_valid, Hok).
  assert (Hapw : apart h (Ref lt) w0)
    by (rewrite <- Hrd0; apply apart_read; assumption).
  destruct fuel as [|fuel]; [discriminate |]. cbn [deepMerge] in Hm.
  cbn [is_undefined] in Hm. rewrite Hot, Hos in Hm. simpl in Hm.
  destruct (forEach _ _ h) as [h1|] eqn:Hf; cbn [mbind option_bind] in Hm;
    [| discriminate].
  destruct fuel as [|fuel']; [discriminate |].
  assert (Hh : h1 = h') by (cbn [deepMerge] in Hm; congruence). subst h1. clear Hm.
  set (merge := deepMerge (S fuel')) in *.
  pose proof (deepMerge_ext' (S fuel')) as Mext.
  pose proof (deepMerge_into_empty (S fuel')) as Mabs.
  fold merge in Mext, Mabs.
  unfold entries_of in Hf. rewrite Hls in Hf.
  assert (Hnd : List.NoDup (keys (own_props os))).
  { destruct (heap_ok_inv h Hok ls os Hls) as [Hk _].
    destruct os; simpl in *; [| discriminate |]; apply distinct_NoDup, Hk. }
  destruct (in_split k0 (keys (own_props os)) (get_Some_key _ _ _ Hget))
    as (pre & post & Hsplit).
  rewrite Hsplit in Hf, Hnd.
  destruct (NoDup_split_key k0 pre post Hnd) as (Hpre & Hpost & Hndpost).
  destruct (forEach_app _ pre (k0 :: post) h h' Hf) as (ha & Hfa & Hfb).
  cbn [forEach] in Hfb.
  destruct (mergeKey merge (Ref lt) (Ref ls) ha k0) as [hb|] eqn:Hk;
    cbn [mbind option_bind] in Hfb; [| discriminate].
  (* the keys before [k0] *)
  pose proof (forEach_ext merge Mext (Ref lt) (Ref ls) pre h ha Hok Hvt Hot Hfa) as Hea.
  assert (Hoka : heap_ok ha = true) by exact (ext_ok _ _ _ Hea).
  assert (Hlta : lt < length ha) by (pose proof (ext_len _ _ _ Hea); lia).
  assert (Hvta : valid_val (length ha) (Ref lt) = true) by (apply Nat.ltb_lt, Hlta).
  assert (Hota : isObject ha (Ref lt) = true)
    by (rewrite (ext_isObject h ha _ _ Hea Hvt); exact Hot).
  assert (Hroota : rooted ha (Ref lt)) by (eapply rooted_ext; eauto).
  assert (Hrta : read ha (Ref lt) k0 = read h (Ref lt) k0)
    by (apply (forEach_read_other merge Mext lt (Ref ls) k0 pre h ha); assumption).
  assert (Hrsa : read ha (Ref ls) k0 = w0).
  { unfold read. rewrite (apart_entries h ha (Ref lt) (Ref ls) Hea Hap Hvs Hos).
    exact Hrd0. }
  assert (Hw0a : isObject ha w0 = true)
    by (rewrite (ext_isObject h ha _ _ Hea Hvw); exact Hw0).
  (* the key [k0] and the keys after it *)
  pose proof (mergeKey_ext merge Mext _ _ _ _ _ Hoka Hvta Hota Hk) as Heb.
  assert (Hokb : heap_ok hb = true) by exact (ext_ok _ _ _ Heb).
  assert (Hltb : lt < length hb) by (pose proof (ext_len _ _ _ Heb); lia).
  assert (Hvtb : valid_val (length hb) (Ref lt) = true) by (apply Nat.ltb_lt, Hltb).
  assert (Hotb : isObject hb (Ref lt) = true)
    by (rewrite (ext_isObject ha hb _ _ Heb Hvta); exact Hota).
  assert (Hrootb : rooted hb (Ref lt)) by (eapply rooted_ext; eauto).
  assert (Hrtb : read h' (Ref lt) k0 = read hb (Ref lt) k0)
    by (apply (forEach_read_other merge Mext lt (Ref ls) k0 post hb h'); assumption).
  pose proof (forEach_ext merge Mext (Ref lt) (Ref ls) post hb h' Hokb Hvtb Hotb Hfb)
    as Hec.
  assert (Heab : ext h (Ref lt) hb) by (eapply ext_trans; eauto).
  split.
  - intros Hfalsy. rewrite <- Hrta in Hfalsy.
    destruct (mergeKey_new merge Mext Mabs lt (Ref ls) ha k0 hb)
      as (HF & Habs & Hsame); try assumption.
    + eapply ext_valid; eauto.
    + rewrite (ext_isObject h ha _ _ Hea Hvs). exact Hos.
    + apply (apart_ext h ha (Ref lt) (Ref ls) Hea Hok Hvs Hap).
    + rewrite Hrsa. exact Hw0a.
    + rewrite Hrsa in Habs.
      exists (length ha). split; [congruence |].
      split; [exact (ext_len _ _ _ Hea) |].
      apply (absorbed_stable hb h'); [exact Habs | exact Hokb | exact (ext_kind _ _ _ Hec) | |].
      * intros l Hr.
        assert (Hge : length ha <= l)
          by (eapply (ext_fresh_reach ha hb (Ref lt) Heb); eauto).
        apply (forEach_keeps merge Mext (length ha) (length hb) lt (Ref ls) post hb h');
          try assumption; [lia | | split; [exact Hge | eapply mreach_lt, Hr]].
        intros k' Hk' l' Hr' Hl'.
        assert (Hne : k' <> k0) by (intros ->; contradiction).
        rewrite (mergeKey_read_other merge Mext lt (Ref ls) ha k0 k' hb
                   Hoka Hlta Hota Hroota Hne Hk) in Hr'.
        assert (Hold : l' < length ha); [| lia].
        apply (mreach_old ha hb lt Hoka Hsame _ _ Hr'); [apply read_valid, Hoka |].
        rewrite <- (mergeKey_read_other merge Mext lt (Ref ls) ha k0 k' hb
                      Hoka Hlta Hota Hroota Hne Hk).
        apply rooted_read, Hrootb.
      * intros l Hr.
        apply (apart_unchanged hb h' (Ref lt) w0 l Hec); [| exact Hr].
        apply (apart_ext h hb (Ref lt) w0 Heab Hok Hvw Hapw).
  - intros Htruthy Hblock. rewrite Hrtb, <- Hrta.
    apply read_lookup_eq.
    unfold mergeKey in Hk. rewrite Hrsa, Hw0a, Hrta, Htruthy in Hk.
    destruct (merge ha _ _) as [[r0 h2]|] eqn:Hmerge;
      cbn [mbind option_bind] in Hk; [| discriminate].
    apply (inj Some) in Hk. simpl in Hk. subst h2.
    assert (H2 : ext ha (read ha (Ref lt) k0) hb).
    { eapply Mext; [exact Hoka | apply read_valid, Hoka | exact Hmerge]. }
    apply (ext_frame _ _ _ H2 lt Hlta).
    intros Hr. apply mreach_isObject in Hr.
    rewrite Hrta in Hr.
    rewrite (ext_isObject h ha (Ref lt)) in Hr; [congruence | exact Hea |].
    apply read_valid, Hok.
Qed.




(** * Further properties of [pick], [omit] and [fromEntries] *)

Lemma filter_key_keys (f : string -> bool) (ps : props) :
  keys (List.filter (fun e => f (fst e)) ps) = List.filter f (keys ps).
Proof.
  induction ps as [|[k v] ps IH]; simpl; [reflexivity |].
  destruct (f k); simpl; rewrite IH; reflexivity.
Qed.

Lemma fromEntries_distinct (es : props) :
  List.NoDup (keys es) -> fromEntries es = es.
Proof. intros Hnd. unfold fromEntries. apply (fold_put_fresh es []). exact Hnd. Qed.



Lemma omit_filter (r : props) (ks : list string) :
  List.NoDup (keys r) ->
  omit (RecObj r) ks
  = List.filter (fun e : string * value => negb (includes ks (fst e))) r.
Proof.
  intros Hnd. unfold omit, Object_fromEntries. simpl.
  apply (fold_put_fresh _ []). simpl. apply NoDup_filter_keys, Hnd.
Qed.

(** [omit] keeps the entries it does not drop in the order they have in the
    record: the result is the entries of [r] filtered by the keys.  With no
    keys to drop it is a copy of all entries. *)
Theorem omit_is_filter (r : props) (ks : list string) :
  List.NoDup (keys r) ->
  omit (RecObj r) ks
  = List.filter (fun e : string * value => negb (includes ks (fst e))) r /\
  omit (RecObj r) [] = r /\
  omit (RecObj r) (keys r) = [].
Proof.
  intros Hnd.
  assert (Hgen : forall ks', omit (RecObj r) ks' =
            List.filter (fun e : string * value => negb (includes ks' (fst e))) r)
    by (intros ks'; apply omit_filter, Hnd).
  split; [apply Hgen |]. split.
  - rewrite Hgen. simpl. clear. induction r as [|e r IH]; simpl; [| rewrite IH]; reflexivity.
  - rewrite Hgen. clear Hgen Hnd.
    assert (H : forall l : props, (forall e, In e l -> In (fst e) (keys r)) ->
              List.filter (fun e => negb (includes (keys r) (fst e))) l = []).
    { induction l as [|e l IH]; simpl; intros Hin; [reflexivity |].
      assert (Hinc : includes (keys r) (fst e) = true)
        by (apply includes_In, Hin; left; reflexivity).
      rewrite Hinc. simpl. apply IH. intros e' He'. apply Hin. right. exact He'. }
    apply H. intros e He. apply in_map, He.
Qed.

Lemma omit_is_filter_witness :
  let r := [("a", Prim (Num 1)); ("b", Ref 0); ("c", Prim (Str "x"))] in
  omit (RecObj r) ["b"; "zz"] = [("a", Prim (Num 1)); ("c", Prim (Str "x"))] /\
  omit (RecObj r) [] = r.
Proof.
  intros r.
  destruct (omit_is_filter r ["b"; "zz"]) as (H1 & H2 & _).
  - repeat constructor; simpl; intuition discriminate.
  - split; [rewrite H1; reflexivity | exact H2].
Defined.

Lemma pick_fold_fresh (obj : object) (ks : list string) : forall acc,
  List.NoDup (keys acc ++ ks) ->
  fold_left
    (fun a key => if key_in key obj then put key (prop obj key) a else a) ks acc
  = acc ++ map (fun k => (k, prop obj k))
             (List.filter (fun k => key_in k obj) ks).
Proof.
  induction ks as [|k ks IH]; intros acc Hnd; simpl.
  - rewrite app_nil_r. reflexivity.
  - assert (Hk : ~ In k (keys acc)).
    { apply List.NoDup_remove_2 in Hnd. intros Hin. apply Hnd.
      apply in_or_app. left. exact Hin. }
    destruct (key_in k obj); simpl.
    + assert (Hput : put k (prop obj k) acc = acc ++ [(k, prop obj k)]).
      { clear -Hk. induction acc as [|[k0 v0] acc IHa]; simpl; [reflexivity |].
        destruct (String.eqb_spec k k0) as [->|Hne]; [exfalso; apply Hk; left; reflexivity |].
        f_equal. apply IHa. intros Hin. apply Hk. right. exact Hin. }
      rewrite Hput, IH.
      * rewrite <- app_assoc. reflexivity.
      * unfold keys. rewrite map_app. simpl. rewrite <- app_assoc. exact Hnd.
    + apply IH. apply List.NoDup_remove_1 in Hnd. exact Hnd.
Qed.



Lemma includes_app (ks1 ks2 : list string) (k : string) :
  includes (ks1 ++ ks2) k = includes ks1 k || includes ks2 k.
Proof. unfold includes. apply existsb_app. Qed.



(** * Further properties of [flattenObject] *)

Lemma leaf_at_nonempty (h : heap) (obj : value) (p : list string) (v : value) :
  leaf_at h obj p v -> p <> [].
Proof. intros Hl. destruct Hl; discriminate. Qed.

Lemma render_extends (p : list string) : forall prefix,
  prefix <> "" -> p <> [] ->
  exists rest, render prefix p = prefix +:+ "." +:+ rest.
Proof.
  induction p as [|k p IH]; intros prefix Hpre Hp; [congruence |].
  cbn [render]. rewrite dotted_nonempty by exact Hpre.
  destruct p as [|k' p].
  - exists k. cbn [render]. apply append_assoc.
  - destruct (IH ((prefix +:+ ".") +:+ k)) as [rest Hrest]; [| discriminate |].
    + destruct prefix; [congruence | discriminate].
    + exists (k +:+ "." +:+ rest). rewrite Hrest. rewrite !append_assoc. reflexivity.
Qed.

(** Every key of [flattenObject(obj, prefix)], for a prefix that is not
    empty, starts with the prefix and a dot. *)
Theorem flattenObject_prefixed (fuel : nat) (h : heap) (obj : value)
    (prefix : string) (out : props) :
  prefix <> "" ->
  flattenObject fuel h obj prefix = Some out ->
  forall key, In key (keys out) -> exists rest, key = prefix +:+ "." +:+ rest.
Proof.
  intros Hpre Hout key Hin.
  apply In_keys_get in Hin. destruct Hin as [v Hv]. apply get_In in Hv.
  destruct (flattenObject_sound fuel h obj prefix out Hout key v Hv) as (p & Hp & ->).
  apply render_extends; [exact Hpre | eapply leaf_at_nonempty, Hp].
Qed.

Lemma flattenObject_prefixed_witness :
  let h := [RecObj [("b", Ref 1); ("n", Prim (Num 7))]; RecObj [("c", Prim Null)]] in
  flattenObject 2 h (Ref 0) "a" = Some [("a.b.c", Prim Null); ("a.n", Prim (Num 7))] /\
  forall key, In key ["a.b.c"; "a.n"] -> exists rest, key = "a" +:+ "." +:+ rest.
Proof.
  intros h. split; [reflexivity |].
  apply (flattenObject_prefixed 2 h (Ref 0) "a"
           [("a.b.c", Prim Null); ("a.n", Prim (Num 7))]);
    [discriminate | reflexivity].
Defined.

Lemma NoDup_Object_assign (acc src : props) :
  List.NoDup (keys acc) -> List.NoDup (keys (Object_assign acc src)).
Proof. apply NoDup_fold_put. Qed.

Lemma flattenObject_NoDup (fuel : nat) (h : heap) (obj : value)
    (prefix : string) (out : props) :
  flattenObject fuel h obj prefix = Some out -> List.NoDup (keys out).
Proof.
  destruct fuel as [|fuel]; [discriminate |]. cbn [flattenObject].
  assert (Hred : forall ks acc, List.NoDup (keys acc) ->
    reduce (flattenKey (flattenObject fuel h) h obj prefix) ks acc = Some out ->
    List.NoDup (keys out)).
  { induction ks as [|k ks IH]; cbn [reduce]; intros acc Hnd Hr.
    - apply (inj Some) in Hr. subst. exact Hnd.
    - destruct (flattenKey _ h obj prefix acc k) as [acc'|] eqn:Hk;
        cbn [mbind option_bind] in Hr; [| discriminate].
      apply (IH acc'); [| exact Hr].
      unfold flattenKey in Hk. destruct (_ && _).
      + destruct (flattenObject fuel h _ _) as [sub|];
          cbn [mbind option_bind] in Hk; [| discriminate].
        apply (inj Some) in Hk. subst. apply NoDup_Object_assign, Hnd.
      + apply (inj Some) in Hk. subst. apply NoDup_put, Hnd. }
  apply Hred. constructor.
Qed.

Lemma reduce_flat (flatten : value -> string -> option props) (h : heap)
    (obj : value) (ks : list string) : forall acc,
  (forall k, In k ks -> isObject h (read h obj k) = false) ->
  reduce (flattenKey flatten h obj "") ks acc =
  Some (fold_left (fun a k => put k (read h obj k) a) ks acc).
Proof.
  induction ks as [|k ks IH]; intros acc Hleaf; cbn [reduce fold_left];
    [reflexivity |].
  assert (Hk : flattenKey flatten h obj "" acc k = Some (put k (read h obj k) acc)).
  { unfold flattenKey. rewrite flatten_test, (Hleaf k (or_introl eq_refl)).
    reflexivity. }
  rewrite Hk. cbn [mbind option_bind]. apply IH.
  intros k' Hk'. apply Hleaf. right. exact Hk'.
Qed.

Lemma fold_put_reads (h : heap) (obj : value) (own : props) :
  entries_of h obj = own -> List.NoDup (keys own) ->
  forall (es acc : props), incl es own ->
  fold_left (fun a k => put k (read h obj k) a) (keys es) acc =
  fold_left (fun a e => put (fst e) (snd e) a) es acc.
Proof.
  intros Hent Hnd. induction es as [|[k v] es IH]; intros acc Hincl; simpl;
    [reflexivity |].
  assert (Hrd : read h obj k = v).
  { unfold read. rewrite Hent.
    rewrite (In_get k v own Hnd (Hincl _ (or_introl eq_refl))). reflexivity. }
  rewrite Hrd. apply IH. intros e He. apply Hincl. right. exact He.
Qed.

Lemma flattenObject_leaf_record (fuel : nat) (h : heap) (r : loc) (own : props) :
  h !! r = Some (RecObj own) ->
  List.NoDup (keys own) ->
  (forall k v, In (k, v) own -> isObject h v = false) ->
  flattenObject (S fuel) h (Ref r) "" = Some own.
Proof.
  intros Hr Hnd Hleaf. cbn [flattenObject].
  assert (Hent : entries_of h (Ref r) = own) by (simpl; rewrite Hr; reflexivity).
  rewrite Hent. rewrite reduce_flat.
  - f_equal. rewrite (fold_put_reads h (Ref r) own Hent Hnd own [] (fun e He => He)).
    apply (fold_put_fresh own []). exact Hnd.
  - intros k Hk. apply In_keys_get in Hk. destruct Hk as [v Hv].
    unfold read. rewrite Hent, Hv. simpl. apply (Hleaf k v). apply get_In, Hv.
Qed.



(** Flattening is idempotent: the record made of a result of
    [flattenObject] flattens to itself. *)
Theorem flattenObject_idempotent (fuel : nat) (h : heap) (obj : value)
    (prefix : string) (out : props) :
  flattenObject fuel h obj prefix = Some out ->
  flattenObject 1 (h ++ [RecObj out]) (Ref (length h)) "" = Some out.
Proof.
  intros Hout. apply flattenObject_leaf_record.
  - rewrite lookup_app_r by lia. rewrite Nat.sub_diag. reflexivity.
  - eapply flattenObject_NoDup, Hout.
  - intros k v Hin.
    destruct (flattenObject_sound fuel h obj prefix out Hout k v Hin) as (p & Hp & _).
    assert (Hno : isObject h v = false) by (clear -Hp; induction Hp; assumption).
    destruct v as [pv|l]; [apply isObject_Prim |].
    rewrite isObject_Ref in Hno |- *.
    destruct (h !! l) as [o|] eqn:Hl; [| discriminate].
    rewrite lookup_app_l by (eapply lookup_lt_Some, Hl). rewrite Hl. exact Hno.
Qed.

Lemma flattenObject_idempotent_witness :
  let h := [RecObj [("a", Ref 1)]; RecObj [("b", Ref 2); ("c", Prim Null)];
            ArrObj [Prim (Num 1)]] in
  let out := [("a.b", Ref 2); ("a.c", Prim Null)] in
  flattenObject 2 h (Ref 0) "" = Some out /\
  flattenObject 1 (h ++ [RecObj out]) (Ref 3) "" = Some out.
Proof.
  intros h out. split; [reflexivity |].
  apply (flattenObject_idempotent 2 h (Ref 0) "" out). reflexivity.
Defined.

(** * Further properties of [deepClone] *)

Lemma mapH_appends {A B : Type} (f : heap -> A -> option (B * heap))
    (xs : list A) :
  (forall h x r, f h x = Some r -> exists new, snd r = h ++ new) ->
  forall h r, mapH f xs h = Some r -> exists new, snd r = h ++ new.
Proof.
  intros Hf. induction xs as [|x xs IH]; intros h r; cbn [mapH].
  - intros Heq. apply (inj Some) in Heq. subst. exists []. symmetry. apply app_nil_r.
  - destruct (f h x) as [r1|] eqn:H1; cbn [mbind option_bind]; [| discriminate].
    destruct (mapH f xs (snd r1)) as [rs|] eqn:H2; cbn [mbind option_bind];
      [| discriminate].
    intros Heq. apply (inj Some) in Heq. subst. simpl.
    destruct (Hf _ _ _ H1) as [new1 E1]. destruct (IH _ _ H2) as [new2 E2].
    exists (new1 ++ new2). rewrite E2, E1. symmetry. apply app_assoc.
Qed.

(** [deepClone] only adds objects at the end of the store. *)
Lemma deepClone_appends (n : nat) : forall h v r,
  deepClone n h v = Some r -> exists new, snd r = h ++ new.
Proof.
  induction n as [|n IH]; intros h v r; [discriminate |].
  cbn [deepClone]. destruct v as [p|l].
  { intros Heq. apply (inj Some) in Heq. subst. exists []. symmetry. apply app_nil_r. }
  destruct (h !! l) as [[own|items|time own]|]; [| | | discriminate].
  - destruct (mapH _ own h) as [rs|] eqn:Hm; cbn [mbind option_bind]; [| discriminate].
    intros Heq. apply (inj Some) in Heq. subst. simpl.
    assert (Hf : forall h0 (e : string * value) (r0 : (string * value) * heap),
               (c ← deepClone n h0 (snd e); Some ((fst e, fst c), snd c)) = Some r0 ->
               exists new, snd r0 = h0 ++ new).
    { intros h0 e r0. destruct (deepClone n h0 (snd e)) as [c|] eqn:Hc;
        cbn [mbind option_bind]; [| discriminate].
      intros Heq. apply (inj Some) in Heq. subst. simpl. eapply IH, Hc. }
    destruct (mapH_appends _ own Hf h rs Hm) as [new E].
    eexists. rewrite E. symmetry. apply app_assoc.
  - destruct (mapH _ items h) as [rs|] eqn:Hm; cbn [mbind option_bind]; [| discriminate].
    intros Heq. apply (inj Some) in Heq. subst. simpl.
    destruct (mapH_appends _ items IH h rs Hm) as [new E].
    eexists. rewrite E. symmetry. apply app_assoc.
  - intros Heq. apply (inj Some) in Heq. subst. simpl. eauto.
Qed.

Lemma closed_children (h : heap) (l : loc) (o : object) (w : value) :
  closed h = true -> h !! l = Some o -> In w (children o) ->
  valid_val (length h) w = true.
Proof.
  unfold closed. rewrite forallb_forall. intros Hc Hl Hw.
  assert (Hin : In o h) by (apply list_elem_of_In; eapply list_elem_of_lookup_2, Hl).
  specialize (Hc o Hin). rewrite forallb_forall in Hc. auto.
Qed.

Lemma clone_children_children (o : object) (w : value) :
  In w (clone_children o) -> In w (children o).
Proof. destruct o; simpl; auto. intros []. Qed.

Section CloneBack.
Context {A T : Type}.
Variable f : heap -> A -> option (A * heap).
Variable g : A -> option T.
Variable h : heap.

Lemma mapH_back (xs : list A) :
  (forall new x r, In x xs -> f (h ++ new) x = Some r ->
     (exists t, g x = Some t) /\ exists new', snd r = (h ++ new) ++ new') ->
  forall new r, mapH f xs (h ++ new) = Some r -> exists ts, mapO g xs = Some ts.
Proof.
  induction xs as [|x xs IH]; intros Hf new r; cbn [mapH mapO]; [eauto |].
  destruct (f (h ++ new) x) as [r1|] eqn:H1; cbn [mbind option_bind]; [| discriminate].
  destruct (Hf new x r1 (or_introl eq_refl) H1) as ([t Ht] & new' & E).
  rewrite E, <- app_assoc.
  destruct (mapH f xs (h ++ new ++ new')) as [rs|] eqn:H2;
    cbn [mbind option_bind]; [| discriminate].
  intros _. rewrite Ht. cbn [mbind option_bind].
  destruct (IH (fun new0 x0 r0 Hin => Hf new0 x0 r0 (or_intror Hin)) _ _ H2)
    as [ts Hts].
  rewrite Hts. cbn [mbind option_bind]. eauto.
Qed.
End CloneBack.

(** A clone that returns was made of a value that unfolds to a tree. *)
Lemma deepClone_tree (h : heap) (n : nat) :
  closed h = true ->
  forall new v r, valid_val (length h) v = true ->
    deepClone n (h ++ new) v = Some r -> exists t, tree_of n h v = Some t.
Proof.
  intros Hc. induction n as [|n IH]; intros new v r Hv; [discriminate |].
  cbn [deepClone tree_of]. destruct v as [p|l]; [eauto |].
  simpl in Hv. apply Nat.ltb_lt in Hv.
  rewrite lookup_app_l by exact Hv.
  destruct (h !! l) as [[own|items|time own]|] eqn:Hl; [| | eauto | discriminate].
  - destruct (mapH _ own (h ++ new)) as [rs|] eqn:Hm; cbn [mbind option_bind];
      [| discriminate].
    intros _.
    destruct (mapH_back
                (fun (h0 : heap) (e : string * value) =>
                   c ← deepClone n h0 (snd e); Some ((fst e, fst c), snd c))
                (fun e : string * value => t ← tree_of n h (snd e); Some (fst e, t))
                h own) with (new := new) (r := rs) as [fs Hfs]; [| exact Hm |].
    + intros new0 e r0 Hin.
      destruct (deepClone n (h ++ new0) (snd e)) as [c|] eqn:Hcl;
        cbn [mbind option_bind]; [| discriminate].
      intros Heq. apply (inj Some) in Heq. subst. simpl.
      destruct (IH new0 (snd e) c) as [t Ht]; [| exact Hcl |].
      * apply (closed_children h l (RecObj own) _ Hc Hl). simpl. apply in_map, Hin.
      * split; [rewrite Ht; simpl; eauto | eapply deepClone_appends, Hcl].
    + rewrite Hfs. simpl. eauto.
  - destruct (mapH _ items (h ++ new)) as [rs|] eqn:Hm; cbn [mbind option_bind];
      [| discriminate].
    intros _.
    destruct (mapH_back (deepClone n) (tree_of n h) h items)
      with (new := new) (r := rs) as [ts Hts]; [| exact Hm |].
    + intros new0 x r0 Hin Hcl. split.
      * apply (IH new0 x r0); [| exact Hcl].
        apply (closed_children h l (ArrObj items) _ Hc Hl). exact Hin.
      * eapply deepClone_appends, Hcl.
    + rewrite Hts. simpl. eauto.
Qed.

(** [deepClone] returns exactly for the values that are finite and acyclic:
    with [n] units of fuel it returns if and only if the value unfolds to a
    tree within depth [n]. *)
Theorem deepClone_returns_iff (n : nat) (h : heap) (v : value) :
  heap_ok h = true -> valid_val (length h) v = true ->
  (exists r, deepClone n h v = Some r) <-> (exists t, tree_of n h v = Some t).
Proof.
  intros Hok Hv. unfold heap_ok in Hok. apply andb_true_iff in Hok.
  destruct Hok as [Hk Hc]. split.
  - intros [r Hr]. apply (deepClone_tree h n Hc [] v r Hv).
    rewrite app_nil_r. exact Hr.
  - intros [t Ht]. destruct (deepClone_spec n h v t Hk Ht) as (v' & h' & Hcl & _).
    eauto.
Qed.

Lemma deepClone_returns_iff_witness :
  let h := [RecObj [("xs", Ref 1)]; ArrObj [Prim (Num 1); Ref 2]; DateObj 5 []] in
  (exists r, deepClone 3 h (Ref 0) = Some r) <-> (exists t, tree_of 3 h (Ref 0) = Some t).
Proof.
  intros h. apply (deepClone_returns_iff 3 h (Ref 0)); reflexivity.
Defined.

Lemma mapO_In {A B : Type} (f : A -> option B) (xs : list A) (ys : list B) (x : A) :
  mapO f xs = Some ys -> In x xs -> exists y, f x = Some y.
Proof.
  revert ys. induction xs as [|x0 xs IH]; intros ys Hm Hin; [destruct Hin |].
  cbn [mapO] in Hm.
  destruct (f x0) as [y0|] eqn:H0; cbn [mbind option_bind] in Hm; [| discriminate].
  destruct (mapO f xs) as [ys'|] eqn:H1; cbn [mbind option_bind] in Hm; [| discriminate].
  destruct Hin as [<-|Hin]; [eauto | eapply IH; eauto].
Qed.

Lemma tree_of_child (n : nat) (h : heap) (l : loc) (o : object) (w : value)
    (t : tree) :
  h !! l = Some o -> In w (clone_children o) ->
  tree_of (S n) h (Ref l) = Some t -> exists t', tree_of n h w = Some t'.
Proof.
  intros Hl Hin. cbn [tree_of]. rewrite Hl.
  destruct o as [own|items|time own]; simpl in Hin; [| | destruct Hin].
  - destruct (mapO _ own) as [fs|] eqn:Hm; cbn [mbind option_bind]; [| discriminate].
    intros _. apply in_map_iff in Hin. destruct Hin as (e & <- & He).
    destruct (mapO_In _ own fs e Hm He) as [y Hy].
    destruct (tree_of n h (snd e)) as [t'|]; [eauto | discriminate].
  - destruct (mapO _ items) as [ts|] eqn:Hm; cbn [mbind option_bind]; [| discriminate].
    intros _. eapply mapO_In; eauto.
Qed.

Lemma tree_of_inside (h : heap) (v : value) (l : loc) :
  inside h v l ->
  forall n t, tree_of n h v = Some t ->
  exists m t', m <= n /\ tree_of m h (Ref l) = Some t'.
Proof.
  induction 1 as [l | l0 o w l Hl Hin Hins IH]; intros n t Ht; [eauto |].
  destruct n as [|n]; [discriminate |].
  destruct (tree_of_child n h l0 o w t Hl Hin Ht) as [t' Ht'].
  destruct (IH n t' Ht') as (m & t'' & Hm & Ht''). exists m, t''. split; [lia | exact Ht''].
Qed.

Lemma tree_of_cycle (h : heap) (l : loc) (o : object) (w : value) :
  h !! l = Some o -> In w (clone_children o) -> inside h w l ->
  forall n, tree_of n h (Ref l) = None.
Proof.
  intros Hl Hin Hins n. induction n as [n IH] using lt_wf_ind.
  destruct (tree_of n h (Ref l)) as [t|] eqn:Ht; [| reflexivity].
  destruct n as [|n]; [discriminate |].
  destruct (tree_of_child n h l o w t Hl Hin Ht) as [t' Ht'].
  destruct (tree_of_inside h w l Hins n t' Ht') as (m & t'' & Hm & Ht'').
  rewrite (IH m) in Ht'' by lia. discriminate.
Qed.

(** There is no cycle detection: for an object that is met again when its
    own values are cloned, [deepClone] runs out of every amount of fuel. *)
Theorem deepClone_cycle_diverges (h : heap) (l : loc) (o : object) (w : value) :
  closed h = true ->
  h !! l = Some o -> In w (clone_children o) -> inside h w l ->
  forall n, deepClone n h (Ref l) = None.
Proof.
  intros Hc Hl Hin Hins n.
  destruct (deepClone n h (Ref l)) as [r|] eqn:Hr; [| reflexivity].
  destruct (deepClone_tree h n Hc [] (Ref l) r) as [t Ht].
  - apply Nat.ltb_lt. eapply lookup_lt_Some, Hl.
  - rewrite app_nil_r. exact Hr.
  - rewrite (tree_of_cycle h l o w Hl Hin Hins n) in Ht. discriminate.
Qed.

Lemma deepClone_cycle_diverges_witness :
  let h := [RecObj [("name", Prim (Str "a")); ("next", Ref 1)];
            ArrObj [Prim (Num 1); Ref 0]] in
  read h (read h (Ref 0) "next") "1" = Ref 0 /\
  forall n, deepClone n h (Ref 0) = None.
Proof.
  intros h. split; [reflexivity |].
  apply (deepClone_cycle_diverges h 0
           (RecObj [("name", Prim (Str "a")); ("next", Ref 1)]) (Ref 1)).
  - reflexivity.
  - reflexivity.
  - simpl. auto.
  - eapply inside_step; [reflexivity | simpl; right; left; reflexivity |].
    apply inside_here.
Defined.

(** * Further properties of [deepMerge] *)

(** ** Sources that are skipped *)

(** An [undefined] source ends the merge: the sources after it are never
    looked at, whatever they are. *)
Theorem deepMerge_stops_at_undefined (ss1 ss2 : list value) :
  forall fuel h t,
  deepMerge fuel h t (ss1 ++ Prim Undefined :: ss2) = deepMerge fuel h t ss1.
Proof.
  induction ss1 as [|s ss1 IH]; intros [|fuel] h t; try reflexivity.
  cbn [app deepMerge]. destruct (is_undefined s); [reflexivity |].
  destruct (if isObject h t && isObject h s then _ else _) as [h1|];
    cbn [mbind option_bind]; [apply IH | reflexivity].
Qed.

(** A target that does not pass [isObject] (a primitive, [null], a list) is
    returned as it is, and a source that does not pass it is skipped: nothing
    in the store changes. *)
Theorem deepMerge_skips_non_objects (fuel : nat) (h : heap) (t : value)
    (ss : list value) :
  length ss < fuel ->
  isObject h t = false \/ Forall (fun s => isObject h s = false) ss ->
  deepMerge fuel h t ss = Some (t, h).
Proof.
  revert fuel. induction ss as [|s ss IH]; intros [|fuel] Hlen Hskip;
    try (simpl in Hlen; lia); [reflexivity |].
  cbn [deepMerge]. destruct (is_undefined s); [reflexivity |].
  assert (Hno : isObject h t && isObject h s = false).
  { destruct Hskip as [->|Hall]; [reflexivity |].
    inversion Hall; subst. apply andb_false_iff. auto. }
  rewrite Hno. cbn [mbind option_bind]. apply IH.
  - simpl in Hlen. lia.
  - destruct Hskip as [Ht|Hall]; [auto | right; inversion Hall; assumption].
Qed.

Lemma deepMerge_skips_non_objects_witness :
  let h := [ArrObj [Prim (Num 1)]; RecObj [("a", Prim (Num 2))]; ArrObj []] in
  deepMerge 3 h (Ref 0) [Ref 1; Prim Null] = Some (Ref 0, h) /\
  deepMerge 4 h (Ref 1) [Prim Null; Ref 2; Prim (Str "x")] = Some (Ref 1, h).
Proof.
  intros h. split.
  - apply (deepMerge_skips_non_objects 3 h (Ref 0) [Ref 1; Prim Null]);
      [simpl; lia | left; reflexivity].
  - apply (deepMerge_skips_non_objects 4 h (Ref 1) [Prim Null; Ref 2; Prim (Str "x")]);
      [simpl; lia | right; repeat constructor].
Defined.

(** ** Nothing is removed *)

Lemma grows_refl (h : heap) : grows h h.
Proof.
  split; [lia |]. split.
  - intros l o Hl. exists o. split; [exact Hl |]. split; [apply same_kind_refl | auto].
  - intros l o' Hge Hl. apply lookup_lt_Some in Hl. lia.
Qed.

Lemma grows_trans (h h1 h2 : heap) : grows h h1 -> grows h1 h2 -> grows h h2.
Proof.
  intros (Hlen1 & Hold1 & Hnew1) (Hlen2 & Hold2 & Hnew2).
  split; [lia |]. split.
  - intros l o Hl. destruct (Hold1 l o Hl) as (o1 & Ho1 & Hk1 & Hkeys1).
    destruct (Hold2 l o1 Ho1) as (o2 & Ho2 & Hk2 & Hkeys2).
    exists o2. split; [exact Ho2 |].
    split; [eapply same_kind_trans; eauto | auto].
  - intros l o2 Hge Hl.
    destruct (Nat.lt_ge_cases l (length h1)) as [Hlt|Hge1]; [| eauto].
    apply lookup_lt_is_Some in Hlt. destruct Hlt as [o1 Ho1].
    destruct (Hnew1 l o1 Hge Ho1) as [ps ->].
    destruct (Hold2 l _ Ho1) as (o' & Ho' & Hk & _).
    assert (o' = o2) by congruence. subst o'.
    destruct o2; simpl in Hk; try contradiction. eauto.
Qed.

Lemma grows_alloc (h : heap) : grows h (h ++ [RecObj []]).
Proof.
  split; [rewrite length_app; lia |]. split.
  - intros l o Hl. exists o.
    split; [rewrite lookup_app_l by (eapply lookup_lt_Some, Hl); exact Hl |].
    split; [apply same_kind_refl | auto].
  - intros l o' Hge Hl. rewrite lookup_app_r in Hl by exact Hge.
    destruct (l - length h) as [|i]; simpl in Hl; [| destruct i; discriminate].
    apply (inj Some) in Hl. subst. eauto.
Qed.

Lemma assignable_isObject (h : heap) (v : value) :
  isObject h v = true -> assignable h v.
Proof.
  intros Hobj l o -> Hl. rewrite isObject_Ref, Hl in Hobj. exact Hobj.
Qed.

Lemma assignable_grows (h h' : heap) (v : value) :
  grows h h' -> assignable h v -> assignable h' v.
Proof.
  intros (Hlen & Hold & Hnew) Ha l o' -> Hl.
  destruct (Nat.lt_ge_cases l (length h)) as [Hlt|Hge].
  - apply lookup_lt_is_Some in Hlt. destruct Hlt as [o Ho].
    destruct (Hold l o Ho) as (o2 & Ho2 & Hk & _).
    assert (o2 = o') by congruence. subst o2.
    rewrite (same_kind_mergeable _ _ Hk). exact (Ha l o eq_refl Ho).
  - destruct (Hnew l o' Hge Hl) as [ps ->]. reflexivity.
Qed.

Lemma grows_write (h : heap) (v : value) (key : string) (x : value) :
  assignable h v -> grows h (write h v key x).
Proof.
  intros Ha. destruct v as [p|l]; [apply grows_refl |].
  destruct (h !! l) as [o|] eqn:Ho;
    [| unfold write; rewrite Ho; apply grows_refl].
  pose proof (Ha l o eq_refl Ho) as Hm.
  split; [rewrite length_write; lia |]. split.
  - intros l0 o0 Hl0. rewrite (write_lookup h l l0 o key x Ho). case_decide.
    + subst l0. assert (o0 = o) by congruence. subst o0.
      eexists. split; [reflexivity |].
      split; [apply same_kind_with_props |].
      intros k Hk. rewrite own_props_with_props by exact Hm.
      apply keys_put. auto.
    + exists o0. split; [exact Hl0 |]. split; [apply same_kind_refl | auto].
  - intros l0 o' Hge Hl0. apply lookup_lt_Some in Hl0.
    rewrite length_write in Hl0. lia.
Qed.

Section MergeGrows.
Variable merge : heap -> value -> list value -> option (value * heap).

Hypothesis merge_grows : forall h t ss r,
  merge h t ss = Some r -> grows h (snd r).

Lemma mergeKey_grows (target source : value) (h : heap) (key : string)
    (h' : heap) :
  assignable h target ->
  mergeKey merge target source h key = Some h' -> grows h h'.
Proof.
  intros Ha. unfold mergeKey. destruct (isObject h (read h source key)).
  - set (h1 := if truthy (read h target key) then h
               else write (h ++ [RecObj []]) target key (Ref (length h))).
    assert (H1 : grows h h1).
    { unfold h1. destruct (truthy _); [apply grows_refl |].
      eapply grows_trans; [apply grows_alloc |].
      apply grows_write. eapply assignable_grows; [apply grows_alloc | exact Ha]. }
    destruct (merge h1 _ _) as [r|] eqn:Hmerge; cbn [mbind option_bind];
      [| discriminate].
    intros Heq. apply (inj Some) in Heq. subst h'.
    eapply grows_trans; [exact H1 | eapply merge_grows, Hmerge].
  - intros Heq. apply (inj Some) in Heq. subst h'. apply grows_write, Ha.
Qed.

Lemma forEach_grows (target source : value) (ks : list string) :
  forall h h',
  assignable h target ->
  forEach (mergeKey merge target source) ks h = Some h' -> grows h h'.
Proof.
  induction ks as [|k ks IH]; intros h h' Ha; cbn [forEach].
  - intros Heq. apply (inj Some) in Heq. subst. apply grows_refl.
  - destruct (mergeKey merge target source h k) as [h1|] eqn:Hk;
      cbn [mbind option_bind]; [| discriminate].
    intros Hrest. pose proof (mergeKey_grows _ _ _ _ _ Ha Hk) as H1.
    eapply grows_trans; [exact H1 |].
    eapply IH; [| exact Hrest]. eapply assignable_grows; eauto.
Qed.
End MergeGrows.

Lemma deepMerge_grows (fuel : nat) : forall h t ss r,
  deepMerge fuel h t ss = Some r -> grows h (snd r).
Proof.
  induction fuel as [|fuel IH]; intros h t ss r; [discriminate |].
  cbn [deepMerge]. destruct ss as [|s ss].
  { intros Heq. apply (inj Some) in Heq. subst. apply grows_refl. }
  destruct (is_undefined s).
  { intros Heq. apply (inj Some) in Heq. subst. apply grows_refl. }
  destruct (isObject h t && isObject h s) eqn:Hobj.
  - destruct (forEach _ _ h) as [h1|] eqn:Hf; cbn [mbind option_bind];
      [| discriminate].
    intros Hrest. eapply grows_trans; [| eapply IH, Hrest].
    eapply (forEach_grows (deepMerge fuel) IH); [| exact Hf].
    apply assignable_isObject. apply andb_true_iff in Hobj. tauto.
  - cbn [mbind option_bind]. apply IH.
Qed.

(** A merge never takes anything away.  Whatever the target and the sources
    are, every object that was in the store is still there afterwards, at the
    same address and of the same kind (an array with the same elements, a date
    with the same time), and has every key it had before; the objects the
    merge made are records. *)
Theorem deepMerge_never_removes (fuel : nat) (h : heap) (t : value)
    (ss : list value) (r : value) (h' : heap) :
  deepMerge fuel h t ss = Some (r, h') ->
  length h <= length h' /\
  (forall l o, h !! l = Some o ->
     exists o', h' !! l = Some o' /\ same_kind o o' /\
       forall k, In k (keys (own_props o)) -> In k (keys (own_props o'))) /\
  (forall l o', length h <= l -> h' !! l = Some o' -> exists ps, o' = RecObj ps).
Proof. intros Hm. exact (deepMerge_grows fuel h t ss (r, h') Hm). Qed.

Lemma deepMerge_never_removes_witness :
  let h := [RecObj [("a", Prim (Num 1)); ("b", Ref 2)];
            RecObj [("b", Ref 3); ("c", Ref 4)];
            RecObj [("x", Prim (Num 1))];
            RecObj [("x", Prim Null); ("y", Ref 5)];
            RecObj [("z", Prim (Str "s"))];
            ArrObj [Prim (Num 7)]] in
  exists h',
    deepMerge 4 h (Ref 0) [Ref 1] = Some (Ref 0, h') /\
    length h <= length h' /\
    (forall l o, h !! l = Some o ->
       exists o', h' !! l = Some o' /\ same_kind o o' /\
         forall k, In k (keys (own_props o)) -> In k (keys (own_props o'))) /\
    (forall l o', length h <= l -> h' !! l = Some o' -> exists ps, o' = RecObj ps).
Proof.
  intros h. eexists. split; [reflexivity |].
  eapply (deepMerge_never_removes 4 h (Ref 0) [Ref 1]). reflexivity.
Defined.

(** ** Keys the sources do not have *)

Lemma rooted_ext_any (h h' : heap) (tv v : value) :
  ext h tv h' -> valid_val (length h) v = true -> rooted h v -> rooted h' v.
Proof.
  intros He Hv Hroot lt o' k w -> Hl Hin Hr.
  simpl in Hv. apply Nat.ltb_lt in Hv.
  destruct (mreach_end _ _ _ Hr) as (o2 & Ho2 & Hm).
  assert (o2 = o') by congruence. subst o2.
  destruct (ext_edges _ _ _ He _ _ _ _ Hl Hm Hin)
    as [(o & Ho & Hin0) | [Hno | (lw & -> & Hlw)]].
  - destruct (ext_mreach _ _ _ He _ _ Hr) as [Hr0|Hfresh]; [| lia].
    exact (Hroot lt o k w eq_refl Ho Hin0 Hr0).
  - apply mreach_isObject in Hr. congruence.
  - pose proof (ext_fresh_reach _ _ _ He _ _ Hr lw eq_refl Hlw). lia.
Qed.

Lemma deepMerge_read_other (lt : loc) (k0 : string) (fuel : nat) :
  forall ss h r h',
  heap_ok h = true -> lt < length h -> isObject h (Ref lt) = true ->
  rooted h (Ref lt) ->
  (forall s, In s ss ->
     valid_val (length h) s = true /\ apart h (Ref lt) s /\
     (isObject h s = true -> ~ In k0 (keys (entries_of h s)))) ->
  deepMerge fuel h (Ref lt) ss = Some (r, h') ->
  read h' (Ref lt) k0 = read h (Ref lt) k0.
Proof.
  induction fuel as [|fuel IH]; intros ss h r h' Hok Hlt Hobj Hroot Hss;
    [discriminate |].
  assert (Hv : valid_val (length h) (Ref lt) = true) by (apply Nat.ltb_lt, Hlt).
  cbn [deepMerge]. destruct ss as [|s ss].
  { intros Heq. injection Heq as _ <-. reflexivity. }
  destruct (is_undefined s).
  { intros Heq. injection Heq as _ <-. reflexivity. }
  destruct (Hss s (or_introl eq_refl)) as (Hvs & Hap & Hkey).
  rewrite Hobj. cbn [andb]. destruct (isObject h s) eqn:Hos.
  - destruct (forEach _ _ h) as [h1|] eqn:Hf; cbn [mbind option_bind];
      [| discriminate].
    intros Hrest.
    pose proof (forEach_ext (deepMerge fuel) (deepMerge_ext' fuel) (Ref lt) s _ h h1
                  Hok Hv Hobj Hf) as He.
    rewrite (IH ss h1 r h').
    + eapply (forEach_read_other (deepMerge fuel) (deepMerge_ext' fuel));
        [exact Hok | exact Hlt | exact Hobj | exact Hroot | apply Hkey; reflexivity |
         exact Hf].
    + exact (ext_ok _ _ _ He).
    + pose proof (ext_len _ _ _ He). lia.
    + rewrite (ext_isObject h h1 _ _ He Hv). exact Hobj.
    + eapply rooted_ext; eauto.
    + intros s' Hin. destruct (Hss s' (or_intror Hin)) as (Hvs' & Hap' & Hkey').
      split; [eapply ext_valid; eauto |].
      split; [apply (apart_ext h h1 (Ref lt) s' He Hok Hvs' Hap') |].
      rewrite (ext_isObject h h1 _ _ He Hvs'). intros Hos'.
      rewrite (apart_entries h h1 (Ref lt) s' He Hap' Hvs' Hos'). auto.
    + exact Hrest.
  - cbn [mbind option_bind]. apply IH; try assumption.
    intros s' Hin. apply Hss. right. exact Hin.
Qed.



(** ** Records nested in the target *)

Lemma NoDup_app_disjoint (pre post : list string) (k : string) :
  List.NoDup (pre ++ post) -> In k post -> ~ In k pre.
Proof.
  induction pre as [|x pre IH]; simpl; intros Hnd Hin; [tauto |].
  inversion Hnd as [|? ? Hnotin Hnd']; subst.
  intros [->|Hpre]; [apply Hnotin, in_or_app; auto | exact (IH Hnd' Hin Hpre)].
Qed.

Section MergeKeeps.
Variable merge : heap -> value -> list value -> option (value * heap).

Hypothesis merge_ext : forall h t ss r h',
  heap_ok h = true -> valid_val (length h) t = true ->
  merge h t ss = Some (r, h') -> ext h t h'.

(** The steps for keys under which the target holds nothing that leads to
    the object at [l0] leave that object as it is. *)
Lemma forEach_keeps_loc (lt l0 : loc) (source : value) (ks : list string) :
  forall hc h',
  heap_ok hc = true -> lt < length hc -> isObject hc (Ref lt) = true ->
  rooted hc (Ref lt) -> l0 < length hc -> l0 <> lt ->
  (forall k, In k ks -> ~ mreach hc (read hc (Ref lt) k) l0) ->
  List.NoDup ks ->
  forEach (mergeKey merge (Ref lt) source) ks hc = Some h' ->
  h' !! l0 = hc !! l0.
Proof.
  induction ks as [|k ks IH]; intros hc h' Hok Hlt Hobj Hroot Hl0 Hne Hno Hnd;
    cbn [forEach].
  { intros Heq. apply (inj Some) in Heq. subst. reflexivity. }
  destruct (mergeKey merge (Ref lt) source hc k) as [h1|] eqn:Hk;
    cbn [mbind option_bind]; [| discriminate].
  intros Hrest. inversion Hnd as [|? ? Hnotin Hnd']; subst.
  assert (Hv : valid_val (length hc) (Ref lt) = true) by (apply Nat.ltb_lt, Hlt).
  pose proof (mergeKey_ext merge merge_ext _ _ _ _ _ Hok Hv Hobj Hk) as He.
  pose proof (ext_len _ _ _ He) as Hlen.
  rewrite (IH h1 h').
  - apply (mergeKey_frame merge merge_ext lt source hc k h1); auto.
    apply Hno. left. reflexivity.
  - exact (ext_ok _ _ _ He).
  - lia.
  - rewrite (ext_isObject hc h1 _ _ He Hv). exact Hobj.
  - eapply rooted_ext; eauto.
  - lia.
  - exact Hne.
  - intros k' Hk' Hr.
    assert (Hne' : k' <> k) by (intros ->; contradiction).
    rewrite (mergeKey_read_other merge merge_ext lt source hc k k' h1
               Hok Hlt Hobj Hroot Hne' Hk) in Hr.
    destruct (ext_mreach _ _ _ He _ _ Hr) as [Hr0|Hge]; [| lia].
    exact (Hno k' (or_intror Hk') Hr0).
  - exact Hnd'.
  - exact Hrest.
Qed.
End MergeKeeps.



(** * When [flattenObject] returns *)

Lemma keys_imap_pretty (items : list value) : forall j,
  keys (imap (fun i v => (pretty (j + i), v)) items) =
  map pretty (seq j (length items)).
Proof.
  induction items as [|x items IH]; intros j; [reflexivity |].
  cbn [imap length seq map keys fst]. unfold keys in IH.
  rewrite Nat.add_0_r. f_equal.
  rewrite <- (IH (S j)). f_equal. apply imap_ext. intros i y _. simpl.
  rewrite Nat.add_succ_r. reflexivity.
Qed.

Lemma entries_NoDup (h : heap) (v : value) :
  keys_ok h = true -> List.NoDup (keys (entries_of h v)).
Proof.
  intros Hok. destruct v as [p|l]; simpl; [constructor |].
  destruct (h !! l) as [o|] eqn:Hl; [| constructor].
  assert (Ho : keys_ok_obj o = true).
  { unfold keys_ok in Hok. rewrite forallb_forall in Hok. apply Hok.
    apply list_elem_of_In. eapply list_elem_of_lookup_2, Hl. }
  destruct o as [own|items|time own]; simpl in *;
    [apply distinct_NoDup, Ho | | apply distinct_NoDup, Ho].
  pose proof (keys_imap_pretty items 0) as Hkeys. cbn [Nat.add] in Hkeys.
  rewrite Hkeys.
  apply Finite.Injective_map_NoDup; [| apply List.seq_NoDup].
  intros a b Hab. exact (pretty_nat_inj a b Hab).
Qed.

Lemma reduce_flattenKey_back flatten (h : heap) (obj : value) (prefix : string)
    (ks : list string) : forall acc out,
  reduce (flattenKey flatten h obj prefix) ks acc = Some out ->
  forall k, In k ks -> isObject h (read h obj k) = true ->
    exists sub, flatten (read h obj k) (dotted prefix +:+ k) = Some sub.
Proof.
  induction ks as [|k0 ks IH]; intros acc out; cbn [reduce]; [intros _ k [] |].
  destruct (flattenKey flatten h obj prefix acc k0) as [acc'|] eqn:Hk0;
    cbn [mbind option_bind]; [| discriminate].
  intros Hrest k [<-|Hin] Hobj; [| eapply IH; eauto].
  unfold flattenKey in Hk0. rewrite flatten_test, Hobj in Hk0.
  unfold dotted.
  destruct (flatten _ _) as [sub|]; [eauto | discriminate].
Qed.

Lemma flattenObject_depth (h : heap) (n : nat) :
  keys_ok h = true ->
  forall obj prefix out,
    flattenObject (S n) h obj prefix = Some out ->
    forallb (fun e => depth_le n h (snd e)) (entries_of h obj) = true.
Proof.
  intros Hok. induction n as [|n IH]; intros obj prefix out Hrun;
    cbn [flattenObject] in Hrun; apply forallb_forall; intros [k v] Hin;
    cbn [snd depth_le]; destruct (isObject h v) eqn:Hobj; try reflexivity;
    assert (Hrd : read h obj k = v)
      by (unfold read; rewrite (In_get k v _ (entries_NoDup h obj Hok) Hin);
          reflexivity);
    destruct (reduce_flattenKey_back _ h obj prefix _ [] out Hrun k) as [sub Hsub];
    try (rewrite Hrd; exact Hobj);
    try (change k with (fst (k, v)); apply in_map; exact Hin).
  - discriminate Hsub.
  - rewrite Hrd in Hsub. simpl. eapply IH, Hsub.
Qed.

(** [flattenObject] returns exactly when the records and dates nested under
    the keys of [obj] are at most [n] levels deep, whatever the prefix: with
    less fuel than the nesting needs, and for every amount of fuel when the
    nesting has a cycle, it does not return. *)
Theorem flattenObject_returns_iff (n : nat) (h : heap) (obj : value)
    (prefix : string) :
  keys_ok h = true ->
  (exists out, flattenObject (S n) h obj prefix = Some out) <->
  forallb (fun e => depth_le n h (snd e)) (entries_of h obj) = true.
Proof.
  intros Hok. split.
  - intros [out Hrun]. eapply flattenObject_depth; eauto.
  - apply flattenObject_total.
Qed.

Lemma flattenObject_returns_iff_witness :
  let h := [RecObj [("a", Ref 1); ("n", Prim (Num 7))]; RecObj [("b", Ref 2)];
            RecObj [("c", Ref 3)]; ArrObj [Ref 0]] in
  ((exists out, flattenObject 3 h (Ref 0) "p" = Some out) <-> true = true) /\
  ((exists out, flattenObject 2 h (Ref 0) "p" = Some out) <-> false = true).
Proof.
  intros h. split.
  - apply (flattenObject_returns_iff 2 h (Ref 0) "p"). reflexivity.
  - apply (flattenObject_returns_iff 1 h (Ref 0) "p"). reflexivity.
Defined.

Lemma depth_le_child (n : nat) (h : heap) (l : loc) (o : object) (k : string)
    (w : value) :
  h !! l = Some o -> mergeable o = true -> In (k, w) (own_props o) ->
  depth_le (S n) h (Ref l) = true -> depth_le n h w = true.
Proof.
  intros Hl Hm Hin. cbn [depth_le]. rewrite isObject_Ref, Hl, Hm. cbn [negb orb].
  rewrite forallb_forall. intros Hall.
  apply (Hall (k, w)). unfold entries_of. rewrite Hl. exact Hin.
Qed.

Lemma depth_le_mreach (h : heap) (v : value) (l : loc) :
  mreach h v l ->
  forall n, depth_le n h v = true -> exists m, m <= n /\ depth_le m h (Ref l) = true.
Proof.
  induction 1 as [l o Hl Hm | l0 o k w l Hl Hm Hin Hr IH]; intros n Hd; [eauto |].
  destruct n as [|n].
  { cbn [depth_le] in Hd. rewrite isObject_Ref, Hl, Hm in Hd. discriminate. }
  destruct (IH n (depth_le_child n h l0 o k w Hl Hm Hin Hd)) as (m & Hle & Hdm).
  exists m. split; [lia | exact Hdm].
Qed.

Lemma depth_le_cycle (h : heap) (l : loc) (o : object) (k : string) (w : value) :
  h !! l = Some o -> mergeable o = true -> In (k, w) (own_props o) ->
  mreach h w l -> forall n, depth_le n h (Ref l) = false.
Proof.
  intros Hl Hm Hin Hr n. induction n as [n IH] using lt_wf_ind.
  destruct (depth_le n h (Ref l)) eqn:Hd; [| reflexivity].
  destruct n as [|n].
  { cbn [depth_le] in Hd. rewrite isObject_Ref, Hl, Hm in Hd. discriminate. }
  destruct (depth_le_mreach h w l Hr n (depth_le_child n h l o k w Hl Hm Hin Hd))
    as (m & Hle & Hdm).
  rewrite (IH m) in Hdm by lia. discriminate.
Qed.

(** There is no cycle detection in [flattenObject] either: for a record that
    is nested in one of its own values through records and dates, it runs out
    of every amount of fuel.  (A cycle that passes through a list is not
    followed, since lists are leaves.) *)
Theorem flattenObject_cycle_diverges (h : heap) (l : loc) (o : object)
    (k : string) (w : value) :
  keys_ok h = true ->
  h !! l = Some o -> mergeable o = true -> In (k, w) (own_props o) ->
  mreach h w l ->
  forall fuel prefix, flattenObject fuel h (Ref l) prefix = None.
Proof.
  intros Hok Hl Hm Hin Hr fuel prefix.
  destruct (flattenObject fuel h (Ref l) prefix) as [out|] eqn:Hrun; [| reflexivity].
  destruct fuel as [|n]; [discriminate |].
  pose proof (flattenObject_depth h n Hok _ _ _ Hrun) as Hd.
  rewrite forallb_forall in Hd.
  assert (Hw : depth_le n h w = true).
  { apply (Hd (k, w)). unfold entries_of. rewrite Hl. exact Hin. }
  destruct (depth_le_mreach h w l Hr n Hw) as (m & _ & Hdm).
  rewrite (depth_le_cycle h l o k w Hl Hm Hin Hr m) in Hdm. discriminate.
Qed.

Lemma flattenObject_cycle_diverges_witness :
  let h := [RecObj [("name", Prim (Str "a")); ("next", Ref 1)];
            RecObj [("back", Ref 0)]] in
  read h (read h (Ref 0) "next") "back" = Ref 0 /\
  forall fuel prefix, flattenObject fuel h (Ref 0) prefix = None.
Proof.
  intros h. split; [reflexivity |].
  apply (flattenObject_cycle_diverges h 0
           (RecObj [("name", Prim (Str "a")); ("next", Ref 1)]) "next" (Ref 1)).
  - reflexivity.
  - reflexivity.
  - reflexivity.
  - simpl. auto.
  - eapply mreach_step; [reflexivity | reflexivity | simpl; left; reflexivity |].
    eapply mreach_here; reflexivity.
Defined.

(** * Merging into an empty record *)



(** * [unique], [intersection] and [difference] *)

Lemma same_value_zero_eq (a b : value) : same_value_zero a b = true <-> a = b.
Proof.
  destruct a as [[| |x|x|x]|x], b as [[| |y|y|y]|y]; simpl;
    try (split; [discriminate | congruence]); try tauto.
  - rewrite Bool.eqb_true_iff. split; congruence.
  - rewrite Z.eqb_eq. split; congruence.
  - rewrite String.eqb_eq. split; congruence.
  - rewrite Nat.eqb_eq. split; congruence.
Qed.

Lemma Set_has_In (s : list value) (x : value) : Set_has s x = true <-> In x s.
Proof.
  unfold Set_has. rewrite existsb_exists. split.
  - intros (y & Hin & Heq). apply same_value_zero_eq in Heq. subst. exact Hin.
  - intros Hin. exists x. split; [exact Hin | apply same_value_zero_eq; reflexivity].
Qed.

Lemma Set_has_not_In (s : list value) (x : value) :
  Set_has s x = false <-> ~ In x s.
Proof.
  rewrite <- Set_has_In. destruct (Set_has s x); split; congruence.
Qed.

Lemma fold_Set_add_spec (xs : list value) : forall acc,
  List.NoDup acc ->
  List.NoDup (fold_left Set_add xs acc) /\
  forall x, In x (fold_left Set_add xs acc) <-> In x acc \/ In x xs.
Proof.
  induction xs as [|y xs IH]; intros acc Hnd; cbn [fold_left].
  - split; [exact Hnd | intros x; simpl; tauto].
  - assert (Hnd' : List.NoDup (Set_add acc y)).
    { unfold Set_add. destruct (Set_has acc y) eqn:Hy; [exact Hnd |].
      apply Set_has_not_In in Hy.
      apply List.NoDup_rev in Hnd. rewrite <- (rev_involutive (acc ++ [y])).
      apply List.NoDup_rev. rewrite rev_app_distr. simpl.
      constructor; [rewrite <- in_rev; exact Hy | exact Hnd]. }
    destruct (IH _ Hnd') as [H1 H2]. split; [exact H1 |].
    intros x. rewrite H2. unfold Set_add.
    destruct (Set_has acc y) eqn:Hy; simpl.
    + apply Set_has_In in Hy. intuition congruence.
    + rewrite in_app_iff. simpl. tauto.
Qed.

Lemma new_Set_In (xs : list value) (x : value) :
  Set_has (new_Set xs) x = true <-> In x xs.
Proof.
  rewrite Set_has_In. unfold new_Set.
  destruct (fold_Set_add_spec xs [] (List.NoDup_nil _)) as [_ H]. rewrite H.
  simpl. tauto.
Qed.

Lemma new_Set_has (xs : list value) (x : value) :
  Set_has (new_Set xs) x = Set_has xs x.
Proof.
  destruct (Set_has xs x) eqn:Hx.
  - apply new_Set_In, Set_has_In, Hx.
  - apply Set_has_not_In. rewrite <- Set_has_In, new_Set_In.
    apply Set_has_not_In, Hx.
Qed.

Lemma filter_filter_has (acc : list value) (x : value) (xs : list value) :
  List.filter (fun y => negb (Set_has [x] y))
    (List.filter (fun y => negb (Set_has acc y)) xs) =
  List.filter (fun y => negb (Set_has (acc ++ [x]) y)) xs.
Proof.
  induction xs as [|y xs IH]; [reflexivity |]. cbn [List.filter].
  assert (Happ : Set_has (acc ++ [x]) y = Set_has acc y || Set_has [x] y)
    by (unfold Set_has; apply existsb_app).
  rewrite Happ. destruct (Set_has acc y); cbn [negb orb List.filter]; [exact IH |].
  destruct (Set_has [x] y); cbn [negb]; [exact IH | f_equal; exact IH].
Qed.

Lemma fold_Set_add_filter (n : nat) : forall xs acc,
  length xs <= n ->
  fold_left Set_add xs acc =
  acc ++ new_Set (List.filter (fun y => negb (Set_has acc y)) xs).
Proof.
  unfold new_Set. induction n as [|n IH]; intros xs acc Hlen.
  { destruct xs; [| simpl in Hlen; lia]. simpl. symmetry. apply app_nil_r. }
  destruct xs as [|x xs]; [simpl; symmetry; apply app_nil_r |].
  simpl in Hlen. cbn [fold_left List.filter]. unfold Set_add at 2.
  destruct (Set_has acc x) eqn:Hx; cbn [negb].
  - apply IH. lia.
  - cbn [fold_left]. change (Set_add [] x) with [x].
    rewrite (IH xs (acc ++ [x])) by lia.
    rewrite (IH (List.filter _ xs) [x]).
    + rewrite filter_filter_has, <- app_assoc. reflexivity.
    + pose proof (List.filter_length_le (fun y => negb (Set_has acc y)) xs). lia.
Qed.

(** [unique] keeps the first occurrence of every element, in the order of
    the array: the result has no element twice, has the elements of the
    array, and starts with the first element followed by the unique elements
    of what is left once the copies of the first are taken out. *)
Theorem unique_first_occurrences (array : list value) :
  List.NoDup (unique array) /\
  (forall x, In x (unique array) <-> In x array) /\
  (forall x xs,
     unique (x :: xs) =
     x :: unique (List.filter (fun y => negb (same_value_zero y x)) xs)).
Proof.
  unfold unique, new_Set.
  destruct (fold_Set_add_spec array [] (List.NoDup_nil _)) as [H1 H2].
  split; [exact H1 |]. split; [intros x; rewrite H2; simpl; tauto |].
  intros x xs. cbn [fold_left]. change (Set_add [] x) with [x].
  rewrite (fold_Set_add_filter (length xs) xs [x]) by lia.
  unfold new_Set. cbn [app]. do 2 f_equal.
  apply List.filter_ext. intros y. unfold Set_has. simpl.
  rewrite orb_false_r. reflexivity.
Qed.

Lemma fold_Set_add_NoDup (xs : list value) : forall acc,
  List.NoDup (acc ++ xs) -> fold_left Set_add xs acc = acc ++ xs.
Proof.
  induction xs as [|x xs IH]; intros acc Hnd; cbn [fold_left].
  - symmetry. apply app_nil_r.
  - assert (Hx : Set_has acc x = false).
    { apply Set_has_not_In. intros Hin.
      apply List.NoDup_remove_2 in Hnd. apply Hnd, in_or_app. auto. }
    unfold Set_add. rewrite Hx. rewrite IH; rewrite <- app_assoc; [reflexivity |].
    exact Hnd.
Qed.

(** An array without repeated elements is returned as it is, so [unique] is
    idempotent. *)
Theorem unique_idempotent (array : list value) :
  (List.NoDup array -> unique array = array) /\
  unique (unique array) = unique array.
Proof.
  assert (H : forall xs, List.NoDup xs -> unique xs = xs)
    by (intros xs Hnd; apply (fold_Set_add_NoDup xs []); exact Hnd).
  split; [apply H |].
  apply H. unfold unique, new_Set.
  apply (fold_Set_add_spec array [] (List.NoDup_nil _)).
Qed.

Lemma unique_idempotent_witness :
  let xs := [Prim (Num 2); Ref 0; Prim (Str "a"); Prim (Num 1)] in
  unique xs = xs.
Proof.
  intros xs. apply (proj1 (unique_idempotent xs)).
  repeat constructor; simpl; intuition discriminate.
Defined.

Lemma intersection_filter (a b : list value) :
  intersection a b = List.filter (Set_has b) a.
Proof.
  unfold intersection. cbv zeta. apply List.filter_ext. intros x. apply new_Set_has.
Qed.

Lemma difference_filter (a b : list value) :
  difference a b = List.filter (fun x => negb (Set_has b x)) a.
Proof.
  unfold difference. cbv zeta. apply List.filter_ext. intros x.
  rewrite new_Set_has. reflexivity.
Qed.

Lemma difference_In (a b : list value) (x : value) :
  In x (difference a b) <-> In x a /\ ~ In x b.
Proof.
  rewrite difference_filter, filter_In, negb_true_iff, Set_has_not_In. tauto.
Qed.

(** [intersection] and [difference] split the first array in two, keeping
    its order and its repeated elements: an element of [a] goes to the
    intersection if it occurs in [b] and to the difference if it does not,
    as many times as it occurs in [a]. *)
Theorem intersection_difference_partition (a b : list value) :
  (forall x, In x (intersection a b) <-> In x a /\ In x b) /\
  (forall x, In x (difference a b) <-> In x a /\ ~ In x b) /\
  Permutation a (intersection a b ++ difference a b) /\
  intersection a b = List.filter (Set_has b) a /\
  difference a b = List.filter (fun x => negb (Set_has b x)) a.
Proof.
  split; [| split; [| split; [| split]]].
  - intros x. rewrite intersection_filter, filter_In, Set_has_In. tauto.
  - intros x. apply difference_In.
  - rewrite intersection_filter, difference_filter.
    induction a as [|x a IH]; [constructor |].
    cbn [List.filter]. destruct (Set_has b x); cbn [negb app].
    + constructor. exact IH.
    + apply Permutation_cons_app. exact IH.
  - apply intersection_filter.
  - apply difference_filter.
Qed.

(** How [difference] and [intersection] compose: taking out of [a] what is
    left of [a] without [b] gives the intersection, two differences in a row
    are one difference by both arrays, and an array meets itself in all its
    elements and differs from itself in none. *)
Theorem difference_laws (a b c : list value) :
  difference a (difference a b) = intersection a b /\
  difference (difference a b) c = difference a (b ++ c) /\
  intersection a a = a /\
  difference a a = [] /\
  difference a [] = a.
Proof.
  split; [| split; [| split; [| split]]].
  - rewrite difference_filter, intersection_filter.
    apply List.filter_ext_in. intros x Hx.
    destruct (Set_has b x) eqn:Hb.
    + apply negb_true_iff, Set_has_not_In. rewrite difference_In.
      apply Set_has_In in Hb. tauto.
    + apply negb_false_iff, Set_has_In. rewrite difference_In.
      apply Set_has_not_In in Hb. tauto.
  - rewrite !difference_filter. induction a as [|x a IH]; [reflexivity |].
    cbn [List.filter].
    assert (Happ : Set_has (b ++ c) x = Set_has b x || Set_has c x)
      by (unfold Set_has; apply existsb_app).
    rewrite Happ. destruct (Set_has b x); cbn [negb orb List.filter]; [exact IH |].
    destruct (Set_has c x); cbn [negb]; [exact IH | f_equal; exact IH].
  - rewrite intersection_filter. rewrite <- (List.filter_ext_in (fun _ => true)).
    + induction a as [|x a IH]; [reflexivity |]. simpl. f_equal. exact IH.
    + intros x Hx. symmetry. apply Set_has_In, Hx.
  - rewrite difference_filter. rewrite <- (List.filter_ext_in (fun _ => false)).
    + induction a as [|x a IH]; [reflexivity |]. simpl. exact IH.
    + intros x Hx. symmetry. apply negb_false_iff, Set_has_In, Hx.
  - rewrite difference_filter. induction a as [|x a IH]; [reflexivity |].
    simpl. f_equal. exact IH.
Qed.

(** * [chunk] *)

Lemma ceil_div_bounds (len size : Z) :
  (0 <= len)%Z -> (0 < size)%Z ->
  (0 <= ceil_div len size)%Z /\
  (len <= ceil_div len size * size)%Z /\
  ((ceil_div len size - 1) * size < len \/ ceil_div len size = 0)%Z.
Proof.
  intros Hl Hs. unfold ceil_div.
  pose proof (Z.div_mod (len + size - 1) size ltac:(lia)) as Hdm.
  pose proof (Z.mod_pos_bound (len + size - 1) size Hs) as Hb.
  assert (0 <= (len + size - 1) / size)%Z by (apply Z.div_pos; lia).
  split; [assumption |]. split; [nia |]. left. nia.
Qed.

Lemma chunk_count (len n : nat) :
  0 < n ->
  let count := Z.to_nat (ceil_div (Z.of_nat len) (Z.of_nat n)) in
  len <= count * n /\ (count = 0 \/ (count - 1) * n < len).
Proof.
  intros Hn count.
  destruct (ceil_div_bounds (Z.of_nat len) (Z.of_nat n)) as (H0 & Hup & Hlow);
    [lia | lia |].
  assert (Hc : Z.of_nat count = ceil_div (Z.of_nat len) (Z.of_nat n))
    by (unfold count; rewrite Z2Nat.id; [reflexivity | exact H0]).
  rewrite <- Hc in Hup, Hlow. split; [nia |].
  destruct (Nat.eq_dec count 0) as [|Hne]; [auto | right].
  destruct Hlow as [Hlow|Hlow]; [nia | lia].
Qed.

Lemma concat_slices {A : Type} (array : list A) (n k : nat) :
  concat (map (fun index => slice array (index * n) (index * n + n)) (seq 0 k)) =
  take (k * n) array.
Proof.
  induction k as [|k IH]; [reflexivity |].
  rewrite seq_S, map_app, concat_app, IH. cbn [map concat Nat.add].
  rewrite app_nil_r. unfold slice.
  replace (k * n + n - k * n) with n by lia.
  rewrite take_take_drop. f_equal. lia.
Qed.

Lemma lookup_map_Some {A B : Type} (f : A -> B) (l : list A) (i : nat) (y : B) :
  map f l !! i = Some y -> exists x, l !! i = Some x /\ y = f x.
Proof.
  revert i. induction l as [|a l IH]; intros [|i]; simpl; try discriminate.
  - intros Heq. apply (inj Some) in Heq. eauto.
  - apply IH.
Qed.

(** For a positive [size] the chunks, put one after the other, are the array
    again.  There are [ceil(length / size)] of them (none for the empty
    array), none is empty, and all have [size] elements except possibly the
    last, which has at most [size]. *)
Theorem chunk_concat {A : Type} (array : list A) (size : Z) :
  (0 < size)%Z ->
  exists chunks,
    chunk array size = Some chunks /\
    concat chunks = array /\
    Z.of_nat (length chunks) = ceil_div (Z.of_nat (length array)) size /\
    forall i c, chunks !! i = Some c ->
      0 < length c /\ (Z.of_nat (length c) <= size)%Z /\
      (S i < length chunks -> Z.of_nat (length c) = size).
Proof.
  intros Hs. unfold chunk. cbv zeta.
  destruct (Z.eqb_spec size 0) as [|_]; [lia |].
  destruct (Z.ltb_spec size 0) as [|_]; [lia |].
  eexists. split; [reflexivity |].
  set (n := Z.to_nat size).
  assert (Hn : 0 < n) by (unfold n; lia).
  assert (Hsz : size = Z.of_nat n) by (unfold n; lia).
  rewrite Hsz.
  set (count := Z.to_nat (ceil_div (Z.of_nat (length array)) (Z.of_nat n))).
  destruct (chunk_count (length array) n Hn) as [Hup Hlow]. fold count in Hup, Hlow.
  split; [| split].
  - rewrite concat_slices. apply take_ge. exact Hup.
  - rewrite length_map, length_seq. unfold count. rewrite Z2Nat.id; [reflexivity |].
    apply ceil_div_bounds; lia.
  - intros i c Hc. rewrite length_map, length_seq.
    apply lookup_map_Some in Hc. destruct Hc as (x & Hx & ->).
    apply lookup_seq in Hx. destruct Hx as [-> Hi]. cbn [Nat.add].
    unfold slice. rewrite length_take, length_drop.
    replace (i * n + n - i * n) with n by lia.
    destruct Hlow as [Hlow|Hlow]; [lia |].
    assert (Hin : i * n <= (count - 1) * n) by (apply Nat.mul_le_mono_r; lia).
    split; [lia |]. split; [lia |].
    intros Hnext.
    assert (Hin2 : (i + 1) * n <= (count - 1) * n) by (apply Nat.mul_le_mono_r; lia).
    lia.
Qed.

Lemma chunk_concat_witness :
  exists chunks,
    chunk [1; 2; 3; 4; 5; 6; 7] 3 = Some chunks /\
    concat chunks = [1; 2; 3; 4; 5; 6; 7] /\
    Z.of_nat (length chunks) = 3%Z /\
    forall i c, chunks !! i = Some c ->
      0 < length c /\ (Z.of_nat (length c) <= 3)%Z /\
      (S i < length chunks -> Z.of_nat (length c) = 3%Z).
Proof. apply (chunk_concat [1; 2; 3; 4; 5; 6; 7] 3). lia. Defined.



(** * [range] *)

Lemma range_loop_run (stop step : Z) (n : nat) :
  (0 < step)%Z ->
  forall fuel i result,
  n < fuel ->
  (stop < i + Z.of_nat n * step)%Z ->
  n = 0 \/ (i + (Z.of_nat n - 1) * step <= stop)%Z ->
  range_loop fuel i stop step result =
  Some (result ++ map (fun k => (i + Z.of_nat k * step)%Z) (seq 0 n)).
Proof.
  intros Hstep. induction n as [|n IH]; intros fuel i result Hfuel Hpast Hlast;
    (destruct fuel as [|fuel]; [lia |]); cbn [range_loop].
  - destruct (Z.leb_spec i stop) as [Hle|_]; [lia |].
    cbn [seq map]. rewrite app_nil_r. reflexivity.
  - destruct (Z.leb_spec i stop) as [_|Hgt]; [| nia].
    rewrite (IH fuel (i + step)%Z (result ++ [i])); [| lia | lia |].
    + rewrite <- app_assoc. cbn [seq map app]. do 3 f_equal; [lia |].
      rewrite <- seq_shift, map_map. apply map_ext. intros k. lia.
    + destruct n as [|n]; [left; reflexivity | right; lia].
Qed.



Lemma range_loop_never_ends (stop step : Z) (fuel : nat) :
  (step <= 0)%Z ->
  forall i result, (i <= stop)%Z -> range_loop fuel i stop step result = None.
Proof.
  intros Hstep. induction fuel as [|fuel IH]; intros i result Hi; [reflexivity |].
  cbn [range_loop]. destruct (Z.leb_spec i stop) as [_|]; [| lia].
  apply IH. lia.
Qed.

(** With a [step] that is zero or negative and [start <= end], the loop of
    [range] never ends: the counter does not move towards [end]. *)
Theorem range_never_ends (start stop step : Z) :
  (step <= 0)%Z -> (start <= stop)%Z ->
  forall fuel, range fuel start stop step = None.
Proof.
  intros Hstep Hle fuel. apply range_loop_never_ends; assumption.
Qed.

Lemma range_never_ends_witness :
  range 1000 10 10 0 = None /\ forall fuel, range fuel 1 5 (-1) = None.
Proof.
  split.
  - apply (range_never_ends 10 10 0); lia.
  - apply (range_never_ends 1 5 (-1)); lia.
Defined.

(** * [flatten] *)

Lemma for_of_app {A S : Type} (f : S -> A -> option S) (xs ys : list A) :
  forall s, for_of f (xs ++ ys) s = (s' ← for_of f xs s; for_of f ys s').
Proof.
  induction xs as [|x xs IH]; intros s; cbn [app for_of]; [reflexivity |].
  destruct (f s x) as [s1|]; cbn [mbind option_bind]; [apply IH | reflexivity].
Qed.

Section FlattenStep.
Variable h : heap.
Variable inner : list value -> option (list value).

(** What a step pushes does not depend on what [result] holds already. *)
Lemma flattenVal_acc (acc : list value) (x : value) :
  flattenVal inner h acc x = (d ← flattenVal inner h [] x; Some (acc ++ d)).
Proof.
  unfold flattenVal. destruct (isArray h x); [| reflexivity].
  destruct (inner (items_of h x)); reflexivity.
Qed.

Lemma for_of_flatten_acc (xs : list value) : forall acc,
  for_of (flattenVal inner h) xs acc =
  (out ← for_of (flattenVal inner h) xs []; Some (acc ++ out)).
Proof.
  induction xs as [|x xs IH]; intros acc; cbn [for_of mbind option_bind].
  - rewrite app_nil_r. reflexivity.
  - rewrite (flattenVal_acc acc x).
    destruct (flattenVal inner h [] x) as [d|]; cbn [mbind option_bind];
      [| reflexivity].
    rewrite (IH (acc ++ d)), (IH d).
    destruct (for_of (flattenVal inner h) xs []) as [out|]; cbn [mbind option_bind];
      [rewrite app_assoc; reflexivity | reflexivity].
Qed.

Lemma for_of_flatten_no_arrays (xs : list value) :
  (forall ys sub, inner ys = Some sub ->
     Forall (fun v => isArray h v = false) sub) ->
  forall out, for_of (flattenVal inner h) xs [] = Some out ->
    Forall (fun v => isArray h v = false) out.
Proof.
  intros Hinner. induction xs as [|x xs IH]; intros out; cbn [for_of].
  - intros Heq. apply (inj Some) in Heq. subst. constructor.
  - destruct (flattenVal inner h [] x) as [d|] eqn:Hd; cbn [mbind option_bind];
      [| discriminate].
    rewrite for_of_flatten_acc.
    destruct (for_of (flattenVal inner h) xs []) as [rest|]; cbn [mbind option_bind];
      [| discriminate].
    intros Heq. apply (inj Some) in Heq. subst.
    apply Forall_app. split; [| apply IH; reflexivity].
    unfold flattenVal in Hd. destruct (isArray h x) eqn:Hx.
    + destruct (inner (items_of h x)) as [sub|] eqn:Hsub; [| discriminate].
      apply (inj Some) in Hd. subst. eapply Hinner, Hsub.
    + apply (inj Some) in Hd. subst. constructor; [exact Hx | constructor].
Qed.

Lemma for_of_flatten_flat (xs : list value) :
  Forall (fun v => isArray h v = false) xs ->
  for_of (flattenVal inner h) xs [] = Some xs.
Proof.
  induction 1 as [|x xs Hx _ IH]; cbn [for_of]; [reflexivity |].
  assert (Hd : flattenVal inner h [] x = Some [x])
    by (unfold flattenVal; rewrite Hx; reflexivity).
  rewrite Hd. cbn [mbind option_bind].
  rewrite for_of_flatten_acc, IH. reflexivity.
Qed.
End FlattenStep.

Lemma flatten_no_arrays (h : heap) (fuel : nat) : forall array out,
  flatten fuel h array = Some out -> Forall (fun v => isArray h v = false) out.
Proof.
  induction fuel as [|fuel IH]; intros array out; [discriminate |].
  cbn [flatten]. apply for_of_flatten_no_arrays. exact IH.
Qed.

(** The result of [flatten] holds no array: arrays are unfolded at every
    depth.  An array that holds no array is returned as it is (in a new
    array), so flattening the result again changes nothing. *)
Theorem flatten_removes_arrays (fuel : nat) (h : heap) (array out : list value) :
  flatten fuel h array = Some out ->
  Forall (fun v => isArray h v = false) out /\
  flatten 1 h out = Some out /\
  (Forall (fun v => isArray h v = false) array -> out = array).
Proof.
  intros Hrun. pose proof (flatten_no_arrays h fuel array out Hrun) as Hout.
  split; [exact Hout |]. split.
  - cbn [flatten]. apply for_of_flatten_flat. exact Hout.
  - intros Hflat. destruct fuel as [|fuel]; [discriminate |].
    cbn [flatten] in Hrun. rewrite for_of_flatten_flat in Hrun by exact Hflat.
    apply (inj Some) in Hrun. auto.
Qed.

Lemma flatten_removes_arrays_witness :
  let h := [ArrObj [Prim (Num 2); Ref 1]; ArrObj [Prim (Num 3); Ref 2];
            RecObj [("a", Ref 0)]] in
  let out := [Prim (Num 1); Prim (Num 2); Prim (Num 3); Ref 2; Prim (Str "x")] in
  flatten 3 h [Prim (Num 1); Ref 0; Prim (Str "x")] = Some out /\
  Forall (fun v => isArray h v = false) out /\
  flatten 1 h out = Some out.
Proof.
  intros h out. split; [reflexivity |].
  destruct (flatten_removes_arrays 3 h [Prim (Num 1); Ref 0; Prim (Str "x")] out)
    as (H1 & H2 & _); [reflexivity |].
  split; [exact H1 | exact H2].
Defined.

(** Flattening distributes over concatenation: the flattened elements of the
    first part come first, followed by those of the second. *)
Theorem flatten_app (fuel : nat) (h : heap) (xs ys : list value) :
  flatten fuel h (xs ++ ys) =
  (a ← flatten fuel h xs; b ← flatten fuel h ys; Some (a ++ b)).
Proof.
  destruct fuel as [|fuel]; [reflexivity |]. cbn [flatten].
  rewrite for_of_app.
  destruct (for_of _ xs []) as [a|]; cbn [mbind option_bind]; [| reflexivity].
  apply for_of_flatten_acc.
Qed.

(** * [groupBy] *)

Lemma group_of_set_group (k key : string) (xs : list value) (acc : groups) :
  group_of k (set_group key xs acc) =
  if String.eqb k key then Some xs else group_of k acc.
Proof.
  induction acc as [|[k0 ys] acc IH]; simpl.
  - destruct (String.eqb k key); reflexivity.
  - destruct (String.eqb_spec key k0) as [->|Hne]; simpl.
    + destruct (String.eqb k k0); reflexivity.
    + destruct (String.eqb_spec k k0) as [->|Hne2].
      * destruct (String.eqb_spec k0 key) as [->|_]; [contradiction | reflexivity].
      * exact IH.
Qed.

Lemma keys_set_group (key : string) (xs : list value) (acc : groups) :
  List.NoDup (map fst acc) -> List.NoDup (map fst (set_group key xs acc)).
Proof.
  induction acc as [|[k0 ys] acc IH]; simpl; intros Hnd.
  - constructor; [intros [] | constructor].
  - inversion Hnd as [|? ? Hnotin Hnd']; subst.
    destruct (String.eqb_spec key k0) as [->|Hne]; simpl.
    + constructor; assumption.
    + constructor; [| auto].
      intros Hin. apply Hnotin. clear -Hin Hne.
      induction acc as [|[k1 zs] acc IH]; simpl in *.
      * destruct Hin as [Heq|[]]. congruence.
      * destruct (String.eqb_spec key k1) as [->|Hne1]; simpl in Hin; [exact Hin |].
        destruct Hin as [Heq|Hin]; [auto | right; exact (IH Hin)].
Qed.

Lemma groupBy_fold (keyGetter : value -> string) (k : string) (xs : list value) :
  forall acc,
  group_of k (fold_left (groupItem keyGetter) xs acc) =
  match List.filter (fun item => String.eqb (keyGetter item) k) xs with
  | [] => group_of k acc
  | items => Some (default [] (group_of k acc) ++ items)
  end.
Proof.
  induction xs as [|x xs IH]; intros acc; cbn [fold_left List.filter];
    [reflexivity |].
  rewrite IH. clear IH. unfold groupItem.
  set (acc1 := match group_of (keyGetter x) acc with
               | None => set_group (keyGetter x) [] acc
               | Some _ => acc
               end).
  assert (H1 : default [] (group_of (keyGetter x) acc1) =
               default [] (group_of (keyGetter x) acc)).
  { unfold acc1. destruct (group_of (keyGetter x) acc) eqn:Hg; [rewrite Hg; reflexivity |].
    rewrite group_of_set_group, String.eqb_refl. reflexivity. }
  assert (H2 : forall k', k' <> keyGetter x -> group_of k' acc1 = group_of k' acc).
  { intros k' Hne. unfold acc1. destruct (group_of (keyGetter x) acc); [reflexivity |].
    rewrite group_of_set_group.
    destruct (String.eqb_spec k' (keyGetter x)); [contradiction | reflexivity]. }
  rewrite group_of_set_group, H1.
  destruct (String.eqb_spec (keyGetter x) k) as [<-|Hne].
  - rewrite String.eqb_refl. cbn [default id].
    destruct (List.filter _ xs) as [|y ys]; [reflexivity |].
    rewrite <- app_assoc. reflexivity.
  - destruct (String.eqb_spec k (keyGetter x)) as [->|Hne2]; [contradiction |].
    rewrite (H2 k Hne2). reflexivity.
Qed.


(** * [shuffle] *)

Lemma insert_Permutation {A : Type} (l : list A) : forall j y a,
  l !! j = Some y -> Permutation (y :: <[j := a]> l) (a :: l).
Proof.
  induction l as [|b l IH]; intros [|j] y a; simpl; try discriminate.
  - intros Heq. apply (inj Some) in Heq. subst. apply perm_swap.
  - intros Hj. etransitivity; [apply perm_swap |].
    etransitivity; [apply perm_skip, (IH j y a Hj) |]. apply perm_swap.
Qed.

Lemma swap_lt_Permutation {A : Type} (l : list A) : forall i j x y,
  i < j -> l !! i = Some x -> l !! j = Some y ->
  Permutation (<[j := x]> (<[i := y]> l)) l.
Proof.
  induction l as [|a l IH]; intros [|i] [|j] x y Hlt; simpl; try discriminate; try lia.
  - intros Heq Hj. apply (inj Some) in Heq. subst. apply insert_Permutation, Hj.
  - intros Hi Hj. apply perm_skip. apply (IH i j x y); [lia | exact Hi | exact Hj].
Qed.

Lemma swap_Permutation {A : Type} (l : list A) (i j : nat) :
  Permutation (swap l i j) l.
Proof.
  unfold swap. destruct (l !! i) as [x|] eqn:Hi; [| reflexivity].
  destruct (l !! j) as [y|] eqn:Hj; [| reflexivity].
  destruct (Nat.lt_trichotomy i j) as [Hlt|[->|Hgt]].
  - apply (swap_lt_Permutation l i j x y Hlt Hi Hj).
  - assert (y = x) by congruence. subst y.
    rewrite list_insert_insert_eq, list_insert_id by exact Hi. reflexivity.
  - rewrite list_insert_insert_ne by lia.
    apply (swap_lt_Permutation l j i y x Hgt Hj Hi).
Qed.

Lemma shuffle_loop_Permutation {A : Type} (random : nat -> nat) (i : nat) :
  forall result : list A, Permutation (shuffle_loop random i result) result.
Proof.
  induction i as [|i IH]; intros result; cbn [shuffle_loop]; [reflexivity |].
  etransitivity; [apply IH | apply swap_Permutation].
Qed.

(** Whatever the random numbers are, the result of [shuffle] is a
    rearrangement of the array: the same elements, each as many times as
    before, and so the same length.  The index drawn in the iteration for
    [i] lies between 0 and [i], as [Math.floor(Math.random() * (i + 1))]
    does; [swap] is the exchange of two elements only for such indices. *)
Theorem shuffle_permutation {A : Type} (random : nat -> nat) (array : list A) :
  (forall i, random i <= i) ->
  Permutation (shuffle random array) array /\
  length (shuffle random array) = length array.
Proof.
  intros _. assert (H : Permutation (shuffle random array) array)
    by apply shuffle_loop_Permutation.
  split; [exact H | apply Permutation_length, H].
Qed.

Lemma shuffle_permutation_witness :
  shuffle (fun i => i / 2) [1; 2; 3; 4; 5] = [5; 1; 4; 2; 3] /\
  Permutation (shuffle (fun i => i / 2) [1; 2; 3; 4; 5]) [1; 2; 3; 4; 5].
Proof.
  split; [reflexivity |].
  apply (shuffle_permutation (fun i => i / 2) [1; 2; 3; 4; 5]).
  intros i. apply Nat.Div0.div_le_upper_bound. lia.
Defined.

(** * [escapeHtml] and [unescapeHtml] *)

Lemma replace_unit (p : ascii) (rep : string) (c : ascii) (s : string) :
  replace_all (String p EmptyString) rep (String c s) =
  (if Ascii.eqb p c then rep else String c EmptyString)
  +:+ replace_all (String p EmptyString) rep s.
Proof.
  unfold replace_all. cbn [replace_from starts_with String.length Nat.sub].
  rewrite andb_true_r. destruct (Ascii.eqb p c); reflexivity.
Qed.

Lemma replace_unit_app (p : ascii) (rep : string) (a b : string) :
  replace_all (String p EmptyString) rep (a +:+ b) =
  replace_all (String p EmptyString) rep a +:+ replace_all (String p EmptyString) rep b.
Proof.
  induction a as [|c a IH]; [reflexivity |].
  change (String c a +:+ b) with (String c (a +:+ b)).
  rewrite !replace_unit, IH. symmetry. apply append_assoc.
Qed.

Ltac each_unit c := destruct c as [[] [] [] [] [] [] [] []].

Lemma escapeHtml_cons (c : ascii) (s : string) :
  escapeHtml (String c s) = entity_after 0 c +:+ escapeHtml s.
Proof.
  unfold escapeHtml, quot. rewrite replace_unit. rewrite !replace_unit_app.
  f_equal. each_unit c; vm_compute; reflexivity.
Qed.

Lemma escapeHtml_entities (s : string) :
  escapeHtml s = map_units (entity_after 0) s.
Proof.
  induction s as [|c s IH]; [reflexivity |].
  rewrite escapeHtml_cons, IH. reflexivity.
Qed.

Lemma has_unit_app (c : ascii) (a b : string) :
  has_unit c (a +:+ b) = has_unit c a || has_unit c b.
Proof.
  induction a as [|x a IH]; [reflexivity |].
  change (String x a +:+ b) with (String x (a +:+ b)).
  cbn [has_unit]. rewrite IH. apply orb_assoc.
Qed.

Lemma has_unit_entities (c : ascii) (s : string) :
  (forall x, has_unit c (entity_after 0 x) = false) ->
  has_unit c (map_units (entity_after 0) s) = false.
Proof.
  intros Hc. induction s as [|x s IH]; [reflexivity |].
  cbn [map_units]. rewrite has_unit_app, Hc, IH. reflexivity.
Qed.

Lemma replace_stage (pat rep : string) (f g : ascii -> string) :
  (forall c rest, c <> "&"%char ->
     replace_all pat rep (f c +:+ rest) = g c +:+ replace_all pat rep rest) ->
  forall s, has_unit "&" s = false ->
    replace_all pat rep (map_units f s) = map_units g s.
Proof.
  intros Hstep. induction s as [|c s IH]; [reflexivity |].
  cbn [has_unit map_units]. intros Hamp. apply orb_false_iff in Hamp.
  destruct Hamp as [Hc Hs]. rewrite Hstep.
  - rewrite (IH Hs). reflexivity.
  - intros ->. discriminate Hc.
Qed.

Lemma map_units_id (s : string) : map_units (entity_after 5) s = s.
Proof.
  induction s as [|c s IH]; [reflexivity |]. cbn [map_units]. rewrite IH.
  unfold entity_after. repeat destruct (Ascii.eqb c _); reflexivity.
Qed.

Ltac stage c Hc := each_unit c; try reflexivity; exfalso; apply Hc; reflexivity.

(** [escapeHtml] writes every code unit once, as its entity or as itself, so
    that none of the four characters it replaces besides the ampersand is
    left in the result.  [unescapeHtml] gives a text without ampersands back
    from its escaped form; a text with an ampersand need not come back,
    because the entity of the ampersand is replaced first and what it leaves
    can form another entity. *)
Theorem escapeHtml_unescapeHtml (html : string) :
  escapeHtml html = map_units (entity_after 0) html /\
  (has_unit "<" (escapeHtml html) = false /\
   has_unit ">" (escapeHtml html) = false /\
   has_unit "034" (escapeHtml html) = false /\
   has_unit "'" (escapeHtml html) = false) /\
  (has_unit "&" html = false -> unescapeHtml (escapeHtml html) = html) /\
  unescapeHtml (escapeHtml "&lt;") = "<".
Proof.
  split; [apply escapeHtml_entities |]. split; [| split; [| reflexivity]].
  - rewrite escapeHtml_entities.
    repeat split; apply has_unit_entities; intros x; each_unit x; reflexivity.
  - intros Hamp. rewrite escapeHtml_entities. unfold unescapeHtml.
    rewrite (replace_stage "&amp;" "&" (entity_after 0) (entity_after 1))
      by (try exact Hamp; intros c rest Hc; stage c Hc).
    rewrite (replace_stage "&lt;" "<" (entity_after 1) (entity_after 2))
      by (try exact Hamp; intros c rest Hc; stage c Hc).
    rewrite (replace_stage "&gt;" ">" (entity_after 2) (entity_after 3))
      by (try exact Hamp; intros c rest Hc; stage c Hc).
    rewrite (replace_stage "&quot;" quot (entity_after 3) (entity_after 4))
      by (try exact Hamp; intros c rest Hc; stage c Hc).
    rewrite (replace_stage "&#039;" "'" (entity_after 4) (entity_after 5))
      by (try exact Hamp; intros c rest Hc; stage c Hc).
    apply map_units_id.
Qed.

Lemma escapeHtml_unescapeHtml_witness :
  escapeHtml "a<b>'c'" = "a&lt;b&gt;&#039;c&#039;" /\
  unescapeHtml (escapeHtml "a<b>'c'") = "a<b>'c'".
Proof.
  destruct (escapeHtml_unescapeHtml "a<b>'c'") as (_ & _ & Hback & _).
  split; [reflexivity | apply Hback; reflexivity].
Defined.
